(** * Buddy allocator of paddle/fluid/memory/detail/buddy_allocator.cc

    A shallow embedding of [BuddyAllocator] (constructor state, [Alloc],
    [Free], [SystemAlloc], [RefillPool], [FindExistChunk], [SplitToAlloc]
    and the destructor) together with the properties of the allocator that
    the specification states.

    - [size_t] values and addresses are integers in [0, 2^64); every
      arithmetic operation of the source is written with its wrap-around.
    - The free pool [std::set<IndexSizeAddress>] is a strictly sorted list
      of triples, ordered lexicographically as [std::tuple] is.
    - The metadata cache is a finite map from chunk address to descriptor.
    - The system allocator is an injected capability: every call of [Alloc]
      receives the answer the system allocator gives to the single request
      that the call may issue. *)

From Stdlib Require Import ZArith Lia List Bool.
From stdpp Require Import base tactics option list sorting gmap.

Local Open Scope Z_scope.

(** ** size_t arithmetic *)

Definition size_t_modulus : Z := 2 ^ 64.

Definition wrap (z : Z) : Z := z mod size_t_modulus.

Definition wadd (a b : Z) : Z := wrap (a + b).

Definition wsub (a b : Z) : Z := wrap (a - b).

Definition in_size_t (z : Z) : Prop := 0 <= z < size_t_modulus.

Definition in_size_tb (z : Z) : bool := (0 <=? z) && (z <? size_t_modulus).

(** [inline size_t align(size_t size, size_t alignment)], lines 52-55.
    [alignment = 0] is a division by zero in the source; the allocator is
    only constructed with a positive [min_chunk_size]. *)
Definition align (size alignment : Z) : Z :=
  let remaining := size mod alignment in
  if remaining =? 0 then size else wadd size (wsub alignment remaining).

(** The round-up the specification calls [align_up], over the unbounded
    integers: the least multiple of [alignment] that is not below [size]. *)
Definition align_up (size alignment : Z) : Z :=
  ((size + alignment - 1) / alignment) * alignment.

(** ** Descriptors *)

Inductive ChunkType := FREE_CHUNK | ARENA_CHUNK | HUGE_CHUNK.

#[global] Instance ChunkType_eq_dec : EqDecision ChunkType.
Proof. solve_decision. Defined.

(** [MemoryBlock::Desc].  The source reads [type], [index], [size] and
    [total_size]; the neighbour links and the two guards are the fields the
    specification lists.  A null pointer is the address 0. *)
Record Desc := mkDesc {
  desc_type : ChunkType;
  desc_index : Z;
  desc_size : Z;
  desc_total_size : Z;
  desc_prev : Z;
  desc_next : Z;
  desc_leading_guard : Z;
  desc_trailing_guard : Z
}.

(** Construction parameters of the allocator and the constants of the
    translation unit whose declarations are in headers.
    [guard_hash seed state index total_size size prev next] is the guard
    function; [split_min_residual] is the largest residual that
    [MemoryBlock::split] leaves attached to the served chunk (the
    specification puts it at [sizeof(Descriptor) + min_chunk_size]; the
    results below hold for every non-negative value). *)
Record Config := mkConfig {
  min_chunk_size : Z;
  max_chunk_size : Z;
  sizeof_desc : Z;
  sizeof_trailing_guard : Z;
  split_min_residual : Z;
  use_gpu : bool;
  FLAGS_reallocate_gpu_memory_in_mb : Z;
  guard_hash : Z -> ChunkType -> Z -> Z -> Z -> Z -> Z -> Z
}.

Definition valid_config (cfg : Config) : bool :=
  (0 <? min_chunk_size cfg) && (min_chunk_size cfg <? size_t_modulus)
  && in_size_tb (max_chunk_size cfg)
  && in_size_tb (sizeof_desc cfg)
  && in_size_tb (sizeof_trailing_guard cfg)
  && (0 <=? split_min_residual cfg).

(** The request size computed at lines 59-60 of [Alloc]. *)
Definition computed_size (cfg : Config) (unaligned_size : Z) : Z :=
  align (wadd unaligned_size (sizeof_desc cfg)) (min_chunk_size cfg).

(** ** The free pool *)

Definition IndexSizeAddress : Type := Z * Z * Z.

Definition get0 (e : IndexSizeAddress) : Z := fst (fst e).
Definition get1 (e : IndexSizeAddress) : Z := snd (fst e).
Definition get2 (e : IndexSizeAddress) : Z := snd e.

(** [operator<] of [std::tuple<size_t, size_t, void*>]. *)
Definition isa_ltb (a b : IndexSizeAddress) : bool :=
  (get0 a <? get0 b)
  || ((get0 a =? get0 b)
      && ((get1 a <? get1 b) || ((get1 a =? get1 b) && (get2 a <? get2 b)))).

Definition isa_lt (a b : IndexSizeAddress) : Prop := isa_ltb a b = true.

Definition isa_eqb (a b : IndexSizeAddress) : bool :=
  (get0 a =? get0 b) && (get1 a =? get1 b) && (get2 a =? get2 b).

(** [pool_.lower_bound(key)]: the first entry that is not less than [key];
    [None] is [pool_.end()]. *)
Definition lower_bound (key : IndexSizeAddress) (pool : list IndexSizeAddress)
  : option IndexSizeAddress :=
  find (fun e => negb (isa_ltb e key)) pool.

(** [pool_.insert(key)]: an entry equal to [key] is kept as it is. *)
Fixpoint pool_insert (key : IndexSizeAddress) (pool : list IndexSizeAddress)
  : list IndexSizeAddress :=
  match pool with
  | [] => [key]
  | e :: rest =>
      if isa_ltb key e then key :: pool
      else if isa_ltb e key then e :: pool_insert key rest
      else pool
  end.

(** [pool_.erase(key)] and [pool_.erase(it)]. *)
Fixpoint pool_erase (key : IndexSizeAddress) (pool : list IndexSizeAddress)
  : list IndexSizeAddress :=
  match pool with
  | [] => []
  | e :: rest => if isa_eqb e key then rest else e :: pool_erase key rest
  end.

(** The entries of a pool are size_t triples. *)
Definition isa_in_range (e : IndexSizeAddress) : Prop :=
  0 <= get0 e /\ 0 <= get1 e /\ 0 <= get2 e.

Definition pool_sorted (pool : list IndexSizeAddress) : Prop :=
  StronglySorted isa_lt pool /\ Forall isa_in_range pool.

(** [BuddyAllocator::FindExistChunk], lines 221-241.  The [while (1)] loop
    runs on fuel; [None] means the fuel ran out, [Some None] is
    [pool_.end()]. *)
Fixpoint FindExistChunk_loop (fuel : nat) (pool : list IndexSizeAddress)
    (size index : Z) : option (option IndexSizeAddress) :=
  match fuel with
  | O => None
  | S fuel' =>
      match lower_bound (index, size, 0) pool with
      | None => Some None
      | Some it =>
          if get0 it >? index then
            if get1 it >=? size then Some (Some it)
            else FindExistChunk_loop fuel' pool size (get0 it)
          else Some (Some it)
      end
  end.

Definition FindExistChunk (pool : list IndexSizeAddress) (size : Z)
  : option (option IndexSizeAddress) :=
  FindExistChunk_loop (S (length pool)) pool size 0.

(** The search as the specification words it: ask for the lower bound at
    [(current_index, size, null)]; an entry of the same index is returned;
    an entry of a larger index makes [current_index] jump there and the
    loop retries; the end of the pool is a miss. *)
Fixpoint FindExistChunk_retry (fuel : nat) (pool : list IndexSizeAddress)
    (size index : Z) : option (option IndexSizeAddress) :=
  match fuel with
  | O => None
  | S fuel' =>
      match lower_bound (index, size, 0) pool with
      | None => Some None
      | Some it =>
          if get0 it =? index then Some (Some it)
          else FindExistChunk_retry fuel' pool size (get0 it)
      end
  end.

(** Order of the chunks of one region: by [total_size], then by address. *)
Definition size_addr_le (a b : IndexSizeAddress) : Prop :=
  get1 a < get1 b \/ (get1 a = get1 b /\ get2 a <= get2 b).

(** ** Metadata cache and memory blocks *)

Definition guard_of (cfg : Config) (seed : Z) (d : Desc) : Z :=
  guard_hash cfg seed (desc_type d) (desc_index d) (desc_total_size d)
    (desc_size d) (desc_prev d) (desc_next d).

(** [Desc::update_guards()], called at line 254. *)
Definition update_guards (cfg : Config) (d : Desc) : Desc :=
  mkDesc (desc_type d) (desc_index d) (desc_size d) (desc_total_size d)
    (desc_prev d) (desc_next d) (guard_of cfg 1 d) (guard_of cfg 2 d).

Definition check_guards (cfg : Config) (d : Desc) : bool :=
  (desc_leading_guard d =? guard_of cfg 1 d)
  && (desc_trailing_guard d =? guard_of cfg 2 d).

(** Modelled from the spec: [MetadataCache::load_desc] (meta_cache.cc is not
    part of the sources).  It returns the authoritative descriptor, checks
    the guards, and fails fatally ([None]) on a mismatch or a missing
    entry. *)
Definition load_desc (cfg : Config) (cache : gmap Z Desc) (block : Z)
  : option Desc :=
  match cache !! block with
  | Some d => if check_guards cfg d then Some d else None
  | None => None
  end.

(** Modelled from the spec: [MetadataCache::invalidate] removes the chunk
    from the cache. *)
Definition invalidate (block : Z) (cache : gmap Z Desc) : gmap Z Desc :=
  delete block cache.

(** Modelled from the spec: [store(chunk, desc)], the write-through used by
    [init] and by every mutation; guards are recomputed on the way. *)
Definition store (cfg : Config) (block : Z) (d : Desc) (cache : gmap Z Desc)
  : gmap Z Desc :=
  <[block := update_guards cfg d]> cache.

(** Modelled from the spec: the payload size of a chunk, from the layout
    invariant [total_size = sizeof(Descriptor) + size + sizeof(trailing
    guard)]. *)
Definition payload_size (cfg : Config) (total : Z) : Z :=
  wsub (wsub total (sizeof_desc cfg)) (sizeof_trailing_guard cfg).

(** Modelled from the spec: [MemoryBlock::init(cache, state, index,
    total_size, prev, next)] writes a fresh descriptor at the base of the
    chunk, recomputes the guards and registers it in the cache. *)
Definition init (cfg : Config) (cache : gmap Z Desc) (block : Z)
    (t : ChunkType) (index total prev next : Z) : gmap Z Desc :=
  store cfg block (mkDesc t index (payload_size cfg total) total prev next 0 0)
    cache.

(** Modelled from the spec: [MemoryBlock::data()], the payload address
    [base + sizeof(Descriptor)]. *)
Definition data (cfg : Config) (block : Z) : Z := wadd block (sizeof_desc cfg).

(** Modelled from the spec: [MemoryBlock::metadata()], which recovers the
    descriptor address by subtracting [sizeof(Descriptor)]. *)
Definition metadata (cfg : Config) (p : Z) : Z := wsub p (sizeof_desc cfg).

Definition set_type (t : ChunkType) (d : Desc) : Desc :=
  mkDesc t (desc_index d) (desc_size d) (desc_total_size d) (desc_prev d)
    (desc_next d) (desc_leading_guard d) (desc_trailing_guard d).

Definition set_prev (prev : Z) (d : Desc) : Desc :=
  mkDesc (desc_type d) (desc_index d) (desc_size d) (desc_total_size d) prev
    (desc_next d) (desc_leading_guard d) (desc_trailing_guard d).

Definition set_extent (cfg : Config) (total next : Z) (d : Desc) : Desc :=
  mkDesc (desc_type d) (desc_index d) (payload_size cfg total) total
    (desc_prev d) next (desc_leading_guard d) (desc_trailing_guard d).

(** Modelled from the spec: [MemoryBlock::mark_as_free] flips the state to
    FREE and refreshes the guards. *)
Definition mark_as_free (cfg : Config) (block : Z) (cache : gmap Z Desc)
  : option (gmap Z Desc) :=
  d ← load_desc cfg cache block;
  Some (store cfg block (set_type FREE_CHUNK d) cache).

(** Modelled from the spec: [MemoryBlock::get_right_buddy] and
    [get_left_buddy] return the physical neighbour within the source
    region; the result 0 is the [false] answer of the source. *)
Definition get_right_buddy (cfg : Config) (cache : gmap Z Desc) (block : Z)
  : option Z :=
  d ← load_desc cfg cache block; Some (desc_next d).

Definition get_left_buddy (cfg : Config) (cache : gmap Z Desc) (block : Z)
  : option Z :=
  d ← load_desc cfg cache block; Some (desc_prev d).

(** Rewrites the [prev] link of the chunk at [neighbour], if there is one. *)
Definition relink_prev (cfg : Config) (neighbour prev : Z)
    (cache : gmap Z Desc) : option (gmap Z Desc) :=
  if neighbour =? 0 then Some cache
  else n ← load_desc cfg cache neighbour;
       Some (store cfg neighbour (set_prev prev n) cache).

(** Modelled from the spec: [MemoryBlock::split(cache, requested_total)].
    When the residual [total_size - requested_total] is not larger than a
    minimum viable chunk, [split_min_residual], nothing happens and the
    caller keeps the whole block.  Otherwise the chunk
    shrinks to [requested_total], a new FREE chunk with the residual size is
    carved at [base + requested_total], and the links are fixed so that the
    new chunk sits between this chunk and its previous [next]. *)
Definition split (cfg : Config) (cache : gmap Z Desc) (block size : Z)
  : option (gmap Z Desc) :=
  d ← load_desc cfg cache block;
  if desc_total_size d - size <=? split_min_residual cfg then Some cache
  else
    let right_partition := wadd block size in
    let residual := desc_total_size d - size in
    let cache1 :=
      init cfg cache right_partition FREE_CHUNK (desc_index d) residual block
        (desc_next d) in
    let cache2 := store cfg block (set_extent cfg size right_partition d) cache1 in
    relink_prev cfg (desc_next d) right_partition cache2.

(** Modelled from the spec: [MemoryBlock::merge(cache, right)].  The
    [total_size] of the chunk absorbs the one of [right], the links skip
    over [right], and the descriptor of [right] is invalidated. *)
Definition merge (cfg : Config) (cache : gmap Z Desc) (block right : Z)
  : option (gmap Z Desc) :=
  d ← load_desc cfg cache block;
  r ← load_desc cfg cache right;
  let total := wadd (desc_total_size d) (desc_total_size r) in
  let cache1 := store cfg block (set_extent cfg total (desc_next r) d) cache in
  cache2 ← relink_prev cfg (desc_next r) block cache1;
  Some (invalidate right cache2).

(** ** The allocator *)

(** What the system allocator did for the allocator, in call order. *)
Inductive SysEvent :=
| EvRefill (bytes p index : Z)
| EvSystemAlloc (bytes p index : Z)
| EvSystemFree (p bytes index : Z).

Record State := mkState {
  pool_ : list IndexSizeAddress;
  cache_ : gmap Z Desc;
  total_used_ : Z;
  total_free_ : Z;
  realloc_size_ : Z;
  sys_log : list SysEvent
}.

(** The state after the constructor, lines 30-36. *)
Definition empty_allocator : State := mkState [] ∅ 0 0 0 [].

(** The answers of the environment during one call of [Alloc]:
    [system_allocator_->Alloc(&index, bytes)] returns [sys_ptr] (0 for
    null) and writes [sys_index]; the two platform queries of the CUDA
    build return [GpuInitAllocSize] and [GpuReallocSize]. *)
Record SysEnv := mkSysEnv {
  sys_ptr : Z;
  sys_index : Z;
  GpuInitAllocSize : Z;
  GpuReallocSize : Z
}.

(** [BuddyAllocator::SystemAlloc], lines 169-181. *)
Definition SystemAlloc (cfg : Config) (env : SysEnv) (size : Z) (st : State)
  : Z * State :=
  let p := sys_ptr env in
  if p =? 0 then (0, st)
  else
    (data cfg p,
     mkState (pool_ st)
       (init cfg (cache_ st) p HUGE_CHUNK (sys_index env) size 0 0)
       (total_used_ st) (total_free_ st) (realloc_size_ st)
       (sys_log st ++ [EvSystemAlloc size p (sys_index env)])).

(** The size requested by [RefillPool], lines 185-202, with the value of
    [realloc_size_] after the computation.  [use_gpu] stands for a CUDA
    build whose system allocator answers [UseGpu()] with true. *)
Definition refill_bytes (cfg : Config) (env : SysEnv) (request_bytes : Z)
    (st : State) : Z * Z :=
  if use_gpu cfg then
    if wadd (total_used_ st) (total_free_ st) =? 0 then
      (Z.max (GpuInitAllocSize env) request_bytes, realloc_size_ st)
    else
      let realloc :=
        if (realloc_size_ st =? 0) || (FLAGS_reallocate_gpu_memory_in_mb cfg =? 0)
        then GpuReallocSize env else realloc_size_ st in
      (Z.max realloc request_bytes, realloc)
  else (max_chunk_size cfg, realloc_size_ st).

(** [BuddyAllocator::RefillPool], lines 183-219; the iterator [None] is
    [pool_.end()]. *)
Definition RefillPool (cfg : Config) (env : SysEnv) (request_bytes : Z)
    (st : State) : option IndexSizeAddress * State :=
  let '(allocate_bytes, realloc) := refill_bytes cfg env request_bytes st in
  let p := sys_ptr env in
  let index := sys_index env in
  if p =? 0 then
    (None,
     mkState (pool_ st) (cache_ st) (total_used_ st) (total_free_ st) realloc
       (sys_log st))
  else
    (Some (index, allocate_bytes, p),
     mkState (pool_insert (index, allocate_bytes, p) (pool_ st))
       (init cfg (cache_ st) p FREE_CHUNK index allocate_bytes 0 0)
       (total_used_ st) (wadd (total_free_ st) allocate_bytes) realloc
       (sys_log st ++ [EvRefill allocate_bytes p index])).

Definition desc_key (block : Z) (d : Desc) : IndexSizeAddress :=
  (desc_index d, desc_total_size d, block).

(** [BuddyAllocator::SplitToAlloc], lines 243-270; [desc] is a pointer into
    the cache, so the write at line 253 goes to the descriptor as [split]
    left it. *)
Definition SplitToAlloc (cfg : Config) (it : IndexSizeAddress) (size : Z)
    (pool : list IndexSizeAddress) (cache : gmap Z Desc)
  : option (Z * list IndexSizeAddress * gmap Z Desc) :=
  let block := get2 it in
  _ ← load_desc cfg cache block;
  let pool1 := pool_erase it pool in
  cache1 ← split cfg cache block size;
  desc ← cache1 !! block;
  let cache2 := <[block := update_guards cfg (set_type ARENA_CHUNK desc)]> cache1 in
  right_buddy ← get_right_buddy cfg cache2 block;
  if right_buddy =? 0 then Some (block, pool1, cache2)
  else
    rb_desc ← load_desc cfg cache2 right_buddy;
    match desc_type rb_desc with
    | FREE_CHUNK =>
        Some (block, pool_insert (desc_key right_buddy rb_desc) pool1, cache2)
    | _ => Some (block, pool1, cache2)
    end.

(** [BuddyAllocator::Alloc], lines 57-95.  The result is the returned
    pointer (0 for [nullptr]) with the state after the call; [None] is a
    fatal integrity failure. *)
Definition Alloc (cfg : Config) (env : SysEnv) (unaligned_size : Z)
    (st : State) : option (Z * State) :=
  let size := computed_size cfg unaligned_size in
  if size >? max_chunk_size cfg then Some (SystemAlloc cfg env size st)
  else
    found ← FindExistChunk (pool_ st) size;
    let '(it, st1) :=
      match found with
      | None => RefillPool cfg env size st
      | Some e => (Some e, st)
      end in
    match it with
    | None => Some (0, st1)
    | Some e =>
        let used := wadd (total_used_ st1) size in
        let free := wsub (total_free_ st1) size in
        '(block, pool', cache') ← SplitToAlloc cfg e size (pool_ st1) (cache_ st1);
        Some (data cfg block,
              mkState pool' cache' used free (realloc_size_ st1) (sys_log st1))
    end.

(** The right-buddy step of [Free], lines 122-137. *)
Definition merge_right_buddy (cfg : Config) (block : Z)
    (pool : list IndexSizeAddress) (cache : gmap Z Desc)
  : option (list IndexSizeAddress * gmap Z Desc) :=
  right_buddy ← get_right_buddy cfg cache block;
  if right_buddy =? 0 then Some (pool, cache)
  else
    rb_desc ← load_desc cfg cache right_buddy;
    match desc_type rb_desc with
    | FREE_CHUNK =>
        cache' ← merge cfg cache block right_buddy;
        Some (pool_erase (desc_key right_buddy rb_desc) pool, cache')
    | _ => Some (pool, cache)
    end.

(** The left-buddy step of [Free], lines 139-157; the last component is the
    block that [block] and [desc] designate afterwards. *)
Definition merge_left_buddy (cfg : Config) (block : Z)
    (pool : list IndexSizeAddress) (cache : gmap Z Desc)
  : option (list IndexSizeAddress * gmap Z Desc * Z) :=
  left_buddy ← get_left_buddy cfg cache block;
  if left_buddy =? 0 then Some (pool, cache, block)
  else
    lb_desc ← load_desc cfg cache left_buddy;
    match desc_type lb_desc with
    | FREE_CHUNK =>
        cache' ← merge cfg cache left_buddy block;
        Some (pool_erase (desc_key left_buddy lb_desc) pool, cache', left_buddy)
    | _ => Some (pool, cache, block)
    end.

(** [BuddyAllocator::Free], lines 97-163; [None] is a fatal integrity
    failure. *)
Definition Free (cfg : Config) (p : Z) (st : State) : option State :=
  let block := metadata cfg p in
  desc ← load_desc cfg (cache_ st) block;
  match desc_type desc with
  | HUGE_CHUNK =>
      Some (mkState (pool_ st) (invalidate block (cache_ st)) (total_used_ st)
              (total_free_ st) (realloc_size_ st)
              (sys_log st
               ++ [EvSystemFree block (desc_total_size desc) (desc_index desc)]))
  | _ =>
      cache1 ← mark_as_free cfg block (cache_ st);
      desc1 ← cache1 !! block;
      let used := wsub (total_used_ st) (desc_total_size desc1) in
      let free := wadd (total_free_ st) (desc_total_size desc1) in
      '(pool2, cache2) ← merge_right_buddy cfg block (pool_ st) cache1;
      '(pool3, cache3, block') ← merge_left_buddy cfg block pool2 cache2;
      desc3 ← cache3 !! block';
      Some (mkState (pool_insert (desc_key block' desc3) pool3) cache3 used free
              (realloc_size_ st) (sys_log st))
  end.

(** [BuddyAllocator::~BuddyAllocator], lines 38-50: the loop takes
    [pool_.begin()] until the pool is empty. *)
Fixpoint release_pool (cfg : Config) (pool : list IndexSizeAddress)
    (cache : gmap Z Desc) (log : list SysEvent)
  : option (gmap Z Desc * list SysEvent) :=
  match pool with
  | [] => Some (cache, log)
  | e :: rest =>
      let block := get2 e in
      desc ← load_desc cfg cache block;
      release_pool cfg rest (invalidate block cache)
        (log ++ [EvSystemFree block (desc_size desc) (desc_index desc)])
  end.

Definition Destructor (cfg : Config) (st : State) : option State :=
  '(cache, log) ← release_pool cfg (pool_ st) (cache_ st) (sys_log st);
  Some (mkState [] cache (total_used_ st) (total_free_ st) (realloc_size_ st) log).

(** [BuddyAllocator::Used], line 165. *)
Definition Used (st : State) : Z := total_used_ st.

(** ** Runs of the allocator *)

Inductive Call :=
| CallAlloc (env : SysEnv) (unaligned_size : Z)
| CallFree (p : Z).

Definition exec (cfg : Config) (c : Call) (st : State) : option State :=
  match c with
  | CallAlloc env unaligned_size => snd <$> Alloc cfg env unaligned_size st
  | CallFree p => Free cfg p st
  end.

(** The states the allocator can be in after any sequence of calls that
    return. *)
Inductive reachable (cfg : Config) : State -> Prop :=
| reachable_init : reachable cfg empty_allocator
| reachable_step st c st' :
    reachable cfg st -> exec cfg c st = Some st' -> reachable cfg st'.

(** Sum of [allocate_bytes] over the successful refills of the log. *)
Fixpoint refilled_bytes (log : list SysEvent) : Z :=
  match log with
  | [] => 0
  | EvRefill bytes _ _ :: rest => bytes + refilled_bytes rest
  | _ :: rest => refilled_bytes rest
  end.

(** ** Sample configurations *)

(** The configuration of the end-to-end scenarios of the specification. *)
Definition scenario_config : Config :=
  mkConfig 256 4096 32 0 288 false 0
    (fun seed _ i t s p n => wrap (seed + i + t + s + p + n)).

Definition scenario_env (p index : Z) : SysEnv := mkSysEnv p index 0 0.

(** ** Properties of the size computation *)

(** [m] is the smallest multiple of [a] that is not below [s]. *)
Definition least_multiple_ge (m a s : Z) : Prop :=
  (a | m) /\ s <= m /\ forall m', (a | m') -> s <= m' -> m <= m'.

(** ** Properties of the pool search *)

(** [r] is the answer the specification promises for a request of [size]:
    the smallest fitting chunk of the lowest region index that has a
    fitting chunk, or the end of the pool when no chunk fits. *)
Definition best_fit (pool : list IndexSizeAddress) (size : Z)
    (r : option IndexSizeAddress) : Prop :=
  match r with
  | Some it =>
      it ∈ pool /\ size <= get1 it
      /\ forall e, e ∈ pool -> size <= get1 e ->
           get0 it < get0 e \/ (get0 it = get0 e /\ size_addr_le it e)
  | None => forall e, e ∈ pool -> get1 e < size
  end.

(** ** Properties of the huge path and of the destructor *)

(** [Alloc] hands the request to [SystemAlloc] and does nothing else. *)
Definition bypasses_pool (cfg : Config) (env : SysEnv) (unaligned_size : Z)
    (st : State) : Prop :=
  Alloc cfg env unaligned_size st
  = Some (SystemAlloc cfg env (computed_size cfg unaligned_size) st).

(** The pool and the two counters of [st'] are those of [st]. *)
Definition same_pool_and_counters (st st' : State) : Prop :=
  pool_ st' = pool_ st /\ total_used_ st' = total_used_ st
  /\ total_free_ st' = total_free_ st.

(** The call [system_allocator_->Free(block, desc->size, desc->index)] the
    destructor issues for the pool entry [e]. *)
Definition release_event (cache : gmap Z Desc) (e : IndexSizeAddress)
  : option SysEvent :=
  d ← cache !! get2 e;
  Some (EvSystemFree (get2 e) (desc_size d) (desc_index d)).

Definition invalidate_all (pool : list IndexSizeAddress) (cache : gmap Z Desc)
  : gmap Z Desc :=
  foldl (fun c e => invalidate (get2 e) c) cache pool.

(** The state after one small allocation in the specification's scenario. *)
Definition scenario_state1 : State :=
  default empty_allocator
    (snd <$> Alloc scenario_config (scenario_env 65536 0) 100 empty_allocator).

(** The counter invariant, in the arithmetic of the counters. *)
Definition counter_sum_ok (st : State) : Prop :=
  wadd (total_used_ st) (total_free_ st) = wrap (refilled_bytes (sys_log st)).

(** ** Well-formed heaps *)

(** The regions obtained by refills, as pool keys [(index, bytes, base)]. *)
Definition refill_regions (log : list SysEvent) : list IndexSizeAddress :=
  omap (fun ev => match ev with
                  | EvRefill bytes p index => Some (index, bytes, p)
                  | _ => None
                  end) log.

Definition region_end (r : IndexSizeAddress) : Z := get2 r + get1 r.

(** What holds of the descriptor [d] cached for the chunk at [a]: valid
    guards, a non-empty extent inside the address space, consistent links
    to the physical neighbours, no links on HUGE chunks, and a position
    inside a refilled region whose ends are exactly where the links are
    null. *)
Record chunk_ok (cfg : Config) (cache : gmap Z Desc)
    (regions : list IndexSizeAddress) (a : Z) (d : Desc) : Prop := {
  chunk_guards : check_guards cfg d = true;
  chunk_extent :
    0 < a /\ 0 < desc_total_size d /\ a + desc_total_size d <= size_t_modulus;
  chunk_fields :
    0 <= desc_index d /\ desc_size d = payload_size cfg (desc_total_size d);
  chunk_next :
    desc_next d <> 0 ->
    desc_next d = a + desc_total_size d
    /\ exists d', cache !! desc_next d = Some d' /\ desc_prev d' = a;
  chunk_prev :
    desc_prev d <> 0 ->
    exists d', cache !! desc_prev d = Some d' /\ desc_next d' = a;
  chunk_huge :
    desc_type d = HUGE_CHUNK -> desc_prev d = 0 /\ desc_next d = 0;
  chunk_region :
    desc_type d <> HUGE_CHUNK ->
    exists r, r ∈ regions /\ desc_index d = get0 r /\ get2 r <= a
              /\ a + desc_total_size d <= region_end r
              /\ (desc_prev d = 0 <-> a = get2 r)
              /\ (desc_next d = 0 <-> a + desc_total_size d = region_end r)
}.

Definition apart (a1 n1 a2 n2 : Z) : Prop := a1 + n1 <= a2 \/ a2 + n2 <= a1.

Record wf_heap (cfg : Config) (cache : gmap Z Desc)
    (regions : list IndexSizeAddress) : Prop := {
  wf_chunks : forall a d, cache !! a = Some d -> chunk_ok cfg cache regions a d;
  wf_disjoint :
    forall a1 d1 a2 d2, cache !! a1 = Some d1 -> cache !! a2 = Some d2 ->
      a1 <> a2 -> apart a1 (desc_total_size d1) a2 (desc_total_size d2);
  wf_region_base :
    forall r, r ∈ regions ->
      0 < get1 r
      /\ exists d, cache !! get2 r = Some d /\ desc_type d <> HUGE_CHUNK;
  wf_regions_disjoint :
    forall r1 r2, r1 ∈ regions -> r2 ∈ regions ->
      r1 = r2 \/ apart (get2 r1) (get1 r1) (get2 r2) (get1 r2);
  wf_regions_nodup : NoDup regions
}.

(** A well-formed allocator: a well-formed heap, a sorted pool that holds
    exactly the FREE chunks, and no two FREE physical neighbours. *)
Record wf_state (cfg : Config) (st : State) : Prop := {
  wf_st_heap : wf_heap cfg (cache_ st) (refill_regions (sys_log st));
  wf_st_sorted : pool_sorted (pool_ st);
  wf_st_pool :
    forall e, e ∈ pool_ st <->
      exists d, cache_ st !! get2 e = Some d /\ desc_type d = FREE_CHUNK
                /\ e = desc_key (get2 e) d;
  wf_st_coalesced :
    forall a d d', cache_ st !! a = Some d -> desc_type d = FREE_CHUNK ->
      cache_ st !! desc_next d = Some d' -> desc_type d' <> FREE_CHUNK
}.

(** The bytes [Alloc] asks of the system allocator, when it asks. *)
Definition requested_bytes (cfg : Config) (env : SysEnv) (unaligned_size : Z)
    (st : State) : Z :=
  let size := computed_size cfg unaligned_size in
  if size >? max_chunk_size cfg then size
  else (refill_bytes cfg env size st).1.

(** The contract of the system allocator: a region it returns lies in the
    address space, is not at the null address and overlaps neither a
    refilled region nor a live HUGE chunk. *)
Definition fresh_region (st : State) (p bytes : Z) : Prop :=
  0 < p /\ p + bytes <= size_t_modulus
  /\ (forall r, r ∈ refill_regions (sys_log st) ->
        apart p bytes (get2 r) (get1 r))
  /\ (forall a d, cache_ st !! a = Some d -> desc_type d = HUGE_CHUNK ->
        apart p bytes a (desc_total_size d)).

Definition env_ok (cfg : Config) (env : SysEnv) (unaligned_size : Z)
    (st : State) : Prop :=
  sys_ptr env <> 0 ->
  0 <= sys_index env
  /\ fresh_region st (sys_ptr env) (requested_bytes cfg env unaligned_size st).

(** ** Runs of allocations followed by frees *)

(** [alloc_run cfg st sizes ps st']: the calls [Alloc(s)] for [s] in
    [sizes], whose computed sizes are at most [max_chunk_size], all succeed
    from [st], return the pointers [ps] and lead to [st']. *)
Inductive alloc_run (cfg : Config) : State -> list Z -> list Z -> State -> Prop :=
| alloc_run_nil st : alloc_run cfg st [] [] st
| alloc_run_cons st env unaligned_size p st1 sizes ps st2 :
    in_size_t unaligned_size ->
    computed_size cfg unaligned_size <= max_chunk_size cfg ->
    env_ok cfg env unaligned_size st ->
    Alloc cfg env unaligned_size st = Some (p, st1) ->
    p <> 0 ->
    alloc_run cfg st1 sizes ps st2 ->
    alloc_run cfg st (unaligned_size :: sizes) (p :: ps) st2.

Fixpoint run_frees (cfg : Config) (ps : list Z) (st : State) : option State :=
  match ps with
  | [] => Some st
  | p :: rest => st' ← Free cfg p st; run_frees cfg rest st'
  end.

(** The pool after the refills of the log alone. *)
Definition refills_only_pool (log : list SysEvent) : list IndexSizeAddress :=
  foldl (fun pool r => pool_insert r pool) [] (refill_regions log).

Definition index_size (e : IndexSizeAddress) : Z * Z := (get0 e, get1 e).

(** Freeing the pointers [ps] in any order from [st] ends in a pool that
    is, as a multiset of [(index, total_size)] pairs, the pool of the
    refills alone. *)
Definition roundtrip_law (cfg : Config) (ps : list Z) (st : State) : Prop :=
  forall ps', ps' ≡ₚ ps ->
    exists st', run_frees cfg ps' st = Some st'
                /\ index_size <$> pool_ st'
                   ≡ₚ index_size <$> refills_only_pool (sys_log st').

(** ** The results of the block operations on a well-formed heap *)

(** The cache after the [prev] link of [neighbour] is set to [prev]. *)
Definition relinked (cfg : Config) (neighbour prev : Z) (cache : gmap Z Desc)
  : gmap Z Desc :=
  match cache !! neighbour with
  | Some n => <[neighbour := update_guards cfg (set_prev prev n)]> cache
  | None => cache
  end.

(** The cache after the chunk at [x] has absorbed its right neighbour
    [y]. *)
Definition merged (cfg : Config) (cache : gmap Z Desc) (x y : Z) (dx dy : Desc)
  : gmap Z Desc :=
  delete y
    (relinked cfg (desc_next dy) x
       (<[x := update_guards cfg
                 (set_extent cfg (desc_total_size dx + desc_total_size dy)
                    (desc_next dy) dx)]> cache)).

(** The cache after the chunk at [a] has been cut at [a + size]. *)
Definition carved (cfg : Config) (cache : gmap Z Desc) (a size : Z) (d : Desc)
  : gmap Z Desc :=
  relinked cfg (desc_next d) (a + size)
    (<[a := update_guards cfg (set_extent cfg size (a + size) d)]>
       (<[a + size :=
            update_guards cfg
              (mkDesc FREE_CHUNK (desc_index d)
                 (payload_size cfg (desc_total_size d - size))
                 (desc_total_size d - size) a (desc_next d) 0 0)]> cache)).

(** What is known of the right neighbour of the chunk at [a]. *)
Definition next_linked (cache : gmap Z Desc) (a : Z) (d : Desc) : Prop :=
  forall d', cache !! desc_next d = Some d' ->
    desc_next d = a + desc_total_size d /\ desc_prev d' = a
    /\ desc_type d' <> HUGE_CHUNK /\ 0 < desc_total_size d'.

(** The cache and the pool after [SplitToAlloc] has served [size] bytes
    from the FREE chunk at [b] with descriptor [d]. *)
Definition served (cfg : Config) (cache : gmap Z Desc) (b size : Z) (d : Desc)
  : gmap Z Desc :=
  if desc_total_size d - size <=? split_min_residual cfg
  then <[b := update_guards cfg (set_type ARENA_CHUNK d)]> cache
  else <[b := update_guards cfg
                (set_type ARENA_CHUNK (set_extent cfg size (b + size) d))]>
         (carved cfg cache b size d).

Definition served_pool (cfg : Config) (pool : list IndexSizeAddress)
    (b size : Z) (d : Desc) : list IndexSizeAddress :=
  if desc_total_size d - size <=? split_min_residual cfg
  then pool_erase (desc_key b d) pool
  else pool_insert (desc_index d, desc_total_size d - size, b + size)
         (pool_erase (desc_key b d) pool).

(** The chunk at [k] is handed out. *)
Definition is_arena (cache : gmap Z Desc) (k : Z) : Prop :=
  exists d, cache !! k = Some d /\ desc_type d = ARENA_CHUNK.

(** No chunk of the cache is HUGE. *)
Definition no_huge (cache : gmap Z Desc) : Prop :=
  forall k d, cache !! k = Some d -> desc_type d <> HUGE_CHUNK.

(** [e] is the pool key of a FREE chunk of the cache. *)
Definition free_entry (cache : gmap Z Desc) (e : IndexSizeAddress) : Prop :=
  exists d, cache !! get2 e = Some d /\ desc_type d = FREE_CHUNK
            /\ e = desc_key (get2 e) d.

(** The allocator in the middle of [Free]: the chunk at [x] is FREE but not
    yet in the pool, and it is the only FREE chunk that may have a FREE
    physical neighbour. *)
Record wf_pending (cfg : Config) (pool : list IndexSizeAddress)
    (cache : gmap Z Desc) (regions : list IndexSizeAddress) (x : Z) : Prop := {
  pend_heap : wf_heap cfg cache regions;
  pend_sorted : pool_sorted pool;
  pend_pool : forall e, e ∈ pool <-> free_entry cache e /\ get2 e <> x;
  pend_coalesced :
    forall k dk dk', cache !! k = Some dk -> desc_type dk = FREE_CHUNK ->
      cache !! desc_next dk = Some dk' -> desc_type dk' = FREE_CHUNK ->
      k = x \/ desc_next dk = x
}.

(** Two descriptors that differ at most in their [prev] link and guards. *)
Definition same_chunk (d d' : Desc) : Prop :=
  desc_type d' = desc_type d /\ desc_index d' = desc_index d
  /\ desc_total_size d' = desc_total_size d /\ desc_next d' = desc_next d.

(** The chunk at [k] is handed out with [total] bytes. *)
Definition arena_at (cache : gmap Z Desc) (k total : Z) : Prop :=
  exists d, cache !! k = Some d /\ desc_type d = ARENA_CHUNK
            /\ desc_total_size d = total.

(** The pointers [ps] are exactly the payload pointers of the chunks that
    are handed out. *)
Definition outstanding (cfg : Config) (cache : gmap Z Desc) (ps : list Z)
  : Prop :=
  NoDup ps /\ forall p, p ∈ ps <-> exists b, p = data cfg b /\ is_arena cache b.

(** The state after [Alloc(SIZE_MAX - 31)] on a fresh allocator in the
    configuration of the scenarios. *)
Definition scenario_wrapped_state : State :=
  default empty_allocator
    (snd <$> Alloc scenario_config (scenario_env 65536 0) (2 ^ 64 - 32)
               empty_allocator).

(** The state after a second small allocation in the scenario. *)
Definition scenario_state2 : State :=
  default scenario_state1
    (snd <$> Alloc scenario_config (scenario_env 0 0) 100 scenario_state1).

(** No FREE chunk of the cache has a FREE right neighbour. *)
Definition coalesced (cache : gmap Z Desc) : Prop :=
  forall a d d', cache !! a = Some d -> desc_type d = FREE_CHUNK ->
    cache !! desc_next d = Some d' -> desc_type d' <> FREE_CHUNK.

(** The two caches hand out the same chunks and hold the same HUGE
    chunks. *)
Definition same_served (cache1 cache2 : gmap Z Desc) : Prop :=
  (forall k t, arena_at cache1 k t <-> arena_at cache2 k t)
  /\ (forall k dk, desc_type dk = HUGE_CHUNK ->
        (cache1 !! k = Some dk <-> cache2 !! k = Some dk)).

(** The state after [Free] of the two payload pointers, in this order. *)
Definition free_both (cfg : Config) (p q : Z) (st : State) : option State :=
  st1 ← Free cfg p st; Free cfg q st1.

(** The pool entry [e] covers the bytes from [lo] up to [hi]. *)
Definition covers (e : IndexSizeAddress) (lo hi : Z) : Prop :=
  get2 e <= lo /\ hi <= get2 e + get1 e.

(** The descriptor cached for the chunk at [k] after the two allocations of
    the scenario. *)
Definition scenario_chunk (k : Z) : Desc :=
  default (mkDesc FREE_CHUNK 0 0 0 0 0 0 0) (cache_ scenario_state2 !! k).

(** ** Proper use of the allocator *)

(** A call a client may make in [st]: an allocation of a non-zero computed
    size that a well-behaved system allocator answers, or the release of a
    pointer that is handed out. *)
Definition good_call (cfg : Config) (st : State) (c : Call) : Prop :=
  match c with
  | CallAlloc env unaligned_size =>
      0 < computed_size cfg unaligned_size /\ env_ok cfg env unaligned_size st
  | CallFree p =>
      exists b d, p = data cfg b /\ cache_ st !! b = Some d
                  /\ desc_type d <> FREE_CHUNK
  end.

(** The states of an allocator that has only seen such calls. *)
Inductive well_used (cfg : Config) : State -> Prop :=
| well_used_init : well_used cfg empty_allocator
| well_used_step st c st' :
    well_used cfg st -> good_call cfg st c -> exec cfg c st = Some st' ->
    well_used cfg st'.

(** ** The remaining members *)

(** [BuddyAllocator::GetMinChunkSize] and [GetMaxChunkSize], lines 166-167. *)
Definition GetMinChunkSize (cfg : Config) : Z := min_chunk_size cfg.

Definition GetMaxChunkSize (cfg : Config) : Z := max_chunk_size cfg.

(** ** A device allocator *)

(** The configuration of the scenarios with a system allocator that answers
    [UseGpu()] with true, in a CUDA build. *)
Definition scenario_gpu_config : Config :=
  mkConfig 256 4096 32 0 288 true 0
    (fun seed _ i t s p n => wrap (seed + i + t + s + p + n)).

(** The device allocator after one huge allocation. *)
Definition scenario_gpu_state : State :=
  default empty_allocator
    (snd <$> Alloc scenario_gpu_config (mkSysEnv 131072 0 8192 2048) 5000
               empty_allocator).

(** ** Destruction of an allocator with nothing handed out *)

(** The call of the system allocator's [Free] that gives back the region
    [r] as one chunk. *)
Definition region_release (cfg : Config) (r : IndexSizeAddress) : SysEvent :=
  EvSystemFree (get2 r) (payload_size cfg (get1 r)) (get0 r).

(** The scenario after the first of the two pointers has been released, and
    after both have. *)
Definition scenario_state3 : State :=
  default scenario_state2 (Free scenario_config 65568 scenario_state2).

Definition scenario_state4 : State :=
  default scenario_state3 (Free scenario_config 65824 scenario_state3).

(** * Proofs *)

(** ** size_t arithmetic *)

Lemma size_t_modulus_pos : 0 < size_t_modulus.
Proof. reflexivity. Qed.

Lemma wrap_range z : in_size_t (wrap z).
Proof. unfold in_size_t, wrap. apply Z.mod_pos_bound, size_t_modulus_pos. Qed.

Lemma wrap_small z : in_size_t z -> wrap z = z.
Proof. unfold in_size_t, wrap. intros H. by apply Z.mod_small. Qed.

Lemma in_size_tb_true z : in_size_tb z = true <-> in_size_t z.
Proof. unfold in_size_tb, in_size_t. lia. Qed.

Lemma wrap_wrap_add a b : wrap (wrap a + b) = wrap (a + b).
Proof. unfold wrap. by rewrite Zplus_mod_idemp_l. Qed.

Lemma wrap_add_wrap a b : wrap (a + wrap b) = wrap (a + b).
Proof. unfold wrap. by rewrite Zplus_mod_idemp_r. Qed.

Lemma wrap_wrap_sub a b : wrap (wrap a - b) = wrap (a - b).
Proof. unfold wrap. by rewrite Zminus_mod_idemp_l. Qed.

Lemma wrap_sub_wrap a b : wrap (a - wrap b) = wrap (a - b).
Proof. unfold wrap. by rewrite Zminus_mod_idemp_r. Qed.

Lemma wsub_wadd_cancel b d : in_size_t b -> wsub (wadd b d) d = b.
Proof.
  intros Hb. unfold wsub, wadd. rewrite wrap_wrap_sub.
  replace (b + d - d) with b by lia. by apply wrap_small.
Qed.

Lemma metadata_data cfg block : in_size_t block -> metadata cfg (data cfg block) = block.
Proof. apply wsub_wadd_cancel. Qed.

Lemma valid_config_spec cfg :
  valid_config cfg = true ->
  0 < min_chunk_size cfg < size_t_modulus /\ in_size_t (max_chunk_size cfg)
  /\ in_size_t (sizeof_desc cfg) /\ in_size_t (sizeof_trailing_guard cfg)
  /\ 0 <= split_min_residual cfg.
Proof. unfold valid_config, in_size_tb, in_size_t. lia. Qed.

(** ** [align] *)

Lemma align_up_least s a : 0 < a -> least_multiple_ge (align_up s a) a s.
Proof.
  intros Ha. unfold least_multiple_ge, align_up.
  pose proof (Z.div_mod (s + a - 1) a ltac:(lia)) as Hdm.
  pose proof (Z.mod_pos_bound (s + a - 1) a Ha) as Hb.
  set (q := (s + a - 1) / a) in *. set (r := (s + a - 1) mod a) in *.
  split; [by apply Z.divide_factor_r|]. split; [lia|].
  intros m' [k ->] Hle.
  assert (q <= k); [|nia].
  assert (q < k + 1); [|lia]. nia.
Qed.

Lemma align_no_overflow s a :
  0 < a -> 0 <= s -> align_up s a < size_t_modulus -> align s a = align_up s a.
Proof.
  intros Ha Hs Hfit. unfold align, align_up in *.
  pose proof (Z.div_mod s a ltac:(lia)) as Hdm.
  pose proof (Z.mod_pos_bound s a Ha) as Hb.
  pose proof (Z.div_pos s a Hs Ha) as Hq.
  set (q := s / a) in *. set (r := s mod a) in *.
  destruct (Z.eqb_spec r 0) as [Hr|Hr].
  - replace (s + a - 1) with (q * a + (a - 1)) by lia.
    rewrite Z.div_add_l by lia. rewrite (Z.div_small (a - 1) a) by lia. lia.
  - assert (Hceil : (s + a - 1) / a = q + 1).
    { replace (s + a - 1) with ((q + 1) * a + (r - 1)) by lia.
      rewrite Z.div_add_l by lia. rewrite (Z.div_small (r - 1) a) by lia. lia. }
    rewrite Hceil in *.
    unfold wadd, wsub. rewrite wrap_add_wrap.
    replace (s + (a - r)) with ((q + 1) * a) by lia.
    apply wrap_small. unfold in_size_t. nia.
Qed.

Lemma computed_size_no_overflow cfg unaligned_size :
  valid_config cfg = true -> in_size_t unaligned_size ->
  align_up (unaligned_size + sizeof_desc cfg) (min_chunk_size cfg) < size_t_modulus ->
  computed_size cfg unaligned_size
  = align_up (unaligned_size + sizeof_desc cfg) (min_chunk_size cfg).
Proof.
  intros Hcfg Hu Hfit. apply valid_config_spec in Hcfg as (Hmin & _ & Hd & _).
  unfold in_size_t in *. unfold computed_size.
  pose proof (align_up_least (unaligned_size + sizeof_desc cfg) (min_chunk_size cfg)
                ltac:(lia)) as (_ & Hge & _).
  rewrite <- (align_no_overflow (unaligned_size + sizeof_desc cfg)) by lia.
  unfold wadd. rewrite wrap_small; [done|]. unfold in_size_t. lia.
Qed.

(** C7, as stated, fails: for [Alloc(SIZE_MAX - 32)] the sum
    [unaligned_size + sizeof(Desc)] is [SIZE_MAX], whose round-up wraps
    around in [align]; the computed request is 0, which is below the sum. *)
Lemma computed_size_wraps_counterexample :
  valid_config scenario_config = true /\ in_size_t (2 ^ 64 - 33)
  /\ computed_size scenario_config (2 ^ 64 - 33) = 0
  /\ ~ least_multiple_ge (computed_size scenario_config (2 ^ 64 - 33))
        (min_chunk_size scenario_config)
        (2 ^ 64 - 33 + sizeof_desc scenario_config).
Proof.
  split; [reflexivity|]. split; [by vm_compute|]. split; [reflexivity|].
  intros (_ & H & _). vm_compute in H. by apply H.
Qed.

(** C7 (amended): for every [unaligned_size] whose round-up fits in
    [size_t], [Alloc] computes its request as the smallest multiple of
    [min_chunk_size] that is at least [unaligned_size + sizeof(Desc)];
    with a non-empty descriptor [Alloc(0)] then asks for at least one
    [min_chunk_size] unit. *)
Theorem computed_size_least_multiple cfg unaligned_size :
  valid_config cfg = true -> in_size_t unaligned_size ->
  align_up (unaligned_size + sizeof_desc cfg) (min_chunk_size cfg) < size_t_modulus ->
  least_multiple_ge (computed_size cfg unaligned_size) (min_chunk_size cfg)
    (unaligned_size + sizeof_desc cfg)
  /\ (unaligned_size = 0 -> 0 < sizeof_desc cfg ->
      min_chunk_size cfg <= computed_size cfg unaligned_size).
Proof.
  intros Hcfg Hu Hfit. rewrite computed_size_no_overflow by done.
  apply valid_config_spec in Hcfg as (Hmin & _).
  pose proof (align_up_least (unaligned_size + sizeof_desc cfg) (min_chunk_size cfg)
                ltac:(lia)) as Hleast.
  split; [done|]. intros -> Hd. destruct Hleast as ([k Hk] & Hge & _).
  rewrite Hk in *. destruct (Z_le_gt_dec k 0); nia.
Qed.

Lemma computed_size_least_multiple_witness :
  least_multiple_ge (computed_size scenario_config 0)
    (min_chunk_size scenario_config) (0 + sizeof_desc scenario_config)
  /\ (0 = 0 -> 0 < sizeof_desc scenario_config ->
      min_chunk_size scenario_config <= computed_size scenario_config 0).
Proof.
  apply (computed_size_least_multiple scenario_config 0).
  - reflexivity.
  - unfold in_size_t, size_t_modulus. lia.
  - vm_compute. reflexivity.
Defined.

(** ** The order of the pool *)

Lemma isa_ltb_irrefl a : isa_ltb a a = false.
Proof. unfold isa_ltb. lia. Qed.

Lemma isa_lt_trans a b c : isa_lt a b -> isa_lt b c -> isa_lt a c.
Proof. unfold isa_lt, isa_ltb. lia. Qed.

Lemma isa_eq_components (a b : IndexSizeAddress) :
  get0 a = get0 b -> get1 a = get1 b -> get2 a = get2 b -> a = b.
Proof. destruct a as [[??]?], b as [[??]?]. unfold get0, get1, get2. simpl. congruence. Qed.

Lemma isa_ltb_total a b : isa_ltb a b = false -> a = b \/ isa_lt b a.
Proof.
  intros H.
  destruct (decide (get0 a = get0 b /\ get1 a = get1 b /\ get2 a = get2 b))
    as [(?&?&?)|Hne].
  - left. by apply isa_eq_components.
  - right. unfold isa_lt, isa_ltb in *. lia.
Qed.

Lemma isa_lt_asym a b : isa_lt a b -> isa_ltb b a = false.
Proof. unfold isa_lt, isa_ltb. lia. Qed.

Lemma isa_eqb_eq a b : isa_eqb a b = true <-> a = b.
Proof.
  split.
  - intros H. apply isa_eq_components; unfold isa_eqb in H; lia.
  - intros ->. unfold isa_eqb. lia.
Qed.

#[local] Instance isa_lt_Transitive : Transitive isa_lt.
Proof. intros a b c. apply isa_lt_trans. Qed.

(** ** [lower_bound] on a sorted pool *)

Lemma lower_bound_None key pool :
  lower_bound key pool = None -> forall e, e ∈ pool -> isa_lt e key.
Proof.
  unfold lower_bound. intros H e He. apply list_elem_of_In in He.
  pose proof (find_none _ _ H e He) as Hn. simpl in Hn. unfold isa_lt.
  by destruct (isa_ltb e key).
Qed.

Lemma lower_bound_Some key pool it :
  StronglySorted isa_lt pool -> lower_bound key pool = Some it ->
  it ∈ pool /\ isa_ltb it key = false
  /\ forall e, e ∈ pool -> isa_ltb e key = false -> e = it \/ isa_lt it e.
Proof.
  unfold lower_bound. induction 1 as [|x l Hl IH Hx]; simpl; [done|].
  destruct (isa_ltb x key) eqn:Hxk; simpl.
  - intros Hf. destruct (IH Hf) as (Hin & Hk & Hmin).
    split; [by right|]. split; [done|].
    intros e He Hek. apply elem_of_cons in He as [->|He]; [congruence|]. by apply Hmin.
  - intros [= <-]. split; [by left|]. split; [done|].
    intros e He _. apply elem_of_cons in He as [->|He]; [by left|].
    right. rewrite Forall_forall in Hx. by apply Hx.
Qed.

(** ** [FindExistChunk] *)

Lemma best_fit_unique pool size r1 r2 :
  best_fit pool size r1 -> best_fit pool size r2 -> r1 = r2.
Proof.
  destruct r1 as [a|], r2 as [b|]; simpl.
  - intros (Ha & Hfa & Hmina) (Hb & Hfb & Hminb).
    specialize (Hmina b Hb Hfb). specialize (Hminb a Ha Hfa).
    unfold size_addr_le in *. f_equal. apply isa_eq_components; lia.
  - intros (Ha & Hfa & _) Hn. specialize (Hn a Ha). lia.
  - intros Hn (Hb & Hfb & _). specialize (Hn b Hb). lia.
  - done.
Qed.

Lemma filter_above_length_lt (pool : list IndexSizeAddress) index it :
  it ∈ pool -> index < get0 it ->
  (length (filter (fun e => (get0 it < get0 e)%Z) pool)
   < length (filter (fun e => (index < get0 e)%Z) pool))%nat.
Proof.
  intros Hin Hlt.
  assert (Hle : forall l : list IndexSizeAddress,
             (length (filter (fun e => (get0 it < get0 e)%Z) l)
              <= length (filter (fun e => (index < get0 e)%Z) l))%nat).
  { induction l as [|x l IH]; [done|]. rewrite !filter_cons.
    repeat case_decide; simpl; lia. }
  induction pool as [|x l IH]; [by apply elem_of_nil in Hin|].
  rewrite !filter_cons. apply elem_of_cons in Hin as [<-|Hin].
  - rewrite decide_False by lia. rewrite decide_True by lia.
    specialize (Hle l). simpl. lia.
  - specialize (IH Hin). repeat case_decide; simpl; lia.
Qed.

(** One iteration of either search loop: what the lower bound at
    [(index, size, null)] tells about the pool. *)
Lemma lower_bound_step pool size index :
  pool_sorted pool -> 0 <= index ->
  (forall e, e ∈ pool -> get0 e < index -> get1 e < size) ->
  match lower_bound (index, size, 0) pool with
  | None => best_fit pool size None
  | Some it =>
      it ∈ pool /\ index <= get0 it
      /\ (get0 it = index -> best_fit pool size (Some it))
      /\ (size <= get1 it -> best_fit pool size (Some it))
      /\ (forall e, e ∈ pool -> get0 e < get0 it -> get1 e < size)
  end.
Proof.
  intros [Hs Hr] Hidx Hinv. rewrite Forall_forall in Hr.
  destruct (lower_bound (index, size, 0) pool) as [it|] eqn:Hlb.
  - destruct (lower_bound_Some _ _ _ Hs Hlb) as (Hin & Hge & Hmin).
    assert (Hbelow : forall e, e ∈ pool -> get0 e < get0 it -> get1 e < size).
    { intros e He Hlt. destruct (isa_ltb e (index, size, 0)) eqn:Hek.
      - destruct (decide (get0 e < index)); [by apply Hinv|].
        specialize (Hr e He). unfold isa_in_range, isa_ltb, get0, get1, get2 in *.
        simpl in *. lia.
      - destruct (Hmin e He Hek) as [->|Hlt']; [lia|].
        unfold isa_lt, isa_ltb in Hlt'. lia. }
    assert (Hbest : size <= get1 it -> best_fit pool size (Some it)).
    { intros Hfit. split; [done|]. split; [done|]. intros e He Hfe.
      destruct (decide (get0 e < get0 it)) as [Hlt|Hnlt].
      { specialize (Hbelow e He Hlt). lia. }
      destruct (isa_ltb e (index, size, 0)) eqn:Hek.
      - pose proof (Hr it Hin) as Hrit. specialize (Hr e He).
        unfold isa_in_range, isa_ltb, get0, get1, get2 in *. simpl in *.
        destruct (decide (fst (fst e) < index)) as [Hl|Hl]; [|lia].
        specialize (Hinv e He). unfold get0, get1 in Hinv. lia.
      - destruct (Hmin e He Hek) as [->|Hlt'].
        + right. unfold size_addr_le. lia.
        + unfold isa_lt, isa_ltb, size_addr_le in *. lia. }
    split; [done|]. split.
    { unfold isa_ltb, get0, get1, get2 in *. simpl in *. lia. }
    split; [|done]. intros Heq. apply Hbest.
    specialize (Hr it Hin). unfold isa_in_range, isa_ltb, get0, get1, get2 in *.
    simpl in *. lia.
  - simpl. intros e He. pose proof (lower_bound_None _ _ Hlb e He) as Hlt.
    specialize (Hr e He). destruct (decide (get0 e < index)); [by apply Hinv|].
    unfold isa_in_range, isa_lt, isa_ltb, get0, get1, get2 in *. simpl in *. lia.
Qed.

Lemma FindExistChunk_loop_best_fit pool size :
  pool_sorted pool ->
  forall fuel index, 0 <= index ->
    (forall e, e ∈ pool -> get0 e < index -> get1 e < size) ->
    (length (filter (fun e => (index < get0 e)%Z) pool) < fuel)%nat ->
    exists r, FindExistChunk_loop fuel pool size index = Some r
              /\ best_fit pool size r.
Proof.
  intros Hpool. induction fuel as [|fuel IH]; intros index Hidx Hinv Hfuel; [lia|].
  simpl. pose proof (lower_bound_step pool size index Hpool Hidx Hinv) as Hstep.
  destruct (lower_bound (index, size, 0) pool) as [it|]; [|by exists None].
  destruct Hstep as (Hin & Hle & Hsame & Hfit & Hbelow).
  destruct (Z.gtb_spec (get0 it) index) as [Hgt|Hngt].
  - destruct (Z.geb_spec (get1 it) size) as [Hge|Hnge].
    + exists (Some it). split; [done|]. apply Hfit. lia.
    + apply IH; [lia|done|].
      pose proof (filter_above_length_lt pool index it Hin ltac:(lia)). lia.
  - exists (Some it). split; [done|]. apply Hsame. lia.
Qed.

Lemma FindExistChunk_retry_best_fit pool size :
  pool_sorted pool ->
  forall fuel index, 0 <= index ->
    (forall e, e ∈ pool -> get0 e < index -> get1 e < size) ->
    (length (filter (fun e => (index < get0 e)%Z) pool) < fuel)%nat ->
    exists r, FindExistChunk_retry fuel pool size index = Some r
              /\ best_fit pool size r.
Proof.
  intros Hpool. induction fuel as [|fuel IH]; intros index Hidx Hinv Hfuel; [lia|].
  simpl. pose proof (lower_bound_step pool size index Hpool Hidx Hinv) as Hstep.
  destruct (lower_bound (index, size, 0) pool) as [it|]; [|by exists None].
  destruct Hstep as (Hin & Hle & Hsame & Hfit & Hbelow).
  destruct (Z.eqb_spec (get0 it) index) as [Heq|Hne].
  - exists (Some it). split; [done|]. by apply Hsame.
  - apply IH; [lia|done|].
    pose proof (filter_above_length_lt pool index it Hin ltac:(lia)). lia.
Qed.

Lemma pool_sorted_index_nonneg pool e : pool_sorted pool -> e ∈ pool -> 0 <= get0 e.
Proof. intros [_ Hr] He. rewrite Forall_forall in Hr. by apply Hr. Qed.

Lemma FindExistChunk_fuel pool :
  (length (filter (fun e : IndexSizeAddress => (0 < get0 e)%Z) pool)
   < S (length pool))%nat.
Proof.
  pose proof (length_filter (fun e : IndexSizeAddress => (0 < get0 e)%Z) pool). lia.
Qed.

(** The search never runs out of fuel and returns the best fit. *)
Lemma FindExistChunk_best_fit pool size :
  pool_sorted pool ->
  exists r, FindExistChunk pool size = Some r /\ best_fit pool size r.
Proof.
  intros Hpool. apply FindExistChunk_loop_best_fit; [done|lia| |apply FindExistChunk_fuel].
  intros e He Hlt. pose proof (pool_sorted_index_nonneg pool e Hpool He). lia.
Qed.

(** C2: on every pool and for every request size, [FindExistChunk] returns
    (without running out of fuel) the smallest chunk, by total size and then
    address, that fits within the lowest region index holding a fitting
    chunk, and the end of the pool when no chunk of any region fits; the
    shortcut of the code agrees with the jump-and-retry loop of the
    specification. *)
Theorem FindExistChunk_correct pool size :
  pool_sorted pool ->
  exists r, FindExistChunk pool size = Some r
            /\ best_fit pool size r
            /\ FindExistChunk_retry (S (length pool)) pool size 0 = Some r.
Proof.
  intros Hpool.
  destruct (FindExistChunk_best_fit pool size Hpool) as (r & Hr & Hbest).
  assert (Hinv : forall e, e ∈ pool -> get0 e < 0 -> get1 e < size).
  { intros e He Hlt. pose proof (pool_sorted_index_nonneg pool e Hpool He). lia. }
  destruct (FindExistChunk_retry_best_fit pool size Hpool (S (length pool)) 0
              ltac:(lia) Hinv (FindExistChunk_fuel pool)) as (r' & Hr' & Hbest').
  exists r. split; [done|]. split; [done|].
  by rewrite (best_fit_unique _ _ _ _ Hbest Hbest').
Qed.

Lemma FindExistChunk_correct_witness :
  exists r, FindExistChunk [(0, 256, 4096); (1, 512, 8192)] 300 = Some r
            /\ best_fit [(0, 256, 4096); (1, 512, 8192)] 300 r
            /\ FindExistChunk_retry 3 [(0, 256, 4096); (1, 512, 8192)] 300 0 = Some r.
Proof.
  apply (FindExistChunk_correct [(0, 256, 4096); (1, 512, 8192)] 300).
  split.
  - repeat constructor.
  - repeat constructor; vm_compute; discriminate.
Defined.

(** ** Guards and the cache *)

Lemma check_update_guards cfg d : check_guards cfg (update_guards cfg d) = true.
Proof. unfold check_guards, update_guards, guard_of. simpl. lia. Qed.

Lemma load_desc_Some cfg cache block d :
  load_desc cfg cache block = Some d <->
  cache !! block = Some d /\ check_guards cfg d = true.
Proof.
  unfold load_desc. destruct (cache !! block) as [d'|].
  - destruct (check_guards cfg d') eqn:Hg.
    + split; [by intros [= <-]|by intros [[= <-] _]].
    + split; [done|]. intros [[= <-] ?]. congruence.
  - split; [done|]. by intros [? _].
Qed.

Lemma load_desc_store_eq cfg cache block d :
  load_desc cfg (store cfg block d cache) block = Some (update_guards cfg d).
Proof.
  apply load_desc_Some. unfold store. rewrite lookup_insert_eq.
  split; [done|]. apply check_update_guards.
Qed.

Lemma load_desc_store_ne cfg cache block block' d :
  block <> block' ->
  load_desc cfg (store cfg block d cache) block' = load_desc cfg cache block'.
Proof. intros Hne. unfold load_desc, store. by rewrite lookup_insert_ne. Qed.

(** ** The huge path *)

Lemma SystemAlloc_frame cfg env size st :
  same_pool_and_counters st (SystemAlloc cfg env size st).2.
Proof. unfold SystemAlloc. by destruct (sys_ptr env =? 0). Qed.

Lemma Alloc_huge cfg env unaligned_size st :
  max_chunk_size cfg < computed_size cfg unaligned_size ->
  bypasses_pool cfg env unaligned_size st.
Proof.
  intros Hhuge. unfold bypasses_pool, Alloc.
  destruct (Z.gtb_spec (computed_size cfg unaligned_size) (max_chunk_size cfg)); [done|lia].
Qed.

Lemma Free_huge cfg p st d :
  load_desc cfg (cache_ st) (metadata cfg p) = Some d ->
  desc_type d = HUGE_CHUNK ->
  Free cfg p st
  = Some (mkState (pool_ st) (invalidate (metadata cfg p) (cache_ st))
            (total_used_ st) (total_free_ st) (realloc_size_ st)
            (sys_log st
             ++ [EvSystemFree (metadata cfg p) (desc_total_size d) (desc_index d)])).
Proof. intros Hl Ht. unfold Free. rewrite Hl. simpl. by rewrite Ht. Qed.

(** C5: when the computed size exceeds [max_chunk_size], [Alloc] is
    [SystemAlloc] and leaves the pool and both counters as they were,
    whatever the system allocator answers.  When the answer is not null the
    chunk it registers is HUGE, and [Free] of the returned pointer, in any
    later state that still holds this descriptor, releases the chunk to the
    system allocator with its total size and index, again leaving the pool
    and both counters as they were. *)
Theorem huge_path_frame cfg env unaligned_size st :
  max_chunk_size cfg < computed_size cfg unaligned_size ->
  let size := computed_size cfg unaligned_size in
  let block := sys_ptr env in
  let r := SystemAlloc cfg env size st in
  Alloc cfg env unaligned_size st = Some r
  /\ same_pool_and_counters st r.2
  /\ (block = 0 -> r = (0, st))
  /\ (in_size_t block -> block <> 0 ->
      exists d,
        r.1 = data cfg block
        /\ load_desc cfg (cache_ r.2) block = Some d
        /\ desc_type d = HUGE_CHUNK /\ desc_total_size d = size
        /\ desc_index d = sys_index env
        /\ forall st2, load_desc cfg (cache_ st2) block = Some d ->
             exists st3, Free cfg (data cfg block) st2 = Some st3
               /\ same_pool_and_counters st2 st3
               /\ cache_ st3 = invalidate block (cache_ st2)
               /\ sys_log st3
                  = sys_log st2 ++ [EvSystemFree block size (sys_index env)]).
Proof.
  intros Hhuge size block r.
  split; [exact (Alloc_huge cfg env unaligned_size st Hhuge)|].
  split; [exact (SystemAlloc_frame cfg env size st)|].
  subst r. unfold SystemAlloc. fold block.
  split; [by intros ->|]. intros Hrange Hnull.
  destruct (Z.eqb_spec block 0) as [?|_]; [done|].
  eexists. split; [done|]. simpl. unfold init.
  split; [apply load_desc_store_eq|].
  split; [done|]. split; [done|]. split; [done|].
  intros st2 Hd.
  assert (Hd' : load_desc cfg (cache_ st2) (metadata cfg (data cfg block))
                = Some (update_guards cfg
                          (mkDesc HUGE_CHUNK (sys_index env) (payload_size cfg size)
                             size 0 0 0 0))).
  { by rewrite metadata_data. }
  eexists. split; [exact (Free_huge _ _ _ _ Hd' eq_refl)|].
  rewrite metadata_data by done. simpl. done.
Qed.

Lemma huge_path_frame_witness :
  max_chunk_size scenario_config < computed_size scenario_config 5000
  /\ Alloc scenario_config (scenario_env 65536 0) 5000 empty_allocator
     = Some (SystemAlloc scenario_config (scenario_env 65536 0)
               (computed_size scenario_config 5000) empty_allocator)
  /\ same_pool_and_counters empty_allocator
       (SystemAlloc scenario_config (scenario_env 65536 0)
          (computed_size scenario_config 5000) empty_allocator).2
  /\ exists d,
       (SystemAlloc scenario_config (scenario_env 65536 0)
          (computed_size scenario_config 5000) empty_allocator).1
       = data scenario_config 65536
       /\ load_desc scenario_config
            (cache_ (SystemAlloc scenario_config (scenario_env 65536 0)
                       (computed_size scenario_config 5000) empty_allocator).2)
            65536 = Some d
       /\ desc_type d = HUGE_CHUNK
       /\ desc_total_size d = computed_size scenario_config 5000
       /\ desc_index d = 0
       /\ forall st2, load_desc scenario_config (cache_ st2) 65536 = Some d ->
            exists st3,
              Free scenario_config (data scenario_config 65536) st2 = Some st3
              /\ same_pool_and_counters st2 st3
              /\ cache_ st3 = invalidate 65536 (cache_ st2)
              /\ sys_log st3
                 = sys_log st2
                   ++ [EvSystemFree 65536 (computed_size scenario_config 5000) 0].
Proof.
  assert (Hhuge : max_chunk_size scenario_config
                  < computed_size scenario_config 5000)
    by (vm_compute; reflexivity).
  destruct (huge_path_frame scenario_config (scenario_env 65536 0) 5000
              empty_allocator Hhuge) as (Halloc & Hframe & _ & Hfree).
  split; [exact Hhuge|]. split; [exact Halloc|]. split; [exact Hframe|].
  apply Hfree.
  - unfold in_size_t, size_t_modulus. simpl. lia.
  - simpl. lia.
Defined.

(** C10, as stated, fails: with [unaligned_size = SIZE_MAX - 32] the sum
    [unaligned_size + sizeof(Desc)] is [SIZE_MAX], above [max_chunk_size],
    yet the round-up wraps around to the computed size 0 and [Alloc]
    refills the pool instead of calling [SystemAlloc]. *)
Lemma huge_routing_wraps_counterexample :
  valid_config scenario_config = true /\ in_size_t (2 ^ 64 - 33)
  /\ max_chunk_size scenario_config < (2 ^ 64 - 33) + sizeof_desc scenario_config
  /\ ~ bypasses_pool scenario_config (scenario_env 65536 0) (2 ^ 64 - 33)
         empty_allocator.
Proof.
  split; [reflexivity|]. split; [by vm_compute|].
  split; [vm_compute; reflexivity|]. unfold bypasses_pool. intros H.
  apply (f_equal (fun r => (fun x : Z * State => sys_log x.2) <$> r)) in H.
  vm_compute in H. discriminate H.
Qed.

(** C10 (amended): the huge test compares the aligned computed size, which
    includes [sizeof(Desc)], with [max_chunk_size].  For every
    [unaligned_size] with [unaligned_size + sizeof(Desc) > max_chunk_size]
    whose round-up fits in [size_t], [Alloc] bypasses the pool; with a
    non-empty descriptor this holds for [unaligned_size = max_chunk_size],
    a caller size that does not exceed [max_chunk_size]. *)
Theorem huge_routing_boundary cfg unaligned_size :
  valid_config cfg = true -> in_size_t unaligned_size ->
  max_chunk_size cfg < unaligned_size + sizeof_desc cfg ->
  align_up (unaligned_size + sizeof_desc cfg) (min_chunk_size cfg) < size_t_modulus ->
  (forall env st,
      bypasses_pool cfg env unaligned_size st
      /\ same_pool_and_counters st
           (SystemAlloc cfg env (computed_size cfg unaligned_size) st).2)
  /\ (unaligned_size = max_chunk_size cfg ->
      exists n, n <= max_chunk_size cfg /\ forall env st, bypasses_pool cfg env n st).
Proof.
  intros Hcfg Hu Hgt Hfit.
  assert (Hhuge : max_chunk_size cfg < computed_size cfg unaligned_size).
  { rewrite computed_size_no_overflow by done.
    apply valid_config_spec in Hcfg as (Hmin & _).
    pose proof (align_up_least (unaligned_size + sizeof_desc cfg)
                  (min_chunk_size cfg) ltac:(lia)) as (_ & Hge & _). lia. }
  split.
  - intros env st. split; [by apply Alloc_huge|apply SystemAlloc_frame].
  - intros Heq. exists unaligned_size. split; [lia|].
    intros env st. by apply Alloc_huge.
Qed.

Lemma huge_routing_boundary_witness :
  (forall env st,
      bypasses_pool scenario_config env 4096 st
      /\ same_pool_and_counters st
           (SystemAlloc scenario_config env (computed_size scenario_config 4096) st).2)
  /\ (4096 = max_chunk_size scenario_config ->
      exists n, n <= max_chunk_size scenario_config
                /\ forall env st, bypasses_pool scenario_config env n st).
Proof.
  apply (huge_routing_boundary scenario_config 4096).
  - reflexivity.
  - unfold in_size_t, size_t_modulus. lia.
  - simpl. lia.
  - vm_compute. reflexivity.
Defined.

(** ** Out of memory *)

Lemma RefillPool_null cfg env request_bytes st :
  sys_ptr env = 0 ->
  RefillPool cfg env request_bytes st
  = (None,
     mkState (pool_ st) (cache_ st) (total_used_ st) (total_free_ st)
       (refill_bytes cfg env request_bytes st).2 (sys_log st)).
Proof.
  intros Hp. unfold RefillPool. destruct (refill_bytes cfg env request_bytes st).
  by rewrite Hp.
Qed.

Lemma refill_bytes_host cfg env request_bytes st :
  use_gpu cfg = false ->
  refill_bytes cfg env request_bytes st = (max_chunk_size cfg, realloc_size_ st).
Proof. intros Hg. unfold refill_bytes. by rewrite Hg. Qed.

(** C6: when the pool has no fitting chunk and the system allocator
    refuses the refill, [Alloc] returns null; the pool, the cache, both
    counters and the log of system calls keep their values (only the
    memoised [realloc_size_] of a device allocator may have been refreshed,
    and on a host allocator the state is unchanged altogether). *)
Theorem Alloc_out_of_memory cfg env unaligned_size st :
  computed_size cfg unaligned_size <= max_chunk_size cfg ->
  FindExistChunk (pool_ st) (computed_size cfg unaligned_size) = Some None ->
  sys_ptr env = 0 ->
  exists st',
    Alloc cfg env unaligned_size st = Some (0, st')
    /\ pool_ st' = pool_ st /\ cache_ st' = cache_ st
    /\ total_used_ st' = total_used_ st /\ total_free_ st' = total_free_ st
    /\ sys_log st' = sys_log st
    /\ (use_gpu cfg = false -> st' = st).
Proof.
  intros Hsize Hmiss Hnull. unfold Alloc.
  destruct (Z.gtb_spec (computed_size cfg unaligned_size) (max_chunk_size cfg));
    [lia|].
  rewrite Hmiss. simpl. rewrite RefillPool_null by done.
  eexists. split; [done|]. simpl. repeat (split; [done|]).
  intros Hhost. rewrite refill_bytes_host by done. by destruct st.
Qed.

Lemma Alloc_out_of_memory_witness :
  exists st',
    Alloc scenario_config (scenario_env 0 0) 100 empty_allocator = Some (0, st')
    /\ pool_ st' = pool_ empty_allocator /\ cache_ st' = cache_ empty_allocator
    /\ total_used_ st' = total_used_ empty_allocator
    /\ total_free_ st' = total_free_ empty_allocator
    /\ sys_log st' = sys_log empty_allocator
    /\ (use_gpu scenario_config = false -> st' = empty_allocator).
Proof.
  apply (Alloc_out_of_memory scenario_config (scenario_env 0 0) 100 empty_allocator).
  - vm_compute. discriminate.
  - reflexivity.
  - reflexivity.
Defined.

(** ** The counters *)

Lemma refilled_bytes_app l1 l2 :
  refilled_bytes (l1 ++ l2) = refilled_bytes l1 + refilled_bytes l2.
Proof. induction l1 as [|[] l1 IH]; simpl; lia. Qed.

Lemma counter_move used free n :
  wadd (wadd used n) (wsub free n) = wadd used free.
Proof.
  unfold wadd, wsub. rewrite wrap_wrap_add, wrap_add_wrap. f_equal. lia.
Qed.

Lemma counter_move_back used free n :
  wadd (wsub used n) (wadd free n) = wadd used free.
Proof.
  unfold wadd, wsub. rewrite wrap_wrap_add, wrap_add_wrap. f_equal. lia.
Qed.

Lemma Alloc_counter_sum cfg env unaligned_size st p st' :
  Alloc cfg env unaligned_size st = Some (p, st') ->
  counter_sum_ok st -> counter_sum_ok st'.
Proof.
  unfold Alloc, counter_sum_ok. intros Halloc Hsum.
  destruct (computed_size cfg unaligned_size >? max_chunk_size cfg).
  { injection Halloc as Heq. unfold SystemAlloc in Heq.
    destruct (sys_ptr env =? 0); injection Heq as <- <-; simpl; [done|].
    rewrite refilled_bytes_app. simpl. by rewrite Z.add_0_r. }
  destruct (FindExistChunk (pool_ st) (computed_size cfg unaligned_size))
    as [found|]; [|done]. simpl in Halloc.
  destruct found as [e|].
  - destruct (SplitToAlloc cfg e _ (pool_ st) (cache_ st)) as [[[block pool'] cache']|];
      [|done].
    simpl in Halloc. injection Halloc as <- <-. simpl. by rewrite counter_move.
  - unfold RefillPool in Halloc.
    destruct (refill_bytes cfg env _ st) as [allocate_bytes realloc].
    destruct (sys_ptr env =? 0).
    { injection Halloc as <- <-. done. }
    simpl in Halloc.
    destruct (SplitToAlloc cfg _ _ _ _) as [[[block pool'] cache']|]; [|done].
    simpl in Halloc. injection Halloc as <- <-. simpl.
    rewrite counter_move, refilled_bytes_app. simpl.
    unfold wadd in *. rewrite wrap_add_wrap, Z.add_assoc, <- wrap_wrap_add, Hsum.
    rewrite wrap_wrap_add. f_equal. lia.
Qed.

Lemma Free_counter_sum cfg p st st' :
  Free cfg p st = Some st' -> counter_sum_ok st -> counter_sum_ok st'.
Proof.
  unfold Free, counter_sum_ok. intros Hfree Hsum.
  destruct (load_desc cfg (cache_ st) (metadata cfg p)) as [desc|]; [|done].
  simpl in Hfree.
  assert (Hother :
    (cache1 ← mark_as_free cfg (metadata cfg p) (cache_ st);
     desc1 ← cache1 !! metadata cfg p;
     '(pool2, cache2) ← merge_right_buddy cfg (metadata cfg p) (pool_ st) cache1;
     '(pool3, cache3, block') ← merge_left_buddy cfg (metadata cfg p) pool2 cache2;
     desc3 ← cache3 !! block';
     Some (mkState (pool_insert (desc_key block' desc3) pool3) cache3
             (wsub (total_used_ st) (desc_total_size desc1))
             (wadd (total_free_ st) (desc_total_size desc1))
             (realloc_size_ st) (sys_log st))) = Some st' ->
    wadd (total_used_ st') (total_free_ st') = wrap (refilled_bytes (sys_log st'))).
  { intros H. destruct (mark_as_free _ _ _) as [cache1|]; [|done]. simpl in H.
    destruct (cache1 !! metadata cfg p) as [desc1|]; [|done]. simpl in H.
    destruct (merge_right_buddy _ _ _ _) as [[pool2 cache2]|]; [|done]. simpl in H.
    destruct (merge_left_buddy _ _ _ _) as [[[pool3 cache3] block']|]; [|done].
    simpl in H. destruct (cache3 !! block') as [desc3|]; [|done]. simpl in H.
    injection H as <-. simpl. by rewrite counter_move_back. }
  destruct (desc_type desc); [by apply Hother|by apply Hother|].
  injection Hfree as <-. simpl. rewrite refilled_bytes_app. simpl.
  by rewrite Z.add_0_r.
Qed.

(** C1: in every state reachable by any sequence of [Alloc] and [Free]
    calls, [total_used_ + total_free_], the sum the allocator itself
    computes on its [size_t] counters, equals the sum of [allocate_bytes]
    over the successful refills, as a [size_t] value; allocations on the
    huge path are not refills and do not count. *)
Theorem counter_sum_invariant cfg st :
  reachable cfg st ->
  wadd (total_used_ st) (total_free_ st) = wrap (refilled_bytes (sys_log st)).
Proof.
  induction 1 as [|st c st' _ IH Hexec]; [done|].
  destruct c as [env unaligned_size|p]; simpl in Hexec.
  - destruct (Alloc cfg env unaligned_size st) as [[q st'']|] eqn:Halloc; [|done].
    injection Hexec as <-. by eapply Alloc_counter_sum.
  - by eapply Free_counter_sum.
Qed.

Lemma counter_sum_invariant_witness :
  wadd (total_used_ scenario_state1) (total_free_ scenario_state1)
  = wrap (refilled_bytes (sys_log scenario_state1)).
Proof.
  apply (counter_sum_invariant scenario_config scenario_state1).
  apply (reachable_step scenario_config empty_allocator
           (CallAlloc (scenario_env 65536 0) 100) scenario_state1).
  - apply reachable_init.
  - vm_compute. reflexivity.
Defined.

(** ** The destructor *)

Lemma load_desc_invalidate_ne cfg cache block block' :
  block <> block' ->
  load_desc cfg (invalidate block cache) block' = load_desc cfg cache block'.
Proof. intros Hne. unfold load_desc, invalidate. by rewrite lookup_delete_ne. Qed.

Lemma release_events_invalidate cache block pool events :
  (forall e, e ∈ pool -> block <> get2 e) ->
  Forall2 (fun e ev => release_event (invalidate block cache) e = Some ev) pool events ->
  Forall2 (fun e ev => release_event cache e = Some ev) pool events.
Proof.
  intros Hne H. induction H as [|e ev pool events He _ IH]; constructor.
  - unfold release_event, invalidate in *.
    rewrite lookup_delete_ne in He; [done|]. apply Hne. by left.
  - apply IH. intros e' He'. apply Hne. by right.
Qed.

Lemma release_pool_spec cfg pool :
  forall cache log,
    NoDup (get2 <$> pool) ->
    (forall e, e ∈ pool -> is_Some (load_desc cfg cache (get2 e))) ->
    exists events,
      Forall2 (fun e ev => release_event cache e = Some ev) pool events
      /\ release_pool cfg pool cache log
         = Some (invalidate_all pool cache, log ++ events).
Proof.
  induction pool as [|e rest IH]; intros cache log Hnd Hall.
  { exists []. split; [constructor|]. simpl. by rewrite app_nil_r. }
  rewrite fmap_cons in Hnd. apply NoDup_cons in Hnd as [Hnotin Hnd].
  destruct (Hall e ltac:(by left)) as [d Hd].
  assert (Hother : forall e', e' ∈ rest -> get2 e <> get2 e').
  { intros e' He' Heq. apply Hnotin. rewrite Heq. by apply list_elem_of_fmap_2. }
  destruct (IH (invalidate (get2 e) cache)
              (log ++ [EvSystemFree (get2 e) (desc_size d) (desc_index d)]) Hnd)
    as (events & Hevents & Hrun).
  { intros e' He'. rewrite load_desc_invalidate_ne by by apply Hother.
    apply Hall. by right. }
  exists (EvSystemFree (get2 e) (desc_size d) (desc_index d) :: events).
  split.
  - constructor.
    + apply load_desc_Some in Hd as [Hd _]. unfold release_event. by rewrite Hd.
    + by eapply release_events_invalidate.
  - simpl. rewrite Hd. simpl. rewrite Hrun. by rewrite <- app_assoc.
Qed.

(** C9: the destructor takes the first pool entry until the pool is
    empty; for each entry, in pool order, it calls the system allocator's
    [Free] with the block, the payload size [desc->size] of its descriptor
    (not [total_size]) and the descriptor's index, and invalidates the
    cache entry of the block. *)
Theorem Destructor_releases cfg st :
  NoDup (get2 <$> pool_ st) ->
  (forall e, e ∈ pool_ st -> is_Some (load_desc cfg (cache_ st) (get2 e))) ->
  exists events,
    Forall2 (fun e ev => release_event (cache_ st) e = Some ev) (pool_ st) events
    /\ Destructor cfg st
       = Some (mkState [] (invalidate_all (pool_ st) (cache_ st)) (total_used_ st)
                 (total_free_ st) (realloc_size_ st) (sys_log st ++ events)).
Proof.
  intros Hnd Hall.
  destruct (release_pool_spec cfg (pool_ st) (cache_ st) (sys_log st) Hnd Hall)
    as (events & Hevents & Hrun).
  exists events. split; [done|]. unfold Destructor. by rewrite Hrun.
Qed.

Lemma Destructor_releases_witness :
  exists events,
    Forall2 (fun e ev => release_event (cache_ scenario_state1) e = Some ev)
      (pool_ scenario_state1) events
    /\ Destructor scenario_config scenario_state1
       = Some (mkState [] (invalidate_all (pool_ scenario_state1)
                             (cache_ scenario_state1))
                 (total_used_ scenario_state1) (total_free_ scenario_state1)
                 (realloc_size_ scenario_state1)
                 (sys_log scenario_state1 ++ events)).
Proof.
  apply (Destructor_releases scenario_config scenario_state1).
  - vm_compute. repeat constructor. intros H. apply elem_of_nil in H. exact H.
  - intros e He. vm_compute in He. apply list_elem_of_singleton in He. subst e.
    vm_compute. eexists. reflexivity.
Defined.

(** In the scenario of the specification the pool holds the residual of
    3840 bytes at offset 256 of the region; the destructor reports it with
    its payload size, 3808 bytes. *)
Example Destructor_scenario_log :
  sys_log <$> Destructor scenario_config scenario_state1
  = Some [EvRefill 4096 65536 0; EvSystemFree 65792 3808 0].
Proof. vm_compute. reflexivity. Qed.

(** ** Insertion into and removal from the pool *)

Lemma pool_insert_elem key pool e :
  e ∈ pool_insert key pool <-> e = key \/ e ∈ pool.
Proof.
  induction pool as [|x l IH]; simpl.
  - rewrite list_elem_of_singleton, elem_of_nil. tauto.
  - destruct (isa_ltb key x) eqn:Hkx.
    + rewrite !elem_of_cons. tauto.
    + destruct (isa_ltb x key) eqn:Hxk.
      * rewrite !elem_of_cons, IH. tauto.
      * destruct (isa_ltb_total _ _ Hkx) as [->|Hlt].
        -- rewrite !elem_of_cons. tauto.
        -- unfold isa_lt in Hlt. congruence.
Qed.

Lemma pool_insert_sorted key pool :
  StronglySorted isa_lt pool -> StronglySorted isa_lt (pool_insert key pool).
Proof.
  induction 1 as [|x l Hl IH Hx]; simpl.
  - repeat constructor.
  - destruct (isa_ltb key x) eqn:Hkx.
    + constructor; [by constructor|]. constructor; [done|].
      eapply Forall_impl; [exact Hx|]. intros y Hy. by eapply isa_lt_trans.
    + destruct (isa_ltb x key) eqn:Hxk; [|by constructor].
      constructor; [done|]. apply Forall_forall. intros y Hy.
      apply pool_insert_elem in Hy as [->|Hy]; [done|].
      rewrite Forall_forall in Hx. by apply Hx.
Qed.

Lemma pool_erase_elem key pool e :
  StronglySorted isa_lt pool ->
  e ∈ pool_erase key pool <-> e <> key /\ e ∈ pool.
Proof.
  induction 1 as [|x l Hl IH Hx]; simpl.
  - rewrite elem_of_nil. tauto.
  - rewrite Forall_forall in Hx. destruct (isa_eqb x key) eqn:Hxk.
    + apply isa_eqb_eq in Hxk as ->. rewrite elem_of_cons. split.
      * intros He. split; [|by right]. intros ->. specialize (Hx key He).
        unfold isa_lt in Hx. by rewrite isa_ltb_irrefl in Hx.
      * intros [Hne [?|?]]; done.
    + assert (x <> key) by (intros ->; unfold isa_eqb in Hxk; lia).
      rewrite !elem_of_cons, IH. split; [|tauto].
      intros [->|[? ?]]; tauto.
Qed.

Lemma pool_erase_sorted key pool :
  StronglySorted isa_lt pool -> StronglySorted isa_lt (pool_erase key pool).
Proof.
  induction 1 as [|x l Hl IH Hx]; simpl; [constructor|].
  destruct (isa_eqb x key); [done|]. constructor; [done|].
  apply Forall_forall. intros y Hy. apply pool_erase_elem in Hy as [_ Hy]; [|done].
  rewrite Forall_forall in Hx. by apply Hx.
Qed.

Lemma pool_sorted_insert key pool :
  pool_sorted pool -> isa_in_range key -> pool_sorted (pool_insert key pool).
Proof.
  intros [Hs Hr] Hk. split; [by apply pool_insert_sorted|].
  apply Forall_forall. intros e He. apply pool_insert_elem in He as [->|He]; [done|].
  rewrite Forall_forall in Hr. by apply Hr.
Qed.

Lemma pool_sorted_erase key pool :
  pool_sorted pool -> pool_sorted (pool_erase key pool).
Proof.
  intros [Hs Hr]. split; [by apply pool_erase_sorted|].
  apply Forall_forall. intros e He. apply pool_erase_elem in He as [_ He]; [|done].
  rewrite Forall_forall in Hr. by apply Hr.
Qed.

Lemma pool_sorted_NoDup pool : StronglySorted isa_lt pool -> NoDup pool.
Proof.
  induction 1 as [|x l Hl IH Hx]; constructor; [|done].
  intros Hin. rewrite Forall_forall in Hx. specialize (Hx x Hin).
  unfold isa_lt in Hx. by rewrite isa_ltb_irrefl in Hx.
Qed.

(** Two sorted pools with the same entries are the same list. *)
Lemma pool_sorted_ext pool1 pool2 :
  StronglySorted isa_lt pool1 -> StronglySorted isa_lt pool2 ->
  (forall e, e ∈ pool1 <-> e ∈ pool2) -> pool1 = pool2.
Proof.
  intros H1 H2 Hext. apply (StronglySorted_unique_strong isa_lt); [|done|done|].
  - intros x1 x2 _ _ H12 H21. apply isa_lt_asym in H12.
    unfold isa_lt in H21. congruence.
  - apply NoDup_Permutation; [by apply pool_sorted_NoDup..|done].
Qed.

(** ** Well-formed heaps *)

Lemma update_guards_id cfg d : check_guards cfg d = true -> update_guards cfg d = d.
Proof.
  unfold check_guards, update_guards. intros H. destruct d as [t i s ts p n lg tg].
  simpl in *. f_equal; unfold guard_of in *; simpl in *; lia.
Qed.

Lemma wf_heap_null cfg cache regions : wf_heap cfg cache regions -> cache !! 0 = None.
Proof.
  intros Hwf. destruct (cache !! 0) as [d|] eqn:Hd; [|done].
  pose proof (chunk_extent _ _ _ _ _ (wf_chunks _ _ _ Hwf _ _ Hd)). lia.
Qed.

Lemma wf_heap_load cfg cache regions a d :
  wf_heap cfg cache regions -> cache !! a = Some d -> load_desc cfg cache a = Some d.
Proof.
  intros Hwf Hd. apply load_desc_Some. split; [done|].
  exact (chunk_guards _ _ _ _ _ (wf_chunks _ _ _ Hwf _ _ Hd)).
Qed.

(** The right neighbour of a chunk, when there is one. *)
Lemma wf_heap_next cfg cache regions a d :
  wf_heap cfg cache regions -> cache !! a = Some d -> desc_next d <> 0 ->
  desc_next d = a + desc_total_size d
  /\ exists d', cache !! desc_next d = Some d' /\ desc_prev d' = a
                /\ desc_type d' <> HUGE_CHUNK /\ 0 < desc_total_size d'.
Proof.
  intros Hwf Hd Hn.
  destruct (chunk_next _ _ _ _ _ (wf_chunks _ _ _ Hwf _ _ Hd) Hn) as (Heq & d' & Hd' & Hp).
  split; [done|]. exists d'. split; [done|]. split; [done|].
  pose proof (wf_chunks _ _ _ Hwf _ _ Hd') as Hok'.
  pose proof (chunk_extent _ _ _ _ _ (wf_chunks _ _ _ Hwf _ _ Hd)).
  split; [|by destruct (chunk_extent _ _ _ _ _ Hok') as (? & ? & ?)].
  intros Hh. destruct (chunk_huge _ _ _ _ _ Hok' Hh). lia.
Qed.

Lemma wf_heap_prev cfg cache regions a d :
  wf_heap cfg cache regions -> cache !! a = Some d -> desc_prev d <> 0 ->
  exists d', cache !! desc_prev d = Some d' /\ desc_next d' = a
             /\ desc_prev d + desc_total_size d' = a
             /\ desc_type d' <> HUGE_CHUNK /\ 0 < desc_total_size d'.
Proof.
  intros Hwf Hd Hp.
  destruct (chunk_prev _ _ _ _ _ (wf_chunks _ _ _ Hwf _ _ Hd) Hp) as (d' & Hd' & Hn).
  pose proof (wf_chunks _ _ _ Hwf _ _ Hd') as Hok'.
  pose proof (chunk_extent _ _ _ _ _ (wf_chunks _ _ _ Hwf _ _ Hd)) as (? & ? & ?).
  exists d'. split; [done|]. split; [done|].
  destruct (chunk_next _ _ _ _ _ Hok') as (Heq & _); [lia|].
  split; [lia|]. split; [|by destruct (chunk_extent _ _ _ _ _ Hok') as (? & ? & ?)].
  intros Hh. destruct (chunk_huge _ _ _ _ _ Hok' Hh). lia.
Qed.

(** Overlapping regions of the log are the same region. *)
Lemma wf_heap_region_unique cfg cache regions r1 r2 x :
  wf_heap cfg cache regions -> r1 ∈ regions -> r2 ∈ regions ->
  get2 r1 <= x < region_end r1 -> get2 r2 <= x < region_end r2 -> r1 = r2.
Proof.
  intros Hwf H1 H2 Hx1 Hx2.
  destruct (wf_regions_disjoint _ _ _ Hwf r1 r2 H1 H2) as [?|Hap]; [done|].
  unfold apart, region_end in *. lia.
Qed.

(** Arithmetic goals on addresses and sizes. *)
Ltac arith :=
  match goal with
  | |- @eq Z _ _ => lia
  | |- not (@eq Z _ _) => lia
  | |- Z.le _ _ => lia
  | |- Z.lt _ _ => lia
  | |- False => lia
  | |- apart _ _ _ _ => unfold apart in *; lia
  end.

(** Two reads of the cache at equal addresses give the same descriptor; a
    read that finds a descriptor and one that finds none are at different
    addresses. *)
Ltac same_key :=
  repeat match goal with
  | H1 : ?c !! ?k1 = Some ?d1, H2 : ?c !! ?k2 = Some ?d2 |- _ =>
      lazymatch d1 with d2 => fail | _ => idtac end;
      lazymatch k1 with
      | k2 => idtac
      | _ => let E := fresh in
             assert (E : k1 = k2) by lia; rewrite E in H1; clear E
      end;
      let Hd := fresh in
      assert (Hd : d1 = d2) by congruence;
      first [subst d1 | subst d2 | fail 2]
  | H1 : ?c !! ?k1 = Some _, H2 : ?c !! ?k2 = None |- _ =>
      exfalso;
      lazymatch k1 with
      | k2 => idtac
      | _ => let E := fresh in
             assert (E : k1 = k2) by lia; rewrite E in H1; clear E
      end;
      congruence
  end.

(** Uses what is known of the right neighbour of a chunk. *)
Ltac use_next_linked :=
  repeat match goal with
  | Hnx : next_linked ?c _ ?d, Hd : ?c !! ?k = Some ?d' |- _ =>
      lazymatch k with
      | desc_next d => idtac
      | _ => let E := fresh in
             assert (E : k = desc_next d) by lia; rewrite E in Hd; clear E
      end;
      let H := fresh in
      pose proof (Hnx _ Hd) as H; destruct H as (? & ? & ? & ?); clear Hnx
  end.

(** Finds the descriptor that a goal reads from the cache. *)
Ltac read_cache :=
  try match goal with
  | Hd : ?c !! ?k' = Some _ |- context [?c !! ?k] =>
      lazymatch k with
      | k' => idtac
      | _ => let E := fresh in
             assert (E : k = k') by lia; rewrite E; clear E
      end;
      rewrite Hd; simpl
  end.

Ltac heap_done :=
  first
    [ done
    | arith
    | exfalso; lia
    | exfalso; congruence
    | eexists; split; [first [done | eassumption]|]; simpl;
      first [done | arith | congruence]
    | by eauto ].

Ltac heap_case :=
  repeat case_decide; same_key; use_next_linked; same_key; read_cache; heap_done.

(** Changing the type of a pooled or served chunk keeps the heap
    well-formed. *)
Lemma wf_heap_retype cfg cache regions a d t :
  wf_heap cfg cache regions -> cache !! a = Some d ->
  desc_type d <> HUGE_CHUNK -> t <> HUGE_CHUNK ->
  wf_heap cfg (<[a := update_guards cfg (set_type t d)]> cache) regions.
Proof.
  intros Hwf Hd Hnh Ht. pose proof (wf_chunks _ _ _ Hwf _ _ Hd) as Hok.
  pose proof (chunk_extent _ _ _ _ _ Hok) as Hext.
  constructor.
  - intros k dk Hk. rewrite lookup_insert in Hk. case_decide; simplify_eq.
    + constructor; simpl; try apply Hok; try done.
      * apply check_update_guards.
      * intros Hn. destruct (chunk_next _ _ _ _ _ Hok Hn) as (Heq & d' & Hd' & Hp).
        split; [done|]. rewrite lookup_insert. case_decide; heap_done.
      * intros Hp. destruct (chunk_prev _ _ _ _ _ Hok Hp) as (d' & Hd' & Hn).
        rewrite lookup_insert. case_decide; heap_done.
      * intros _. by apply Hok.
    + pose proof (wf_chunks _ _ _ Hwf _ _ Hk) as Hokk.
      constructor; try apply Hokk.
      * intros Hn. destruct (chunk_next _ _ _ _ _ Hokk Hn) as (Heq & d' & Hd' & Hp).
        split; [done|]. rewrite lookup_insert. case_decide; simplify_eq; heap_done.
      * intros Hp. destruct (chunk_prev _ _ _ _ _ Hokk Hp) as (d' & Hd' & Hn).
        rewrite lookup_insert. case_decide; simplify_eq; heap_done.
  - intros a1 d1 a2 d2 H1 H2 Hne.
    rewrite lookup_insert in H1, H2.
    repeat case_decide; simplify_eq; simpl;
      by eapply (wf_disjoint _ _ _ Hwf).
  - intros r Hr. destruct (wf_region_base _ _ _ Hwf r Hr) as (Hpos & d0 & Hd0 & Hnh0).
    split; [done|]. rewrite lookup_insert. case_decide; simplify_eq; heap_done.
  - apply Hwf.
  - apply Hwf.
Qed.

(** ** Relinking, merging and splitting on a well-formed heap *)

Lemma relinked_lookup cfg neighbour prev cache k :
  relinked cfg neighbour prev cache !! k
  = if decide (k = neighbour)
    then (fun n => update_guards cfg (set_prev prev n)) <$> cache !! neighbour
    else cache !! k.
Proof.
  unfold relinked. destruct (cache !! neighbour) as [n|] eqn:Hn.
  - rewrite lookup_insert. repeat case_decide; simplify_eq; done.
  - case_decide; simplify_eq; [by rewrite Hn|done].
Qed.

Lemma relink_prev_eval cfg neighbour prev cache :
  cache !! 0 = None ->
  (neighbour <> 0 -> is_Some (load_desc cfg cache neighbour)) ->
  relink_prev cfg neighbour prev cache = Some (relinked cfg neighbour prev cache).
Proof.
  intros H0 Hn. unfold relink_prev, relinked.
  destruct (Z.eqb_spec neighbour 0) as [->|Hne]; [by rewrite H0|].
  destruct (Hn Hne) as [n Hl]. rewrite Hl. simpl.
  apply load_desc_Some in Hl as [-> _]. done.
Qed.

(** A chunk whose descriptor is untouched stays well-formed when its two
    neighbours still point back at it. *)
Lemma chunk_ok_frame cfg cache cache' regions k dk :
  chunk_ok cfg cache regions k dk ->
  (forall d', desc_next dk <> 0 -> cache !! desc_next dk = Some d' ->
     desc_prev d' = k ->
     exists d'', cache' !! desc_next dk = Some d'' /\ desc_prev d'' = k) ->
  (forall d', desc_prev dk <> 0 -> cache !! desc_prev dk = Some d' ->
     desc_next d' = k ->
     exists d'', cache' !! desc_prev dk = Some d'' /\ desc_next d'' = k) ->
  chunk_ok cfg cache' regions k dk.
Proof.
  intros Hok Hnext Hprev. constructor; try apply Hok.
  - intros Hn. destruct (chunk_next _ _ _ _ _ Hok Hn) as (Heq & d' & Hd' & Hp).
    split; [done|]. by eapply Hnext.
  - intros Hp. destruct (chunk_prev _ _ _ _ _ Hok Hp) as (d' & Hd' & Hn).
    by eapply Hprev.
Qed.

Lemma chunk_region_at cfg cache regions a d r :
  wf_heap cfg cache regions -> cache !! a = Some d ->
  desc_type d <> HUGE_CHUNK -> r ∈ regions -> get2 r <= a < region_end r ->
  desc_index d = get0 r /\ a + desc_total_size d <= region_end r
  /\ (desc_prev d = 0 <-> a = get2 r)
  /\ (desc_next d = 0 <-> a + desc_total_size d = region_end r).
Proof.
  intros Hwf Hd Hnh Hr Hin. pose proof (wf_chunks _ _ _ Hwf _ _ Hd) as Hok.
  destruct (chunk_region _ _ _ _ _ Hok Hnh) as (r' & Hr' & Hidx & Hlo & Hhi & Hp & Hn).
  pose proof (chunk_extent _ _ _ _ _ Hok) as (? & ? & ?).
  assert (r = r') as <-; [|done].
  eapply (wf_heap_region_unique _ _ _ _ _ a); eauto. lia.
Qed.

Lemma merge_eval cfg cache regions x y dx dy :
  wf_heap cfg cache regions -> cache !! x = Some dx -> cache !! y = Some dy ->
  desc_next dx = y ->
  merge cfg cache x y = Some (merged cfg cache x y dx dy).
Proof.
  intros Hwf Hx Hy Hxy. unfold merge, merged.
  rewrite (wf_heap_load _ _ _ _ _ Hwf Hx), (wf_heap_load _ _ _ _ _ Hwf Hy). simpl.
  pose proof (chunk_extent _ _ _ _ _ (wf_chunks _ _ _ Hwf _ _ Hx)) as (? & ? & ?).
  pose proof (chunk_extent _ _ _ _ _ (wf_chunks _ _ _ Hwf _ _ Hy)) as (? & ? & ?).
  destruct (wf_heap_next _ _ _ _ _ Hwf Hx ltac:(lia)) as (Heq & _).
  unfold wadd. rewrite wrap_small by (unfold in_size_t; lia).
  unfold store. rewrite relink_prev_eval; [done| |].
  - rewrite lookup_insert_ne by lia. by eapply wf_heap_null.
  - intros Hn. destruct (wf_heap_next _ _ _ _ _ Hwf Hy Hn) as (Heqn & dn & Hdn & _).
    exists dn. apply load_desc_Some. rewrite lookup_insert_ne by lia.
    split; [done|]. exact (chunk_guards _ _ _ _ _ (wf_chunks _ _ _ Hwf _ _ Hdn)).
Qed.

Lemma merged_lookup cfg cache x y dx dy k :
  x <> desc_next dy ->
  merged cfg cache x y dx dy !! k
  = if decide (k = y) then None
    else if decide (k = desc_next dy)
         then (fun n => update_guards cfg (set_prev x n)) <$> cache !! desc_next dy
         else if decide (k = x)
              then Some (update_guards cfg
                           (set_extent cfg (desc_total_size dx + desc_total_size dy)
                              (desc_next dy) dx))
              else cache !! k.
Proof.
  intros Hne. unfold merged. rewrite lookup_delete. case_decide; simplify_eq.
  { by rewrite decide_True. }
  rewrite decide_False by done. rewrite relinked_lookup.
  case_decide; simplify_eq.
  - by rewrite lookup_insert_ne.
  - rewrite lookup_insert. repeat case_decide; simplify_eq; done.
Qed.

Lemma wf_heap_next_linked cfg cache regions a d :
  wf_heap cfg cache regions -> cache !! a = Some d -> next_linked cache a d.
Proof.
  intros Hwf Hd d' Hd'.
  assert (Hn : desc_next d <> 0).
  { intros E. rewrite E, (wf_heap_null _ _ _ Hwf) in Hd'. done. }
  destruct (wf_heap_next _ _ _ _ _ Hwf Hd Hn) as (? & d'' & ? & ? & ? & ?).
  by simplify_eq.
Qed.

Lemma wf_heap_merged cfg cache regions x y dx dy :
  wf_heap cfg cache regions -> cache !! x = Some dx -> cache !! y = Some dy ->
  desc_next dx = y -> y <> 0 ->
  wf_heap cfg (merged cfg cache x y dx dy) regions.
Proof.
  intros Hwf Hx Hy Hxy Hy0.
  pose proof (wf_chunks _ _ _ Hwf _ _ Hx) as Hokx.
  pose proof (wf_chunks _ _ _ Hwf _ _ Hy) as Hoky.
  pose proof (chunk_extent _ _ _ _ _ Hokx) as (Hx0 & Htx & Hxe).
  pose proof (chunk_extent _ _ _ _ _ Hoky) as (_ & Hty & Hye).
  destruct (wf_heap_next _ _ _ _ _ Hwf Hx ltac:(lia)) as (Heq & dy' & Hdy' & Hpy & Hnhy & _).
  rewrite Hxy in Hdy', Heq. assert (dy' = dy) as -> by congruence. clear Hdy'.
  assert (Hnhx : desc_type dx <> HUGE_CHUNK).
  { intros Hh. destruct (chunk_huge _ _ _ _ _ Hokx Hh). lia. }
  pose proof (wf_heap_next_linked _ _ _ _ _ Hwf Hy) as Hnx.
  assert (Hnx0 : desc_next dy = 0 \/ desc_next dy = y + desc_total_size dy).
  { destruct (decide (desc_next dy = 0)) as [|Hn]; [by left|right].
    by destruct (wf_heap_next _ _ _ _ _ Hwf Hy Hn). }
  assert (Hne : x <> desc_next dy) by lia.
  assert (H0 : cache !! 0 = None) by by eapply wf_heap_null.
  constructor.
  - intros k dk Hk. rewrite (merged_lookup _ _ _ _ _ _ _ Hne) in Hk.
    destruct (decide (k = y)) as [->|Hky]; [done|].
    destruct (decide (k = desc_next dy)) as [->|Hkn].
    { (* the relinked neighbour *)
      destruct (cache !! desc_next dy) as [dn|] eqn:Hdn; [|done].
      injection Hk as <-.
      destruct (Hnx _ Hdn) as (Heqn & Hpn & Hnhn & Htn).
      pose proof (wf_chunks _ _ _ Hwf _ _ Hdn) as Hokn.
      constructor; simpl.
      - apply check_update_guards.
      - apply Hokn.
      - apply Hokn.
      - intros Hnn.
        destruct (wf_heap_next _ _ _ _ _ Hwf Hdn Hnn) as (Heqnn & dnn & Hdnn & Hpnn & _).
        split; [done|]. rewrite (merged_lookup _ _ _ _ _ _ _ Hne).
        repeat case_decide; same_key; heap_done.
      - intros _. rewrite (merged_lookup _ _ _ _ _ _ _ Hne).
        repeat case_decide; same_key; heap_done.
      - done.
      - intros Hnh.
        destruct (chunk_region _ _ _ _ _ Hokn Hnh) as (rn & ? & ? & ? & ? & Hpn' & ?).
        exists rn. repeat (split; [done|]). split; [|done]. lia. }
    destruct (decide (k = x)) as [->|Hkx].
    { (* the merged chunk *)
      injection Hk as <-. constructor; simpl.
      - apply check_update_guards.
      - lia.
      - split; [apply Hokx|done].
      - intros Hn.
        destruct (wf_heap_next _ _ _ _ _ Hwf Hy Hn) as (Heqn & dn & Hdn & Hpn & _).
        split; [lia|]. rewrite (merged_lookup _ _ _ _ _ _ _ Hne).
        repeat case_decide; same_key; try heap_done. rewrite Hdn. simpl. heap_done.
      - intros Hp.
        destruct (wf_heap_prev _ _ _ _ _ Hwf Hx Hp) as (dl & Hdl & Hnl & Hel & _ & Htl).
        rewrite (merged_lookup _ _ _ _ _ _ _ Hne).
        repeat case_decide; same_key; heap_done.
      - done.
      - intros _.
        destruct (chunk_region _ _ _ _ _ Hokx Hnhx) as (r & Hr & Hidx & Hlo & Hhi & Hrp & Hrn).
        destruct (chunk_region_at _ _ _ _ _ r Hwf Hy Hnhy Hr) as (Hidy & Hhiy & Hrpy & Hrny).
        { unfold region_end in *. lia. }
        exists r. unfold region_end in *.
        repeat (split; [first [done | lia]|]). lia. }
    (* an untouched chunk *)
    pose proof (wf_chunks _ _ _ Hwf _ _ Hk) as Hokk.
    eapply chunk_ok_frame; [exact Hokk| |].
    + intros d' Hn Hd' Hp. rewrite (merged_lookup _ _ _ _ _ _ _ Hne).
      repeat case_decide; same_key; try heap_done.
      rewrite H1 in Hd'. destruct (Hnx _ Hd') as (? & ? & ? & ?). heap_done.
    + intros d' Hp Hd' Hn. rewrite (merged_lookup _ _ _ _ _ _ _ Hne).
      repeat case_decide; same_key; try heap_done.
      rewrite H1 in Hd'. rewrite Hd'. simpl. heap_done.
  - assert (Hxk : forall k dk, cache !! k = Some dk -> k <> x -> k <> y ->
                apart x (desc_total_size dx + desc_total_size dy) k (desc_total_size dk)).
    { intros k dk Hk Hkx Hky.
      pose proof (wf_disjoint _ _ _ Hwf _ _ _ _ Hx Hk ltac:(done)).
      pose proof (wf_disjoint _ _ _ Hwf _ _ _ _ Hy Hk ltac:(done)).
      pose proof (chunk_extent _ _ _ _ _ (wf_chunks _ _ _ Hwf _ _ Hk)).
      unfold apart in *. lia. }
    intros a1 d1 a2 d2 H1 H2 Hne12.
    rewrite (merged_lookup _ _ _ _ _ _ _ Hne) in H1.
    rewrite (merged_lookup _ _ _ _ _ _ _ Hne) in H2.
    destruct (cache !! desc_next dy) as [dn|] eqn:Hdn; simpl in *;
      repeat case_decide; simplify_eq; simpl;
      first [ by eapply (wf_disjoint _ _ _ Hwf)
            | by eapply Hxk
            | (assert (Hsym : forall a b c d, apart a b c d -> apart c d a b)
                 by (unfold apart; intros; lia);
               apply Hsym; by eapply Hxk) ].
  - intros rr Hrr. destruct (wf_region_base _ _ _ Hwf rr Hrr) as (Hpos & d0 & Hd0 & Hnh0).
    split; [done|]. rewrite (merged_lookup _ _ _ _ _ _ _ Hne).
    repeat case_decide; same_key; try heap_done.
    + destruct (chunk_region_at _ _ _ _ _ rr Hwf Hy Hnhy Hrr) as (_ & _ & Hrpy & _).
      { unfold region_end. lia. }
      lia.
    + rewrite H1 in Hd0. rewrite Hd0. simpl. heap_done.
  - apply Hwf.
  - apply Hwf.
Qed.

Lemma carved_lookup cfg cache a size d k :
  a <> desc_next d -> a + size <> desc_next d ->
  carved cfg cache a size d !! k
  = if decide (k = desc_next d)
    then (fun n => update_guards cfg (set_prev (a + size) n)) <$> cache !! desc_next d
    else if decide (k = a)
         then Some (update_guards cfg (set_extent cfg size (a + size) d))
         else if decide (k = a + size)
              then Some (update_guards cfg
                           (mkDesc FREE_CHUNK (desc_index d)
                              (payload_size cfg (desc_total_size d - size))
                              (desc_total_size d - size) a (desc_next d) 0 0))
              else cache !! k.
Proof.
  intros Hne1 Hne2. unfold carved. rewrite relinked_lookup.
  case_decide; simplify_eq.
  - by rewrite !lookup_insert_ne.
  - rewrite !lookup_insert. repeat case_decide; simplify_eq; done.
Qed.

Lemma wf_heap_fresh_inside cfg cache regions a d x :
  wf_heap cfg cache regions -> cache !! a = Some d ->
  a < x < a + desc_total_size d -> cache !! x = None.
Proof.
  intros Hwf Hd Hx. destruct (cache !! x) as [dx|] eqn:Hdx; [|done].
  pose proof (wf_disjoint _ _ _ Hwf _ _ _ _ Hd Hdx ltac:(lia)) as Hap.
  pose proof (chunk_extent _ _ _ _ _ (wf_chunks _ _ _ Hwf _ _ Hdx)).
  unfold apart in Hap. lia.
Qed.

Lemma split_eval cfg cache regions a size d :
  wf_heap cfg cache regions -> cache !! a = Some d -> 0 < size ->
  0 <= split_min_residual cfg ->
  split cfg cache a size
  = Some (if desc_total_size d - size <=? split_min_residual cfg then cache
          else carved cfg cache a size d).
Proof.
  intros Hwf Hd Hsize Hthr. unfold split.
  rewrite (wf_heap_load _ _ _ _ _ Hwf Hd). simpl.
  destruct (Z.leb_spec (desc_total_size d - size) (split_min_residual cfg)); [done|].
  pose proof (chunk_extent _ _ _ _ _ (wf_chunks _ _ _ Hwf _ _ Hd)) as (? & ? & ?).
  unfold wadd. rewrite wrap_small by (unfold in_size_t; lia).
  unfold init, store, carved. apply relink_prev_eval.
  - rewrite !lookup_insert_ne by lia. by eapply wf_heap_null.
  - intros Hn. destruct (wf_heap_next _ _ _ _ _ Hwf Hd Hn) as (Heqn & dn & Hdn & _).
    exists dn. apply load_desc_Some. rewrite !lookup_insert_ne by lia.
    split; [done|]. exact (chunk_guards _ _ _ _ _ (wf_chunks _ _ _ Hwf _ _ Hdn)).
Qed.

Lemma wf_heap_carved cfg cache regions a size d :
  wf_heap cfg cache regions -> cache !! a = Some d ->
  desc_type d <> HUGE_CHUNK -> 0 < size < desc_total_size d ->
  wf_heap cfg (carved cfg cache a size d) regions.
Proof.
  intros Hwf Hd Hnh Hsize.
  pose proof (wf_chunks _ _ _ Hwf _ _ Hd) as Hok.
  pose proof (chunk_extent _ _ _ _ _ Hok) as (Ha0 & Ht & Hae).
  pose proof (wf_heap_next_linked _ _ _ _ _ Hwf Hd) as Hnx.
  assert (Hnx0 : desc_next d = 0 \/ desc_next d = a + desc_total_size d).
  { destruct (decide (desc_next d = 0)) as [|Hn]; [by left|right].
    by destruct (wf_heap_next _ _ _ _ _ Hwf Hd Hn). }
  assert (Hne1 : a <> desc_next d) by lia.
  assert (Hne2 : a + size <> desc_next d) by lia.
  assert (H0 : cache !! 0 = None) by by eapply wf_heap_null.
  assert (Hfresh : cache !! (a + size) = None).
  { eapply wf_heap_fresh_inside; [done..|lia]. }
  constructor.
  - intros k dk Hk. rewrite (carved_lookup _ _ _ _ _ _ Hne1 Hne2) in Hk.
    destruct (decide (k = desc_next d)) as [->|Hkn].
    { (* the relinked neighbour *)
      destruct (cache !! desc_next d) as [dn|] eqn:Hdn; [|done].
      injection Hk as <-.
      destruct (Hnx _ Hdn) as (Heqn & Hpn & Hnhn & Htn).
      pose proof (wf_chunks _ _ _ Hwf _ _ Hdn) as Hokn.
      constructor; simpl.
      - apply check_update_guards.
      - apply Hokn.
      - apply Hokn.
      - intros Hnn.
        destruct (wf_heap_next _ _ _ _ _ Hwf Hdn Hnn) as (Heqnn & dnn & Hdnn & Hpnn & _).
        split; [done|]. rewrite (carved_lookup _ _ _ _ _ _ Hne1 Hne2).
        heap_case.
      - intros _. rewrite (carved_lookup _ _ _ _ _ _ Hne1 Hne2).
        heap_case.
      - done.
      - intros Hnh'.
        destruct (chunk_region _ _ _ _ _ Hokn Hnh') as (rn & ? & ? & ? & ? & Hpn' & ?).
        exists rn. repeat (split; [done|]). split; [|done]. lia. }
    destruct (decide (k = a)) as [->|Hka].
    { (* the shrunk chunk *)
      injection Hk as <-. constructor; simpl.
      - apply check_update_guards.
      - lia.
      - split; [apply Hok|done].
      - intros _. split; [done|]. rewrite (carved_lookup _ _ _ _ _ _ Hne1 Hne2).
        heap_case.
      - intros Hp.
        destruct (wf_heap_prev _ _ _ _ _ Hwf Hd Hp) as (dl & Hdl & Hnl & Hel & _ & Htl).
        rewrite (carved_lookup _ _ _ _ _ _ Hne1 Hne2).
        heap_case.
      - done.
      - intros _.
        destruct (chunk_region _ _ _ _ _ Hok Hnh) as (r & Hr & Hidx & Hlo & Hhi & Hrp & Hrn).
        exists r. unfold region_end in *.
        repeat (split; [first [done | lia]|]). lia. }
    destruct (decide (k = a + size)) as [->|Hkw].
    { (* the residual chunk *)
      injection Hk as <-. constructor; simpl.
      - apply check_update_guards.
      - lia.
      - split; [apply Hok|done].
      - intros Hn.
        destruct (wf_heap_next _ _ _ _ _ Hwf Hd Hn) as (Heqn & dn & Hdn & Hpn & _).
        split; [lia|]. rewrite (carved_lookup _ _ _ _ _ _ Hne1 Hne2).
        heap_case.
      - intros _. rewrite (carved_lookup _ _ _ _ _ _ Hne1 Hne2).
        heap_case.
      - done.
      - intros _.
        destruct (chunk_region _ _ _ _ _ Hok Hnh) as (r & Hr & Hidx & Hlo & Hhi & Hrp & Hrn).
        exists r. unfold region_end in *.
        repeat (split; [first [done | lia]|]). lia. }
    (* an untouched chunk *)
    pose proof (wf_chunks _ _ _ Hwf _ _ Hk) as Hokk.
    eapply chunk_ok_frame; [exact Hokk| |].
    + intros d' Hn Hd' Hp. rewrite (carved_lookup _ _ _ _ _ _ Hne1 Hne2). heap_case.
    + intros d' Hp Hd' Hn. rewrite (carved_lookup _ _ _ _ _ _ Hne1 Hne2). heap_case.
  - assert (Hak : forall k dk, cache !! k = Some dk -> k <> a ->
                apart a size k (desc_total_size dk)
                /\ apart (a + size) (desc_total_size d - size) k (desc_total_size dk)).
    { intros k dk Hk Hka.
      pose proof (wf_disjoint _ _ _ Hwf _ _ _ _ Hd Hk ltac:(done)).
      pose proof (chunk_extent _ _ _ _ _ (wf_chunks _ _ _ Hwf _ _ Hk)).
      unfold apart in *. lia. }
    assert (Hsym : forall a b c d, apart a b c d -> apart c d a b)
      by (unfold apart; intros; lia).
    intros a1 d1 a2 d2 H1 H2 Hne12.
    rewrite (carved_lookup _ _ _ _ _ _ Hne1 Hne2) in H1.
    rewrite (carved_lookup _ _ _ _ _ _ Hne1 Hne2) in H2.
    destruct (cache !! desc_next d) as [dn|] eqn:Hdn; simpl in *;
      repeat case_decide; simplify_eq; simpl;
      first [ by eapply (wf_disjoint _ _ _ Hwf)
            | by (unfold apart; lia)
            | by (eapply Hak)
            | by (apply Hsym; eapply Hak) ].
  - intros rr Hrr. destruct (wf_region_base _ _ _ Hwf rr Hrr) as (Hpos & d0 & Hd0 & Hnh0).
    split; [done|]. rewrite (carved_lookup _ _ _ _ _ _ Hne1 Hne2).
    heap_case.
  - apply Hwf.
  - apply Hwf.
Qed.

(** ** Regions entering and leaving the heap *)

Lemma chunk_ok_weaken cfg cache cache' regions regions' k dk :
  chunk_ok cfg cache regions k dk ->
  (forall a d, cache !! a = Some d -> cache' !! a = Some d) ->
  (forall r, r ∈ regions -> r ∈ regions') ->
  chunk_ok cfg cache' regions' k dk.
Proof.
  intros Hok Hsub Hincl. constructor; try apply Hok.
  - intros Hn. destruct (chunk_next _ _ _ _ _ Hok Hn) as (Heq & d' & Hd' & Hp).
    split; [done|]. exists d'. split; [by apply Hsub|done].
  - intros Hp. destruct (chunk_prev _ _ _ _ _ Hok Hp) as (d' & Hd' & Hn).
    exists d'. split; [by apply Hsub|done].
  - intros Hnh. destruct (chunk_region _ _ _ _ _ Hok Hnh) as (r & Hr & Hrest).
    exists r. split; [by apply Hincl|done].
Qed.

(** A region that overlaps no refilled region and no HUGE chunk overlaps no
    chunk at all. *)
Lemma fresh_apart_chunks cfg cache regions p bytes :
  wf_heap cfg cache regions ->
  (forall r, r ∈ regions -> apart p bytes (get2 r) (get1 r)) ->
  (forall a d, cache !! a = Some d -> desc_type d = HUGE_CHUNK ->
     apart p bytes a (desc_total_size d)) ->
  forall a d, cache !! a = Some d -> apart p bytes a (desc_total_size d).
Proof.
  intros Hwf Hregs Hhuge a d Hd.
  destruct (decide (desc_type d = HUGE_CHUNK)) as [Hh|Hnh]; [by eapply Hhuge|].
  pose proof (wf_chunks _ _ _ Hwf _ _ Hd) as Hok.
  destruct (chunk_region _ _ _ _ _ Hok Hnh) as (r & Hr & _ & Hlo & Hhi & _).
  specialize (Hregs r Hr). unfold apart, region_end in *. lia.
Qed.

Lemma wf_heap_refill cfg cache regions p index bytes :
  wf_heap cfg cache regions ->
  0 < p -> 0 < bytes -> p + bytes <= size_t_modulus -> 0 <= index ->
  (forall r, r ∈ regions -> apart p bytes (get2 r) (get1 r)) ->
  (forall a d, cache !! a = Some d -> desc_type d = HUGE_CHUNK ->
     apart p bytes a (desc_total_size d)) ->
  wf_heap cfg (init cfg cache p FREE_CHUNK index bytes 0 0)
    (regions ++ [(index, bytes, p)]).
Proof.
  intros Hwf Hp Hbytes Hend Hidx Hregs Hhuge.
  pose proof (fresh_apart_chunks _ _ _ _ _ Hwf Hregs Hhuge) as Hap.
  assert (Hfresh : cache !! p = None).
  { destruct (cache !! p) as [d|] eqn:Hd; [|done].
    pose proof (Hap _ _ Hd).
    pose proof (chunk_extent _ _ _ _ _ (wf_chunks _ _ _ Hwf _ _ Hd)).
    unfold apart in *. lia. }
  assert (Hsub : forall a d, cache !! a = Some d ->
            init cfg cache p FREE_CHUNK index bytes 0 0 !! a = Some d).
  { intros a d Hd. unfold init, store. rewrite lookup_insert_ne; [done|].
    intros ->. congruence. }
  unfold init, store in *. constructor.
  - intros k dk Hk. rewrite lookup_insert in Hk. case_decide; simplify_eq.
    + constructor; simpl; try done.
      * apply check_update_guards.
      * intros _. exists (index, bytes, k). unfold region_end, get0, get1, get2. simpl.
        split; [apply elem_of_app; right; by apply list_elem_of_singleton|]. done.
    + eapply chunk_ok_weaken; [by eapply (wf_chunks _ _ _ Hwf)|done|].
      intros r Hr. apply elem_of_app. by left.
  - intros a1 d1 a2 d2 H1 H2 Hne. rewrite lookup_insert in H1, H2.
    repeat case_decide; simplify_eq; simpl;
      first [ by eapply (wf_disjoint _ _ _ Hwf)
            | by eapply Hap
            | (match goal with
               | H : cache !! _ = Some _ |- _ => specialize (Hap _ _ H)
               end; unfold apart in *; lia) ].
  - intros r Hr. apply elem_of_app in Hr as [Hr|Hr].
    + destruct (wf_region_base _ _ _ Hwf r Hr) as (Hpos & d0 & Hd0 & Hnh0).
      split; [done|]. exists d0. split; [by apply Hsub|done].
    + apply list_elem_of_singleton in Hr as ->. unfold get1, get2. simpl.
      split; [done|]. rewrite lookup_insert_eq. eexists. split; [done|]. done.
  - intros r1 r2 Hr1 Hr2.
    apply elem_of_app in Hr1 as [Hr1|Hr1]; apply elem_of_app in Hr2 as [Hr2|Hr2].
    + by eapply (wf_regions_disjoint _ _ _ Hwf).
    + apply list_elem_of_singleton in Hr2 as ->. right.
      specialize (Hregs r1 Hr1). unfold apart, get1, get2 in *. simpl. lia.
    + apply list_elem_of_singleton in Hr1 as ->. right.
      specialize (Hregs r2 Hr2). unfold apart, get1, get2 in *. simpl. lia.
    + apply list_elem_of_singleton in Hr1 as ->.
      apply list_elem_of_singleton in Hr2 as ->. by left.
  - apply NoDup_app. split; [apply Hwf|]. split; [|apply NoDup_singleton].
    intros r Hr Hr'. apply list_elem_of_singleton in Hr' as ->.
    specialize (Hregs _ Hr). unfold apart, get1, get2 in Hregs. simpl in Hregs. lia.
Qed.

Lemma wf_heap_huge_alloc cfg cache regions p index size :
  wf_heap cfg cache regions ->
  0 < p -> 0 < size -> p + size <= size_t_modulus -> 0 <= index ->
  (forall r, r ∈ regions -> apart p size (get2 r) (get1 r)) ->
  (forall a d, cache !! a = Some d -> desc_type d = HUGE_CHUNK ->
     apart p size a (desc_total_size d)) ->
  wf_heap cfg (init cfg cache p HUGE_CHUNK index size 0 0) regions.
Proof.
  intros Hwf Hp Hsize Hend Hidx Hregs Hhuge.
  pose proof (fresh_apart_chunks _ _ _ _ _ Hwf Hregs Hhuge) as Hap.
  assert (Hfresh : cache !! p = None).
  { destruct (cache !! p) as [d|] eqn:Hd; [|done].
    pose proof (Hap _ _ Hd).
    pose proof (chunk_extent _ _ _ _ _ (wf_chunks _ _ _ Hwf _ _ Hd)).
    unfold apart in *. lia. }
  assert (Hsub : forall a d, cache !! a = Some d ->
            init cfg cache p HUGE_CHUNK index size 0 0 !! a = Some d).
  { intros a d Hd. unfold init, store. rewrite lookup_insert_ne; [done|].
    intros ->. congruence. }
  unfold init, store in *. constructor.
  - intros k dk Hk. rewrite lookup_insert in Hk. case_decide; simplify_eq.
    + constructor; simpl; try done. apply check_update_guards.
    + eapply chunk_ok_weaken; [by eapply (wf_chunks _ _ _ Hwf)|done|done].
  - intros a1 d1 a2 d2 H1 H2 Hne. rewrite lookup_insert in H1, H2.
    repeat case_decide; simplify_eq; simpl;
      first [ by eapply (wf_disjoint _ _ _ Hwf)
            | by eapply Hap
            | (match goal with
               | H : cache !! _ = Some _ |- _ => specialize (Hap _ _ H)
               end; unfold apart in *; lia) ].
  - intros r Hr.
    destruct (wf_region_base _ _ _ Hwf r Hr) as (Hpos & d0 & Hd0 & Hnh0).
    split; [done|]. exists d0. split; [by apply Hsub|done].
  - apply Hwf.
  - apply Hwf.
Qed.

Lemma wf_heap_huge_free cfg cache regions a d :
  wf_heap cfg cache regions -> cache !! a = Some d ->
  desc_type d = HUGE_CHUNK ->
  wf_heap cfg (invalidate a cache) regions.
Proof.
  intros Hwf Hd Hh. unfold invalidate.
  destruct (chunk_huge _ _ _ _ _ (wf_chunks _ _ _ Hwf _ _ Hd) Hh) as [Hp0 Hn0].
  pose proof (chunk_extent _ _ _ _ _ (wf_chunks _ _ _ Hwf _ _ Hd)) as (? & ? & ?).
  constructor.
  - intros k dk Hk. rewrite lookup_delete in Hk. case_decide; simplify_eq.
    pose proof (wf_chunks _ _ _ Hwf _ _ Hk) as Hokk.
    pose proof (chunk_extent _ _ _ _ _ Hokk) as (? & ? & ?).
    eapply chunk_ok_frame; [exact Hokk| |].
    + intros d' Hn Hd' Hp. rewrite lookup_delete. heap_case.
    + intros d' Hp Hd' Hn. rewrite lookup_delete. heap_case.
  - intros a1 d1 a2 d2 Hd1 Hd2 Hne. rewrite lookup_delete in Hd1, Hd2.
    repeat case_decide; simplify_eq. by eapply (wf_disjoint _ _ _ Hwf).
  - intros r Hr.
    destruct (wf_region_base _ _ _ Hwf r Hr) as (Hpos & d0 & Hd0 & Hnh0).
    split; [done|]. rewrite lookup_delete. heap_case.
  - apply Hwf.
  - apply Hwf.
Qed.

(** ** [SplitToAlloc] on a well-formed allocator *)

Lemma update_guards_set_type cfg t d :
  update_guards cfg (set_type t (update_guards cfg d))
  = update_guards cfg (set_type t d).
Proof. done. Qed.

Lemma load_desc_insert_eq cfg cache block d :
  load_desc cfg (<[block := update_guards cfg d]> cache) block
  = Some (update_guards cfg d).
Proof. apply load_desc_store_eq. Qed.

Lemma load_desc_insert_ne cfg cache block block' d :
  block <> block' ->
  load_desc cfg (<[block := d]> cache) block' = load_desc cfg cache block'.
Proof. intros Hne. unfold load_desc. by rewrite lookup_insert_ne. Qed.

Lemma wf_state_pool_lookup cfg st e :
  wf_state cfg st -> e ∈ pool_ st ->
  exists d, cache_ st !! get2 e = Some d /\ desc_type d = FREE_CHUNK
            /\ e = desc_key (get2 e) d.
Proof. intros Hwf He. by apply (wf_st_pool _ _ Hwf). Qed.

Lemma SplitToAlloc_eval cfg st b d size :
  0 <= split_min_residual cfg ->
  wf_state cfg st -> cache_ st !! b = Some d -> desc_type d = FREE_CHUNK ->
  0 < size <= desc_total_size d ->
  SplitToAlloc cfg (desc_key b d) size (pool_ st) (cache_ st)
  = Some (b, served_pool cfg (pool_ st) b size d, served cfg (cache_ st) b size d).
Proof.
  intros Hthr Hwf Hd Hfree Hsize. pose proof (wf_st_heap _ _ Hwf) as Hheap.
  pose proof (chunk_extent _ _ _ _ _ (wf_chunks _ _ _ Hheap _ _ Hd)) as (Hb0 & Ht & Hbe).
  unfold SplitToAlloc, served, served_pool.
  replace (get2 (desc_key b d)) with b by done.
  rewrite (wf_heap_load _ _ _ _ _ Hheap Hd). simpl.
  rewrite (split_eval _ _ _ _ _ _ Hheap Hd) by lia. simpl.
  destruct (Z.leb_spec (desc_total_size d - size) (split_min_residual cfg)) as [Hle|Hgt].
  - rewrite Hd. simpl. unfold get_right_buddy.
    rewrite load_desc_insert_eq.
    simpl. destruct (Z.eqb_spec (desc_next d) 0) as [|Hn]; [done|].
    destruct (wf_heap_next _ _ _ _ _ Hheap Hd Hn) as (Heq & dn & Hdn & _).
    rewrite load_desc_insert_ne by lia.
    rewrite (wf_heap_load _ _ _ _ _ Hheap Hdn).
    simpl. pose proof (wf_st_coalesced _ _ Hwf _ _ _ Hd Hfree Hdn) as Hnf.
    by destruct (desc_type dn).
  - assert (Hnx0 : desc_next d = 0 \/ desc_next d = b + desc_total_size d).
    { destruct (decide (desc_next d = 0)) as [|Hn]; [by left|right].
      by destruct (wf_heap_next _ _ _ _ _ Hheap Hd Hn). }
    rewrite (carved_lookup _ _ _ _ _ b) by lia.
    rewrite decide_False by lia. rewrite decide_True by done. simpl.
    unfold get_right_buddy.
    rewrite load_desc_insert_eq.
    simpl. destruct (Z.eqb_spec (b + size) 0) as [|_]; [lia|].
    rewrite load_desc_insert_ne by lia. unfold load_desc.
    rewrite (carved_lookup _ _ _ _ _ (b + size)) by lia.
    rewrite decide_False by lia. rewrite decide_False by lia.
    rewrite decide_True by done. rewrite check_update_guards. simpl. done.
Qed.

Lemma wf_state_next_choice cfg cache regions a d :
  wf_heap cfg cache regions -> cache !! a = Some d ->
  desc_next d = 0 \/ desc_next d = a + desc_total_size d.
Proof.
  intros Hwf Hd. destruct (decide (desc_next d = 0)) as [|Hn]; [by left|right].
  by destruct (wf_heap_next _ _ _ _ _ Hwf Hd Hn).
Qed.

Lemma served_wf cfg st b d size used free realloc :
  0 <= split_min_residual cfg ->
  wf_state cfg st -> cache_ st !! b = Some d -> desc_type d = FREE_CHUNK ->
  0 < size <= desc_total_size d ->
  wf_state cfg
    (mkState (served_pool cfg (pool_ st) b size d) (served cfg (cache_ st) b size d)
       used free realloc (sys_log st))
  /\ (forall k, is_arena (served cfg (cache_ st) b size d) k
                <-> k = b \/ is_arena (cache_ st) k)
  /\ (forall k dk, served cfg (cache_ st) b size d !! k = Some dk ->
        desc_type dk = HUGE_CHUNK -> cache_ st !! k = Some dk).
Proof.
  intros Hthr Hwf Hd Hfree Hsize. pose proof (wf_st_heap _ _ Hwf) as Hheap.
  pose proof (wf_chunks _ _ _ Hheap _ _ Hd) as Hok.
  pose proof (chunk_extent _ _ _ _ _ Hok) as (Hb0 & Ht & Hbe).
  pose proof (chunk_fields _ _ _ _ _ Hok) as (Hidx & _).
  pose proof (wf_st_sorted _ _ Hwf) as Hsorted.
  pose proof (wf_state_next_choice _ _ _ _ _ Hheap Hd) as Hnx0.
  assert (Hnh : desc_type d <> HUGE_CHUNK) by (rewrite Hfree; done).
  assert (H0 : cache_ st !! 0 = None) by by eapply wf_heap_null.
  unfold served, served_pool.
  destruct (Z.leb_spec (desc_total_size d - size) (split_min_residual cfg)) as [Hle|Hgt].
  - (* the whole block is served *)
    split; [|split].
    + constructor; simpl.
      * by apply wf_heap_retype.
      * by apply pool_sorted_erase.
      * intros e. rewrite pool_erase_elem by apply Hsorted.
        rewrite (wf_st_pool _ _ Hwf e). rewrite lookup_insert.
        case_decide as Hk.
        -- split.
           ++ intros (Hne & d' & Hd' & _ & He). rewrite <- Hk in Hd'.
              exfalso. apply Hne. rewrite He, <- Hk. congruence.
           ++ intros (d' & [= <-] & Hf & _). done.
        -- split.
           ++ intros (_ & Hrest). done.
           ++ intros Hrest. split; [|done]. intros ->. apply Hk. done.
      * intros a da da' Ha Hfa Ha'. rewrite lookup_insert in Ha, Ha'.
        repeat case_decide; simplify_eq/=; try done.
        exact (wf_st_coalesced _ _ Hwf _ _ _ Ha Hfa Ha').
    + intros k. unfold is_arena. rewrite lookup_insert. case_decide.
      * split; [by left|]. intros _. eexists. split; [done|]. done.
      * split; [by right|]. intros [?|?]; [congruence|done].
    + intros k dk Hk Hh. rewrite lookup_insert in Hk. case_decide; simplify_eq/=. done.
  - (* the block is split *)
    pose proof (wf_heap_next_linked _ _ _ _ _ Hheap Hd) as Hnx.
    assert (Hfresh : cache_ st !! (b + size) = None).
    { eapply wf_heap_fresh_inside; [done..|lia]. }
    assert (Hlk : forall k,
      (<[b := update_guards cfg
                (set_type ARENA_CHUNK (set_extent cfg size (b + size) d))]>
         (carved cfg (cache_ st) b size d)) !! k
      = if decide (k = b)
        then Some (update_guards cfg
                     (set_type ARENA_CHUNK (set_extent cfg size (b + size) d)))
        else if decide (k = desc_next d)
             then (fun n => update_guards cfg (set_prev (b + size) n))
                    <$> cache_ st !! desc_next d
             else if decide (k = b + size)
                  then Some (update_guards cfg
                               (mkDesc FREE_CHUNK (desc_index d)
                                  (payload_size cfg (desc_total_size d - size))
                                  (desc_total_size d - size) b (desc_next d) 0 0))
                  else cache_ st !! k).
    { intros k. rewrite lookup_insert, carved_lookup by lia.
      repeat case_decide; simplify_eq; done. }
    split; [|split].
    + constructor; simpl.
      * rewrite <- update_guards_set_type. apply wf_heap_retype; [| |done..].
        -- apply wf_heap_carved; [done..|lia].
        -- rewrite carved_lookup by lia. rewrite decide_False by lia.
           by rewrite decide_True.
      * apply pool_sorted_insert; [by apply pool_sorted_erase|].
        unfold isa_in_range, get0, get1, get2. simpl. lia.
      * intros e. rewrite pool_insert_elem, pool_erase_elem by apply Hsorted.
        rewrite (wf_st_pool _ _ Hwf e). rewrite Hlk.
        destruct (decide (get2 e = b)) as [Hk|Hk].
        { split.
          - intros [->|(Hne & d' & Hd' & _ & He)].
            + unfold get2 in Hk. simpl in Hk. lia.
            + rewrite Hk in Hd'. exfalso. apply Hne. rewrite He, Hk. congruence.
          - intros (d' & [= <-] & Hf & _). done. }
        destruct (decide (get2 e = desc_next d)) as [Hkn|Hkn].
        { destruct (cache_ st !! desc_next d) as [dn|] eqn:Hdn; simpl.
          - split.
            + intros [->|(Hne & d' & Hd' & Hf & He)].
              * unfold get2 in Hkn. simpl in Hkn. lia.
              * rewrite Hkn, Hdn in Hd'. injection Hd' as <-.
                eexists. split; [done|]. split; [done|]. done.
            + intros (d' & [= <-] & Hf & He). right. split.
              * intros ->. unfold desc_key, get2 in Hkn. simpl in Hkn. lia.
              * exists dn. rewrite Hkn. split; [done|]. split; [done|].
                rewrite He at 1. rewrite Hkn. done.
          - split.
            + intros [->|(Hne & d' & Hd' & Hf & He)].
              * unfold get2 in Hkn. simpl in Hkn. lia.
              * rewrite Hkn, Hdn in Hd'. done.
            + intros (d' & Hd' & _). done. }
        destruct (decide (get2 e = b + size)) as [Hkw|Hkw].
        { split.
          - intros [->|(Hne & d' & Hd' & Hf & He)].
            + eexists. split; [done|]. split; [done|]. done.
            + rewrite Hkw, Hfresh in Hd'. done.
          - intros (d' & [= <-] & Hf & He). left. rewrite He, Hkw. done. }
        split.
        -- intros [->|(Hne & Hrest)]; [|done].
           unfold get2 in Hkw. simpl in Hkw. lia.
        -- intros Hrest. right. split; [|done]. intros ->. apply Hk. done.
      * intros a da da' Ha Hfa Ha'. rewrite Hlk in Ha.
        assert (Hdn_free : forall dn, cache_ st !! desc_next d = Some dn ->
                  desc_type dn <> FREE_CHUNK).
        { intros dn Hdn. exact (wf_st_coalesced _ _ Hwf _ _ _ Hd Hfree Hdn). }
        destruct (decide (a = b)) as [->|Hab].
        { injection Ha as <-. simpl in Hfa. done. }
        destruct (decide (a = desc_next d)) as [->|Han].
        { destruct (cache_ st !! desc_next d) as [dn|] eqn:Hdn; [|done].
          injection Ha as <-. simpl in Hfa. by destruct (Hdn_free dn). }
        destruct (decide (a = b + size)) as [->|Haw].
        { injection Ha as <-. simpl in Ha'. rewrite Hlk in Ha'.
          rewrite decide_False in Ha' by lia. rewrite decide_True in Ha' by done.
          destruct (cache_ st !! desc_next d) as [dn|] eqn:Hdn; [|done].
          injection Ha' as <-. simpl. by apply Hdn_free. }
        rewrite Hlk in Ha'.
        destruct (decide (desc_next da = b)) as [Hnb|Hnb].
        { injection Ha' as <-. simpl. done. }
        destruct (decide (desc_next da = desc_next d)) as [Hnn|Hnn].
        { destruct (cache_ st !! desc_next d) as [dn|] eqn:Hdn; [|done].
          injection Ha' as <-. simpl. rewrite <- Hnn in Hdn.
          exact (wf_st_coalesced _ _ Hwf _ _ _ Ha Hfa Hdn). }
        destruct (decide (desc_next da = b + size)) as [Hnw|Hnw].
        { exfalso.
          destruct (wf_heap_next _ _ _ _ _ Hheap Ha ltac:(lia)) as (_ & dx & Hdx & _).
          rewrite Hnw, Hfresh in Hdx. done. }
        exact (wf_st_coalesced _ _ Hwf _ _ _ Ha Hfa Ha').
    + intros k. unfold is_arena. rewrite Hlk.
      destruct (decide (k = b)) as [->|Hkb].
      { split; [by left|]. intros _. eexists. split; [done|]. done. }
      destruct (decide (k = desc_next d)) as [->|Hkn].
      { destruct (cache_ st !! desc_next d) as [dn|] eqn:Hdn; simpl.
        - split.
          + intros (d' & [= <-] & Ht'). right. by exists dn.
          + intros [?|(d' & [= <-] & Ht')]; [done|]. eexists. split; [done|]. done.
        - split; [by intros (? & ? & ?)|]. intros [?|(? & ? & ?)]; done. }
      destruct (decide (k = b + size)) as [->|Hkw].
      { split.
        - intros (d' & [= <-] & Ht'). done.
        - intros [?|(d' & Hd' & _)]; [lia|]. rewrite Hfresh in Hd'. done. }
      split; [by right|]. intros [?|?]; done.
    + intros k dk Hk Hh. rewrite Hlk in Hk.
      destruct (decide (k = b)) as [->|Hkb].
      { injection Hk as <-. done. }
      destruct (decide (k = desc_next d)) as [->|Hkn].
      { destruct (cache_ st !! desc_next d) as [dn|] eqn:Hdn; [|done].
        injection Hk as <-. simpl in Hh.
        destruct (Hnx _ Hdn) as (_ & _ & Hnhn & _). done. }
      destruct (decide (k = b + size)) as [->|Hkw].
      { injection Hk as <-. done. }
      done.
Qed.

(** ** [Free] on a well-formed allocator *)

(** What a merge does to the chunks other than the two it joins. *)
Lemma merged_other cfg cache regions x y dx dy k :
  wf_heap cfg cache regions -> cache !! x = Some dx -> cache !! y = Some dy ->
  desc_next dx = y -> y <> 0 -> k <> x -> k <> y ->
  match cache !! k with
  | Some dk => exists dk', merged cfg cache x y dx dy !! k = Some dk'
                           /\ same_chunk dk dk'
                           /\ (k <> desc_next dy -> dk' = dk)
  | None => merged cfg cache x y dx dy !! k = None
  end.
Proof.
  intros Hwf Hx Hy Hxy Hy0 Hkx Hky.
  pose proof (chunk_extent _ _ _ _ _ (wf_chunks _ _ _ Hwf _ _ Hx)) as (? & ? & ?).
  pose proof (chunk_extent _ _ _ _ _ (wf_chunks _ _ _ Hwf _ _ Hy)) as (? & ? & ?).
  destruct (wf_heap_next _ _ _ _ _ Hwf Hx ltac:(lia)) as (Heq & _).
  pose proof (wf_state_next_choice _ _ _ _ _ Hwf Hy) as Hnx0.
  rewrite merged_lookup by lia.
  rewrite decide_False by done.
  destruct (decide (k = desc_next dy)) as [->|Hkn].
  - destruct (cache !! desc_next dy) as [dn|]; simpl; [|done].
    eexists. split; [done|]. split; [done|]. done.
  - rewrite decide_False by done.
    destruct (cache !! k) as [dk|]; [|done]. exists dk. done.
Qed.

Lemma merged_absorbed cfg cache x y dx dy :
  x <> desc_next dy -> merged cfg cache x y dx dy !! y = None.
Proof. intros Hne. rewrite merged_lookup by done. by rewrite decide_True. Qed.

Lemma merged_joined cfg cache x y dx dy :
  x <> desc_next dy -> x <> y ->
  merged cfg cache x y dx dy !! x
  = Some (update_guards cfg
            (set_extent cfg (desc_total_size dx + desc_total_size dy)
               (desc_next dy) dx)).
Proof.
  intros Hne Hxy. rewrite merged_lookup by done.
  rewrite decide_False by done. rewrite decide_False by done.
  by rewrite decide_True.
Qed.

Lemma merged_other_Some cfg cache regions x y dx dy k dk :
  wf_heap cfg cache regions -> cache !! x = Some dx -> cache !! y = Some dy ->
  desc_next dx = y -> y <> 0 -> k <> x -> k <> y -> cache !! k = Some dk ->
  exists dk', merged cfg cache x y dx dy !! k = Some dk' /\ same_chunk dk dk'.
Proof.
  intros Hwf Hx Hy Hxy Hy0 Hkx Hky Hk.
  pose proof (merged_other _ _ _ _ _ _ _ k Hwf Hx Hy Hxy Hy0 Hkx Hky) as Hm.
  rewrite Hk in Hm. destruct Hm as (dk' & ? & ? & _). by exists dk'.
Qed.

Lemma merged_other_inv cfg cache regions x y dx dy k dk' :
  wf_heap cfg cache regions -> cache !! x = Some dx -> cache !! y = Some dy ->
  desc_next dx = y -> y <> 0 -> k <> x ->
  merged cfg cache x y dx dy !! k = Some dk' ->
  k <> y /\ exists dk, cache !! k = Some dk /\ same_chunk dk dk'.
Proof.
  intros Hwf Hx Hy Hxy Hy0 Hkx Hk.
  pose proof (chunk_extent _ _ _ _ _ (wf_chunks _ _ _ Hwf _ _ Hx)) as (? & ? & ?).
  pose proof (chunk_extent _ _ _ _ _ (wf_chunks _ _ _ Hwf _ _ Hy)) as (? & ? & ?).
  destruct (wf_heap_next _ _ _ _ _ Hwf Hx ltac:(lia)) as (Heq & _).
  pose proof (wf_state_next_choice _ _ _ _ _ Hwf Hy) as Hnx0.
  assert (Hky : k <> y).
  { intros ->. rewrite merged_absorbed in Hk by lia. done. }
  split; [done|].
  pose proof (merged_other _ _ _ _ _ _ _ k Hwf Hx Hy Hxy Hy0 Hkx Hky) as Hm.
  destruct (cache !! k) as [dk|]; [|congruence].
  destruct Hm as (dk'' & ? & ? & _). exists dk. split; [done|]. congruence.
Qed.

Lemma free_entry_same_chunk cache cache' e d d' :
  cache !! get2 e = Some d -> cache' !! get2 e = Some d' -> same_chunk d d' ->
  free_entry cache e -> free_entry cache' e.
Proof.
  intros Hd Hd' (Ht & Hi & Hs & _) (d0 & Hd0 & Hf & He).
  assert (d0 = d) as -> by congruence.
  exists d'. split; [done|]. split; [congruence|].
  rewrite He at 1. unfold desc_key. by rewrite Hi, Hs.
Qed.

Lemma same_chunk_sym d d' : same_chunk d d' -> same_chunk d' d.
Proof. unfold same_chunk. intros (-> & -> & -> & ->). done. Qed.

Lemma pending_mark cfg st a d :
  wf_state cfg st -> cache_ st !! a = Some d -> desc_type d = ARENA_CHUNK ->
  wf_pending cfg (pool_ st)
    (<[a := update_guards cfg (set_type FREE_CHUNK d)]> (cache_ st))
    (refill_regions (sys_log st)) a.
Proof.
  intros Hwf Hd Ht. constructor.
  - apply wf_heap_retype; [apply Hwf|done|by rewrite Ht|done].
  - apply Hwf.
  - intros e. rewrite (wf_st_pool _ _ Hwf e). fold (free_entry (cache_ st) e).
    unfold free_entry. split.
    + intros (d' & Hd' & Hf & He).
      assert (get2 e <> a) by (intros E; rewrite E in Hd'; congruence).
      split; [|done]. exists d'. by rewrite lookup_insert_ne.
    + intros ((d' & Hd' & Hf & He) & Hne). rewrite lookup_insert_ne in Hd' by done.
      by exists d'.
  - intros k dk dk' Hk Hf Hk' Hf'.
    destruct (decide (k = a)) as [|Hka]; [by left|].
    destruct (decide (desc_next dk = a)) as [|Hna]; [by right|].
    rewrite lookup_insert_ne in Hk, Hk' by done.
    by destruct (wf_st_coalesced _ _ Hwf _ _ _ Hk Hf Hk').
Qed.

Lemma pending_finish cfg pool cache log x dx used free realloc :
  wf_pending cfg pool cache (refill_regions log) x ->
  cache !! x = Some dx -> desc_type dx = FREE_CHUNK ->
  (forall dn, cache !! desc_next dx = Some dn -> desc_type dn <> FREE_CHUNK) ->
  (forall dl, cache !! desc_prev dx = Some dl -> desc_type dl <> FREE_CHUNK) ->
  wf_state cfg (mkState (pool_insert (desc_key x dx) pool) cache used free realloc log).
Proof.
  intros Hp Hx Hf Hright Hleft. pose proof (pend_heap _ _ _ _ _ Hp) as Hheap.
  pose proof (wf_chunks _ _ _ Hheap _ _ Hx) as Hok.
  constructor; simpl.
  - done.
  - apply pool_sorted_insert; [apply Hp|].
    pose proof (chunk_extent _ _ _ _ _ Hok) as (? & ? & ?).
    pose proof (chunk_fields _ _ _ _ _ Hok) as (? & _).
    unfold isa_in_range, desc_key, get0, get1, get2. simpl. lia.
  - intros e. rewrite pool_insert_elem, (pend_pool _ _ _ _ _ Hp e).
    fold (free_entry cache e). split.
    + intros [->|[? _]]; [|done]. by exists dx.
    + intros Hfe. destruct (decide (get2 e = x)) as [Hk|Hk]; [left|by right].
      destruct Hfe as (d' & Hd' & _ & He). rewrite Hk in Hd'.
      rewrite He, Hk. congruence.
  - intros k dk dk' Hk Hfk Hk' Hfk'.
    destruct (pend_coalesced _ _ _ _ _ Hp _ _ _ Hk Hfk Hk' Hfk') as [->|Hnx].
    + assert (dk = dx) as -> by congruence. by eapply Hright.
    + assert (Hn : desc_next dk <> 0).
      { intros E. rewrite E, (wf_heap_null _ _ _ Hheap) in Hk'. done. }
      destruct (wf_heap_next _ _ _ _ _ Hheap Hk Hn) as (_ & d'' & Hd'' & Hpk & _).
      rewrite Hnx in Hd''. assert (d'' = dx) as -> by congruence.
      eapply Hleft; [by rewrite Hpk|done].
Qed.

Lemma pending_merge_right cfg pool cache regions x dx r dr :
  wf_pending cfg pool cache regions x ->
  cache !! x = Some dx -> desc_type dx = FREE_CHUNK ->
  desc_next dx = r -> r <> 0 ->
  cache !! r = Some dr -> desc_type dr = FREE_CHUNK ->
  wf_pending cfg (pool_erase (desc_key r dr) pool) (merged cfg cache x r dx dr)
    regions x
  /\ (forall dn, merged cfg cache x r dx dr !! desc_next dr = Some dn ->
        desc_type dn <> FREE_CHUNK).
Proof.
  intros Hp Hx Hfx Hxr Hr0 Hr Hfr. pose proof (pend_heap _ _ _ _ _ Hp) as Hheap.
  pose proof (pend_sorted _ _ _ _ _ Hp) as Hsorted.
  pose proof (chunk_extent _ _ _ _ _ (wf_chunks _ _ _ Hheap _ _ Hx)) as (Hx0 & Htx & _).
  pose proof (chunk_extent _ _ _ _ _ (wf_chunks _ _ _ Hheap _ _ Hr)) as (_ & Htr & _).
  destruct (wf_heap_next _ _ _ _ _ Hheap Hx ltac:(lia)) as (Heq & _).
  pose proof (wf_state_next_choice _ _ _ _ _ Hheap Hr) as Hnx0.
  assert (Hxr' : x <> r) by lia.
  assert (Hxn : x <> desc_next dr) by lia.
  assert (Hrn : r <> desc_next dr) by lia.
  assert (Hright : forall dn, merged cfg cache x r dx dr !! desc_next dr = Some dn ->
            desc_type dn <> FREE_CHUNK).
  { intros dn' Hdn' Hf'.
    destruct (merged_other_inv _ _ _ _ _ _ _ _ _ Hheap Hx Hr Hxr Hr0
                (not_eq_sym Hxn) Hdn')
      as (_ & dn & Hdn & (Ht & _)).
    rewrite Ht in Hf'.
    destruct (pend_coalesced _ _ _ _ _ Hp _ _ _ Hr Hfr Hdn Hf'); lia. }
  split; [|done]. constructor.
  - by apply wf_heap_merged.
  - by apply pool_sorted_erase.
  - intros e. rewrite pool_erase_elem by apply Hsorted.
    rewrite (pend_pool _ _ _ _ _ Hp e). split.
    + intros (Hne & Hfe & Hex). split; [|done].
      destruct Hfe as (d' & Hd' & Hf' & He).
      assert (Her : get2 e <> r).
      { intros E. rewrite E in Hd'. apply Hne. rewrite He, E. congruence. }
      destruct (merged_other_Some _ _ _ _ _ _ _ _ _ Hheap Hx Hr Hxr Hr0 Hex Her Hd')
        as (d'' & Hd'' & Hsame).
      eapply free_entry_same_chunk; [exact Hd'|exact Hd''|done|]. by exists d'.
    + intros (Hfe & Hex). destruct Hfe as (d'' & Hd'' & Hf'' & He).
      destruct (merged_other_inv _ _ _ _ _ _ _ _ _ Hheap Hx Hr Hxr Hr0 Hex Hd'')
        as (Her & d' & Hd' & Hsame).
      split; [|split; [|done]].
      * intros ->. apply Her. done.
      * eapply free_entry_same_chunk; [exact Hd''|exact Hd'|by apply same_chunk_sym|].
        by exists d''.
  - intros k dk' dm' Hk' Hfk' Hm' Hfm'.
    destruct (decide (k = x)) as [|Hkx]; [by left|].
    destruct (decide (desc_next dk' = x)) as [|Hmx]; [by right|]. exfalso.
    destruct (merged_other_inv _ _ _ _ _ _ _ _ _ Hheap Hx Hr Hxr Hr0 Hkx Hk')
      as (Hkr & dk & Hk & (Htk & _ & _ & Hnk)).
    destruct (merged_other_inv _ _ _ _ _ _ _ _ _ Hheap Hx Hr Hxr Hr0 Hmx Hm')
      as (Hmr & dm & Hm & (Htm & _)).
    rewrite Htk in Hfk'. rewrite Htm in Hfm'. rewrite Hnk in Hm.
    destruct (pend_coalesced _ _ _ _ _ Hp _ _ _ Hk Hfk' Hm Hfm'); congruence.
Qed.

Lemma pending_merge_left cfg pool cache regions x dx l dl :
  wf_pending cfg pool cache regions x ->
  cache !! x = Some dx -> desc_type dx = FREE_CHUNK ->
  desc_prev dx = l -> l <> 0 ->
  cache !! l = Some dl -> desc_type dl = FREE_CHUNK ->
  (forall dn, cache !! desc_next dx = Some dn -> desc_type dn <> FREE_CHUNK) ->
  wf_pending cfg (pool_erase (desc_key l dl) pool) (merged cfg cache l x dl dx)
    regions l
  /\ (forall dn, merged cfg cache l x dl dx !! desc_next dx = Some dn ->
        desc_type dn <> FREE_CHUNK)
  /\ (forall dll, merged cfg cache l x dl dx !! desc_prev dl = Some dll ->
        desc_type dll <> FREE_CHUNK).
Proof.
  intros Hp Hx Hfx Hxl Hl0 Hl Hfl Hright. pose proof (pend_heap _ _ _ _ _ Hp) as Hheap.
  pose proof (pend_sorted _ _ _ _ _ Hp) as Hsorted.
  pose proof (chunk_extent _ _ _ _ _ (wf_chunks _ _ _ Hheap _ _ Hx)) as (Hx0 & Htx & _).
  pose proof (chunk_extent _ _ _ _ _ (wf_chunks _ _ _ Hheap _ _ Hl)) as (_ & Htl & _).
  destruct (wf_heap_prev _ _ _ _ _ Hheap Hx ltac:(lia)) as (dl' & Hdl' & Hlx & Heq & _).
  rewrite Hxl in Hdl', Heq. assert (dl' = dl) as -> by congruence. clear Hdl'.
  pose proof (wf_state_next_choice _ _ _ _ _ Hheap Hx) as Hnx0.
  assert (Hlx' : l <> x) by lia.
  assert (Hln : l <> desc_next dx) by lia.
  assert (Hxn : x <> desc_next dx) by lia.
  assert (Hx0' : x <> 0) by lia.
  split; [|split].
  - constructor.
    + by apply wf_heap_merged.
    + by apply pool_sorted_erase.
    + intros e. rewrite pool_erase_elem by apply Hsorted.
      rewrite (pend_pool _ _ _ _ _ Hp e). split.
      * intros (Hne & Hfe & Hex).
        destruct Hfe as (d' & Hd' & Hf' & He).
        assert (Hel : get2 e <> l).
        { intros E. rewrite E in Hd'. apply Hne. rewrite He, E. congruence. }
        split; [|done].
        destruct (merged_other_Some _ _ _ _ _ _ _ _ _ Hheap Hl Hx Hlx Hx0' Hel Hex Hd')
          as (d'' & Hd'' & Hsame).
        eapply free_entry_same_chunk; [exact Hd'|exact Hd''|done|]. by exists d'.
      * intros (Hfe & Hel). destruct Hfe as (d'' & Hd'' & Hf'' & He).
        destruct (merged_other_inv _ _ _ _ _ _ _ _ _ Hheap Hl Hx Hlx Hx0' Hel Hd'')
          as (Hex & d' & Hd' & Hsame).
        split; [|split; [|done]].
        -- intros ->. apply Hel. done.
        -- eapply free_entry_same_chunk; [exact Hd''|exact Hd'|by apply same_chunk_sym|].
           by exists d''.
    + intros k dk' dm' Hk' Hfk' Hm' Hfm'.
      destruct (decide (k = l)) as [|Hkl]; [by left|].
      destruct (decide (desc_next dk' = l)) as [|Hml]; [by right|]. exfalso.
      destruct (merged_other_inv _ _ _ _ _ _ _ _ _ Hheap Hl Hx Hlx Hx0' Hkl Hk')
        as (Hkx & dk & Hk & (Htk & _ & _ & Hnk)).
      destruct (merged_other_inv _ _ _ _ _ _ _ _ _ Hheap Hl Hx Hlx Hx0' Hml Hm')
        as (Hmx & dm & Hm & (Htm & _)).
      rewrite Htk in Hfk'. rewrite Htm in Hfm'. rewrite Hnk in Hm.
      destruct (pend_coalesced _ _ _ _ _ Hp _ _ _ Hk Hfk' Hm Hfm'); congruence.
  - intros dn' Hdn' Hf'.
    destruct (merged_other_inv _ _ _ _ _ _ _ _ _ Hheap Hl Hx Hlx Hx0'
                (not_eq_sym Hln) Hdn')
      as (_ & dn & Hdn & (Ht & _)).
    rewrite Ht in Hf'. by eapply Hright.
  - intros dll' Hdll' Hf'.
    assert (Hll : desc_prev dl <> l).
    { intros E. destruct (decide (desc_prev dl = 0)) as [|Hn0]; [lia|].
      destruct (wf_heap_prev _ _ _ _ _ Hheap Hl Hn0) as (? & ? & ? & ? & ? & ?). lia. }
    destruct (merged_other_inv _ _ _ _ _ _ _ _ _ Hheap Hl Hx Hlx Hx0' Hll Hdll')
      as (Hllx & dll & Hdll & (Ht & _)).
    rewrite Ht in Hf'.
    assert (Hn0 : desc_prev dl <> 0).
    { intros E. rewrite E, (wf_heap_null _ _ _ Hheap) in Hdll. done. }
    destruct (wf_heap_prev _ _ _ _ _ Hheap Hl Hn0) as (dll2 & Hdll2 & Hnll & Hell & _).
    assert (dll2 = dll) as -> by congruence.
    rewrite <- Hnll in Hl.
    destruct (pend_coalesced _ _ _ _ _ Hp _ _ _ Hdll Hf' Hl Hfl) as [E|E]; lia.
Qed.

(** Merging two FREE chunks changes neither the chunks handed out nor the
    HUGE chunks. *)
Lemma merged_tracking cfg cache regions x y dx dy :
  wf_heap cfg cache regions -> cache !! x = Some dx -> cache !! y = Some dy ->
  desc_next dx = y -> y <> 0 ->
  desc_type dx = FREE_CHUNK -> desc_type dy = FREE_CHUNK ->
  (forall k t, arena_at (merged cfg cache x y dx dy) k t <-> arena_at cache k t)
  /\ (forall k dk, desc_type dk = HUGE_CHUNK ->
        (merged cfg cache x y dx dy !! k = Some dk <-> cache !! k = Some dk)).
Proof.
  intros Hwf Hx Hy Hxy Hy0 Hfx Hfy.
  pose proof (chunk_extent _ _ _ _ _ (wf_chunks _ _ _ Hwf _ _ Hx)) as (Hx0 & Htx & _).
  pose proof (chunk_extent _ _ _ _ _ (wf_chunks _ _ _ Hwf _ _ Hy)) as (_ & Hty & _).
  destruct (wf_heap_next _ _ _ _ _ Hwf Hx ltac:(lia)) as (Heq & _).
  pose proof (wf_state_next_choice _ _ _ _ _ Hwf Hy) as Hnx0.
  pose proof (wf_heap_next_linked _ _ _ _ _ Hwf Hy) as Hnx.
  assert (Hxn : x <> desc_next dy) by lia.
  assert (Hxy' : x <> y) by lia.
  split.
  - intros k t. unfold arena_at.
    destruct (decide (k = x)) as [->|Hkx].
    { rewrite merged_joined by done. rewrite Hx. split.
      - intros (d' & [= <-] & Ht & _). simpl in Ht. congruence.
      - intros (d' & [= <-] & Ht & _). congruence. }
    destruct (decide (k = y)) as [->|Hky].
    { rewrite merged_absorbed by done. rewrite Hy. split.
      - intros (d' & ? & _). done.
      - intros (d' & [= <-] & Ht & _). congruence. }
    pose proof (merged_other _ _ _ _ _ _ _ k Hwf Hx Hy Hxy Hy0 Hkx Hky) as Hm.
    destruct (cache !! k) as [dk|].
    + destruct Hm as (dk' & -> & (Ht & _ & Hs & _) & _). split.
      * intros (d' & [= <-] & ? & ?). exists dk. split; [done|]. split; congruence.
      * intros (d' & [= <-] & ? & ?). exists dk'. split; [done|]. split; congruence.
    + rewrite Hm. done.
  - intros k dk Hh.
    destruct (decide (k = x)) as [->|Hkx].
    { rewrite merged_joined by done. rewrite Hx. split.
      - intros [= <-]. simpl in Hh. congruence.
      - intros [= <-]. congruence. }
    destruct (decide (k = y)) as [->|Hky].
    { rewrite merged_absorbed by done. rewrite Hy. split; [done|].
      intros [= <-]. congruence. }
    pose proof (merged_other _ _ _ _ _ _ _ k Hwf Hx Hy Hxy Hy0 Hkx Hky) as Hm.
    destruct (cache !! k) as [dk0|] eqn:Hk0.
    + destruct Hm as (dk' & Hk' & (Ht & _) & Hsame). rewrite Hk'.
      destruct (decide (k = desc_next dy)) as [->|Hkn].
      * destruct (Hnx _ Hk0) as (_ & _ & Hnh & _).
        split; intros [= <-]; congruence.
      * rewrite (Hsame Hkn). done.
    + rewrite Hm. done.
Qed.

Lemma merge_right_buddy_spec cfg pool cache regions x dx :
  wf_pending cfg pool cache regions x ->
  cache !! x = Some dx -> desc_type dx = FREE_CHUNK ->
  exists pool2 cache2 dx2,
    merge_right_buddy cfg x pool cache = Some (pool2, cache2)
    /\ wf_pending cfg pool2 cache2 regions x
    /\ cache2 !! x = Some dx2 /\ desc_type dx2 = FREE_CHUNK
    /\ desc_total_size dx <= desc_total_size dx2
    /\ (forall dn, cache2 !! desc_next dx2 = Some dn -> desc_type dn <> FREE_CHUNK)
    /\ (forall k t, arena_at cache2 k t <-> arena_at cache k t)
    /\ (forall k dk, desc_type dk = HUGE_CHUNK ->
          (cache2 !! k = Some dk <-> cache !! k = Some dk)).
Proof.
  intros Hp Hx Hfx. pose proof (pend_heap _ _ _ _ _ Hp) as Hheap.
  unfold merge_right_buddy, get_right_buddy.
  rewrite (wf_heap_load _ _ _ _ _ Hheap Hx). simpl.
  destruct (Z.eqb_spec (desc_next dx) 0) as [Hn0|Hn0].
  { exists pool, cache, dx. do 4 (split; [done|]). split; [lia|].
    split; [|done]. intros dn Hdn. rewrite Hn0, (wf_heap_null _ _ _ Hheap) in Hdn. done. }
  destruct (wf_heap_next _ _ _ _ _ Hheap Hx Hn0) as (Heq & dr & Hr & _ & _ & Htr).
  rewrite (wf_heap_load _ _ _ _ _ Hheap Hr). simpl.
  destruct (decide (desc_type dr = FREE_CHUNK)) as [Hfr|Hfr].
  - rewrite Hfr. rewrite (merge_eval _ _ _ _ _ _ _ Hheap Hx Hr eq_refl). simpl.
    destruct (pending_merge_right _ _ _ _ _ _ _ _ Hp Hx Hfx eq_refl Hn0 Hr Hfr)
      as (Hp2 & Hright).
    destruct (merged_tracking _ _ _ _ _ _ _ Hheap Hx Hr eq_refl Hn0 Hfx Hfr)
      as (Harena & Hhuge).
    pose proof (chunk_extent _ _ _ _ _ (wf_chunks _ _ _ Hheap _ _ Hx)) as (Hx0 & Htx & _).
    pose proof (wf_state_next_choice _ _ _ _ _ Hheap Hr) as Hnx0.
    eexists _, _, _. split; [done|]. split; [done|].
    split; [apply merged_joined; lia|]. simpl. split; [done|]. split; [lia|].
    done.
  - exists pool, cache, dx.
    assert (Hres : match desc_type dr with
                   | FREE_CHUNK =>
                       cache' ← merge cfg cache x (desc_next dx);
                       Some (pool_erase (desc_key (desc_next dx) dr) pool, cache')
                   | _ => Some (pool, cache)
                   end = Some (pool, cache)).
    { by destruct (desc_type dr). }
    rewrite Hres. do 4 (split; [done|]). split; [lia|].
    split; [|done]. intros dn Hdn. congruence.
Qed.

Lemma merge_left_buddy_spec cfg pool cache regions x dx :
  wf_pending cfg pool cache regions x ->
  cache !! x = Some dx -> desc_type dx = FREE_CHUNK ->
  (forall dn, cache !! desc_next dx = Some dn -> desc_type dn <> FREE_CHUNK) ->
  exists pool3 cache3 x3 dx3,
    merge_left_buddy cfg x pool cache = Some (pool3, cache3, x3)
    /\ wf_pending cfg pool3 cache3 regions x3
    /\ cache3 !! x3 = Some dx3 /\ desc_type dx3 = FREE_CHUNK
    /\ x3 <= x /\ x + desc_total_size dx <= x3 + desc_total_size dx3
    /\ (forall dn, cache3 !! desc_next dx3 = Some dn -> desc_type dn <> FREE_CHUNK)
    /\ (forall dl, cache3 !! desc_prev dx3 = Some dl -> desc_type dl <> FREE_CHUNK)
    /\ (forall k t, arena_at cache3 k t <-> arena_at cache k t)
    /\ (forall k dk, desc_type dk = HUGE_CHUNK ->
          (cache3 !! k = Some dk <-> cache !! k = Some dk)).
Proof.
  intros Hp Hx Hfx Hright. pose proof (pend_heap _ _ _ _ _ Hp) as Hheap.
  unfold merge_left_buddy, get_left_buddy.
  rewrite (wf_heap_load _ _ _ _ _ Hheap Hx). simpl.
  destruct (Z.eqb_spec (desc_prev dx) 0) as [Hl0|Hl0].
  { exists pool, cache, x, dx. do 4 (split; [done|]). split; [lia|]. split; [lia|].
    split; [done|]. split; [|done].
    intros dl Hdl. rewrite Hl0, (wf_heap_null _ _ _ Hheap) in Hdl. done. }
  destruct (wf_heap_prev _ _ _ _ _ Hheap Hx Hl0) as (dl & Hl & Hlx & Heq & _ & Htl).
  rewrite (wf_heap_load _ _ _ _ _ Hheap Hl). simpl.
  pose proof (chunk_extent _ _ _ _ _ (wf_chunks _ _ _ Hheap _ _ Hx)) as (Hx0 & Htx & _).
  destruct (decide (desc_type dl = FREE_CHUNK)) as [Hfl|Hfl].
  - rewrite Hfl. rewrite (merge_eval _ _ _ _ _ _ _ Hheap Hl Hx Hlx). simpl.
    destruct (pending_merge_left _ _ _ _ _ _ _ _ Hp Hx Hfx eq_refl Hl0 Hl Hfl Hright)
      as (Hp3 & Hright3 & Hleft3).
    destruct (merged_tracking _ _ _ _ _ _ _ Hheap Hl Hx Hlx ltac:(lia) Hfl Hfx)
      as (Harena & Hhuge).
    pose proof (wf_state_next_choice _ _ _ _ _ Hheap Hx) as Hnx0.
    eexists _, _, _, _. split; [done|]. split; [done|].
    split; [apply merged_joined; lia|]. simpl. split; [done|].
    split; [lia|]. split; [lia|]. done.
  - exists pool, cache, x, dx.
    assert (Hres : match desc_type dl with
                   | FREE_CHUNK =>
                       cache' ← merge cfg cache (desc_prev dx) x;
                       Some (pool_erase (desc_key (desc_prev dx) dl) pool, cache',
                             desc_prev dx)
                   | _ => Some (pool, cache, x)
                   end = Some (pool, cache, x)).
    { by destruct (desc_type dl). }
    rewrite Hres. do 4 (split; [done|]). split; [lia|]. split; [lia|].
    split; [done|]. split; [|done]. intros dl' Hdl'. congruence.
Qed.

(** [Free] of a chunk that is handed out. *)
Lemma Free_arena cfg st a d :
  wf_state cfg st -> cache_ st !! a = Some d -> desc_type d = ARENA_CHUNK ->
  exists st',
    Free cfg (data cfg a) st = Some st' /\ wf_state cfg st'
    /\ sys_log st' = sys_log st /\ realloc_size_ st' = realloc_size_ st
    /\ total_used_ st' = wsub (total_used_ st) (desc_total_size d)
    /\ total_free_ st' = wadd (total_free_ st) (desc_total_size d)
    /\ (forall k t, arena_at (cache_ st') k t <-> k <> a /\ arena_at (cache_ st) k t)
    /\ (forall k dk, desc_type dk = HUGE_CHUNK ->
          (cache_ st' !! k = Some dk <-> cache_ st !! k = Some dk))
    /\ (exists e, e ∈ pool_ st' /\ get2 e <= a
                  /\ a + desc_total_size d <= get2 e + get1 e).
Proof.
  intros Hwf Hd Ht. pose proof (wf_st_heap _ _ Hwf) as Hheap.
  pose proof (chunk_extent _ _ _ _ _ (wf_chunks _ _ _ Hheap _ _ Hd)) as (Ha0 & Hta & Hae).
  unfold Free. rewrite metadata_data by (unfold in_size_t; lia).
  rewrite (wf_heap_load _ _ _ _ _ Hheap Hd). simpl. rewrite Ht.
  unfold mark_as_free. rewrite (wf_heap_load _ _ _ _ _ Hheap Hd). simpl.
  unfold store. rewrite lookup_insert_eq. simpl.
  pose proof (pending_mark _ _ _ _ Hwf Hd Ht) as Hp1.
  set (d1 := update_guards cfg (set_type FREE_CHUNK d)) in *.
  set (c1 := <[a := d1]> (cache_ st)) in *.
  assert (Hd1 : c1 !! a = Some d1) by apply lookup_insert_eq.
  destruct (merge_right_buddy_spec _ _ _ _ _ _ Hp1 Hd1 eq_refl)
    as (pool2 & c2 & d2 & -> & Hp2 & Hd2 & Hf2 & Hle2 & Hright2 & Harena2 & Hhuge2).
  simpl.
  destruct (merge_left_buddy_spec _ _ _ _ _ _ Hp2 Hd2 Hf2 Hright2)
    as (pool3 & c3 & x3 & d3 & -> & Hp3 & Hd3 & Hf3 & Hx3 & Hcover & Hright3 & Hleft3
        & Harena3 & Hhuge3).
  simpl. rewrite Hd3. simpl.
  eexists. split; [done|]. split.
  { by apply pending_finish. }
  simpl. do 4 (split; [done|]). split; [|split].
  - intros k t. rewrite Harena3, Harena2. unfold arena_at, c1.
    rewrite lookup_insert. case_decide.
    + split.
      * intros (d' & [= <-] & Hty & _). done.
      * intros [? _]. congruence.
    + split; [intros ?; split; [congruence|done]|by intros [_ ?]].
  - intros k dk Hh. rewrite (Hhuge3 _ _ Hh), (Hhuge2 _ _ Hh). unfold c1.
    rewrite lookup_insert. case_decide.
    + subst k. rewrite Hd. split; intros [= <-]; [done|congruence].
    + done.
  - exists (desc_key x3 d3). split; [apply pool_insert_elem; by left|].
    unfold desc_key, get1, get2. simpl. simpl in Hle2. lia.
Qed.

(** ** [Alloc] on a well-formed allocator *)

Lemma refill_regions_app log1 log2 :
  refill_regions (log1 ++ log2) = refill_regions log1 ++ refill_regions log2.
Proof. unfold refill_regions. apply omap_app. Qed.

Lemma wf_state_empty cfg : wf_state cfg empty_allocator.
Proof.
  constructor; simpl.
  - constructor; try done.
    + intros r Hr. by apply elem_of_nil in Hr.
    + intros r1 r2 Hr. by apply elem_of_nil in Hr.
    + constructor.
  - split; constructor.
  - intros e. split.
    + intros He. by apply elem_of_nil in He.
    + intros (d & Hd & _). done.
  - intros a d d' Hd. done.
Qed.

(** The counters and the memoised reallocation size play no role in
    well-formedness. *)
Lemma wf_state_counters cfg st st' :
  wf_state cfg st -> pool_ st' = pool_ st -> cache_ st' = cache_ st ->
  sys_log st' = sys_log st -> wf_state cfg st'.
Proof.
  intros [H1 H2 H3 H4] Hp Hc Hl. constructor; rewrite ?Hp, ?Hc, ?Hl; done.
Qed.

Lemma fresh_region_lookup cfg st p bytes :
  wf_state cfg st -> fresh_region st p bytes -> 0 < bytes ->
  cache_ st !! p = None.
Proof.
  intros Hwf (Hp & Hend & Hregs & Hhuge) Hbytes.
  destruct (cache_ st !! p) as [d|] eqn:Hd; [|done].
  pose proof (fresh_apart_chunks _ _ _ _ _ (wf_st_heap _ _ Hwf) Hregs Hhuge _ _ Hd) as Hap.
  pose proof (chunk_extent _ _ _ _ _ (wf_chunks _ _ _ (wf_st_heap _ _ Hwf) _ _ Hd)).
  unfold apart in Hap. lia.
Qed.

Lemma refill_bytes_ge cfg env request_bytes st :
  request_bytes <= max_chunk_size cfg ->
  request_bytes <= (refill_bytes cfg env request_bytes st).1.
Proof.
  intros Hle. unfold refill_bytes.
  destruct (use_gpu cfg); [|done].
  destruct (wadd (total_used_ st) (total_free_ st) =? 0); simpl; lia.
Qed.

(** A successful refill of a well-formed allocator. *)
Lemma RefillPool_wf cfg env request_bytes st :
  wf_state cfg st -> sys_ptr env <> 0 -> 0 <= sys_index env ->
  0 < (refill_bytes cfg env request_bytes st).1 ->
  fresh_region st (sys_ptr env) (refill_bytes cfg env request_bytes st).1 ->
  exists d st1,
    RefillPool cfg env request_bytes st = (Some (desc_key (sys_ptr env) d), st1)
    /\ wf_state cfg st1
    /\ cache_ st1 !! sys_ptr env = Some d /\ desc_type d = FREE_CHUNK
    /\ desc_total_size d = (refill_bytes cfg env request_bytes st).1
    /\ cache_ st !! sys_ptr env = None
    /\ (forall k, k <> sys_ptr env -> cache_ st1 !! k = cache_ st !! k).
Proof.
  intros Hwf Hp Hidx Hbytes Hfresh. pose proof (wf_st_heap _ _ Hwf) as Hheap.
  pose proof (fresh_region_lookup _ _ _ _ Hwf Hfresh Hbytes) as Hnone.
  destruct Hfresh as (Hp0 & Hend & Hregs & Hhuge).
  unfold RefillPool. destruct (refill_bytes cfg env request_bytes st) as [bytes realloc].
  simpl in *. destruct (Z.eqb_spec (sys_ptr env) 0) as [|_]; [done|].
  exists (update_guards cfg
            (mkDesc FREE_CHUNK (sys_index env) (payload_size cfg bytes) bytes 0 0 0 0)).
  eexists. split; [reflexivity|]. simpl.
  assert (H0 : cache_ st !! 0 = None) by by eapply wf_heap_null.
  split; [|split; [apply lookup_insert_eq|]].
  - constructor; simpl.
    + rewrite refill_regions_app. simpl. by apply wf_heap_refill.
    + apply pool_sorted_insert; [apply Hwf|].
      unfold isa_in_range, desc_key, get0, get1, get2. simpl. lia.
    + intros e. rewrite pool_insert_elem, (wf_st_pool _ _ Hwf e).
      unfold init, store. rewrite lookup_insert. case_decide as Hk.
      * split.
        -- intros [->|(d' & Hd' & _)]; [|congruence].
           eexists. split; [done|]. done.
        -- intros (d' & [= <-] & _ & He). left. rewrite He, <- Hk. done.
      * split.
        -- intros [->|?]; [|done]. exfalso. apply Hk. done.
        -- intros ?. by right.
    + intros a d d' Ha Hf Ha'. unfold init, store in Ha, Ha'.
      rewrite lookup_insert in Ha. case_decide; simplify_eq/=.
      * rewrite lookup_insert_ne in Ha' by lia. congruence.
      * rewrite lookup_insert in Ha'. case_decide; simplify_eq/=.
        -- destruct (wf_heap_next _ _ _ _ _ Hheap Ha ltac:(congruence))
             as (_ & dx & Hdx & _).
           congruence.
        -- exact (wf_st_coalesced _ _ Hwf _ _ _ Ha Hf Ha').
  - simpl. do 3 (split; [done|]). intros k Hk. unfold init, store.
    by rewrite lookup_insert_ne.
Qed.

Lemma is_arena_refilled (cache cache1 : gmap Z Desc) p d1 :
  cache !! p = None -> cache1 !! p = Some d1 -> desc_type d1 = FREE_CHUNK ->
  (forall k, k <> p -> cache1 !! k = cache !! k) ->
  forall k, is_arena cache1 k <-> is_arena cache k.
Proof.
  intros Hnone Hd1 Hf Hsame k. unfold is_arena.
  destruct (decide (k = p)) as [->|Hk].
  - rewrite Hnone, Hd1. split.
    + intros (d & [= <-] & ?). congruence.
    + intros (d & ? & _). done.
  - by rewrite Hsame.
Qed.

(** An allocation served from the pool, after a refill if the pool has no
    fitting chunk. *)
Lemma Alloc_pool_wf cfg env unaligned_size st :
  valid_config cfg = true -> wf_state cfg st ->
  0 < computed_size cfg unaligned_size <= max_chunk_size cfg ->
  env_ok cfg env unaligned_size st ->
  exists p st',
    Alloc cfg env unaligned_size st = Some (p, st') /\ wf_state cfg st'
    /\ ((p = 0 /\ pool_ st' = pool_ st /\ cache_ st' = cache_ st
         /\ sys_log st' = sys_log st)
        \/ (exists b, p = data cfg b /\ in_size_t b /\ ~ is_arena (cache_ st) b
                      /\ forall k, is_arena (cache_ st') k
                                   <-> k = b \/ is_arena (cache_ st) k))
    /\ (no_huge (cache_ st) -> no_huge (cache_ st')).
Proof.
  intros Hcfg Hwf Hsize Henv.
  apply valid_config_spec in Hcfg as (_ & _ & _ & _ & Hthr).
  unfold Alloc. set (size := computed_size cfg unaligned_size) in *.
  destruct (Z.gtb_spec size (max_chunk_size cfg)) as [|_]; [lia|].
  destruct (FindExistChunk_best_fit (pool_ st) size (wf_st_sorted _ _ Hwf))
    as (r & -> & Hbest).
  simpl. destruct r as [e|].
  - (* a chunk of the pool fits *)
    destruct Hbest as (He & Hfit & _).
    destruct (wf_state_pool_lookup _ _ _ Hwf He) as (d & Hd & Hf & Hkey).
    assert (Htot : desc_total_size d = get1 e) by (rewrite Hkey; done).
    rewrite Hkey. rewrite (SplitToAlloc_eval _ _ _ _ _ Hthr Hwf Hd Hf) by lia.
    simpl.
    destruct (served_wf cfg st (get2 e) d size
                (wadd (total_used_ st) size) (wsub (total_free_ st) size)
                (realloc_size_ st) Hthr Hwf Hd Hf ltac:(lia))
      as (Hwf' & Harena & Hhuge).
    eexists _, _. split; [done|]. split; [done|]. simpl. split.
    + right. exists (get2 e). split; [done|].
      pose proof (chunk_extent _ _ _ _ _ (wf_chunks _ _ _ (wf_st_heap _ _ Hwf) _ _ Hd)).
      split; [unfold in_size_t; lia|]. split; [|done].
      intros (d' & Hd' & Ht'). congruence.
    + intros Hno k dk Hk Hh. eapply Hno; [|exact Hh]. by eapply Hhuge.
  - (* the pool is refilled *)
    destruct (decide (sys_ptr env = 0)) as [Hnull|Hptr].
    { rewrite RefillPool_null by done. eexists _, _. split; [done|].
      split; [by eapply wf_state_counters|]. simpl. split; [by left|done]. }
    destruct (Henv Hptr) as (Hidx & Hfresh).
    unfold requested_bytes in Hfresh. fold size in Hfresh.
    destruct (Z.gtb_spec size (max_chunk_size cfg)) as [|_]; [lia|].
    pose proof (refill_bytes_ge cfg env size st ltac:(lia)) as Hge.
    destruct (RefillPool_wf cfg env size st Hwf Hptr Hidx ltac:(lia) Hfresh)
      as (d1 & st1 & -> & Hwf1 & Hd1 & Hf1 & Htot1 & Hnone & Hsame).
    rewrite (SplitToAlloc_eval _ _ _ _ _ Hthr Hwf1 Hd1 Hf1) by lia. simpl.
    destruct (served_wf cfg st1 (sys_ptr env) d1 size
                (wadd (total_used_ st1) size) (wsub (total_free_ st1) size)
                (realloc_size_ st1) Hthr Hwf1 Hd1 Hf1 ltac:(lia))
      as (Hwf' & Harena & Hhuge).
    eexists _, _. split; [done|]. split; [done|]. simpl. split.
    + right. exists (sys_ptr env). split; [done|].
      pose proof (chunk_extent _ _ _ _ _ (wf_chunks _ _ _ (wf_st_heap _ _ Hwf1) _ _ Hd1)).
      split; [unfold in_size_t; lia|]. split.
      * intros (d' & Hd' & _). congruence.
      * intros k. rewrite Harena.
        by rewrite (is_arena_refilled _ _ _ _ Hnone Hd1 Hf1 Hsame k).
    + intros Hno k dk Hk Hh. pose proof (Hhuge _ _ Hk Hh) as Hk1.
      destruct (decide (k = sys_ptr env)) as [->|Hkp]; [congruence|].
      rewrite Hsame in Hk1 by done. by eapply Hno.
Qed.

(** ** Allocations followed by frees *)

Lemma is_arena_in_size_t cfg st b :
  wf_state cfg st -> is_arena (cache_ st) b -> in_size_t b.
Proof.
  intros Hwf (d & Hd & _).
  pose proof (chunk_extent _ _ _ _ _ (wf_chunks _ _ _ (wf_st_heap _ _ Hwf) _ _ Hd)).
  unfold in_size_t. lia.
Qed.

Lemma data_inj cfg b1 b2 :
  in_size_t b1 -> in_size_t b2 -> data cfg b1 = data cfg b2 -> b1 = b2.
Proof.
  intros H1 H2 Heq. rewrite <- (metadata_data cfg b1), <- (metadata_data cfg b2) by done.
  by rewrite Heq.
Qed.

Lemma is_arena_arena_at cache k :
  is_arena cache k <-> exists t, arena_at cache k t.
Proof.
  unfold is_arena, arena_at. split.
  - intros (d & ? & ?). by exists (desc_total_size d), d.
  - intros (t & d & ? & ? & ?). by exists d.
Qed.

Lemma outstanding_Permutation cfg cache ps ps' :
  ps' ≡ₚ ps -> outstanding cfg cache ps -> outstanding cfg cache ps'.
Proof.
  intros Hperm [Hnd Hin]. split; [by rewrite Hperm|].
  intros p. rewrite <- Hin. by rewrite Hperm.
Qed.

(** After a run of allocations from a well-formed allocator without HUGE
    chunks, the returned pointers are exactly the outstanding ones. *)
Lemma alloc_run_outstanding cfg st0 sizes ps st :
  valid_config cfg = true ->
  alloc_run cfg st0 sizes ps st ->
  Forall (fun n => 0 < computed_size cfg n) sizes ->
  forall ps0, wf_state cfg st0 -> no_huge (cache_ st0) ->
    outstanding cfg (cache_ st0) ps0 ->
    wf_state cfg st /\ no_huge (cache_ st)
    /\ outstanding cfg (cache_ st) (reverse ps ++ ps0).
Proof.
  intros Hcfg Hrun. induction Hrun as [st|st env n p st1 sizes ps st2 Hn Hmax Henv Halloc Hp Hrun IH];
    intros Hpos ps0 Hwf Hno Hout.
  { by rewrite reverse_nil. }
  apply Forall_cons in Hpos as [Hpos1 Hpos].
  destruct (Alloc_pool_wf cfg env n st Hcfg Hwf ltac:(lia) Henv)
    as (p' & st1' & Halloc' & Hwf1 & Hcase & Hno1).
  rewrite Halloc in Halloc'. injection Halloc' as <- <-.
  destruct Hcase as [(? & _)|(b & Hpb & Hb & Hnew & Harena)]; [done|]. subst p.
  rewrite reverse_cons, <- app_assoc. simpl.
  apply (IH Hpos (data cfg b :: ps0) Hwf1 (Hno1 Hno)).
  destruct Hout as [Hnd Hin]. split.
  - constructor; [|done]. intros Hmem. apply Hin in Hmem as (b' & Heq & Hb').
    apply data_inj in Heq; [|done|exact (is_arena_in_size_t _ _ _ Hwf Hb')].
    by subst b'.
  - intros q. rewrite elem_of_cons, Hin. split.
    + intros [->|(b' & -> & Hb')].
      * exists b. split; [done|]. apply Harena. by left.
      * exists b'. split; [done|]. apply Harena. by right.
    + intros (b' & -> & Hb'). apply Harena in Hb' as [->|Hb']; [by left|].
      right. by exists b'.
Qed.

(** Freeing all the outstanding pointers, in the order of the list. *)
Lemma run_frees_outstanding cfg ps :
  forall st, wf_state cfg st -> no_huge (cache_ st) ->
    outstanding cfg (cache_ st) ps ->
    exists st', run_frees cfg ps st = Some st' /\ wf_state cfg st'
                /\ no_huge (cache_ st') /\ (forall k, ~ is_arena (cache_ st') k)
                /\ sys_log st' = sys_log st.
Proof.
  induction ps as [|p ps IH]; intros st Hwf Hno [Hnd Hin].
  { exists st. split; [done|]. split; [done|]. split; [done|]. split; [|done].
    intros k Hk. assert (Hmem : data cfg k ∈ @nil Z) by (apply Hin; by exists k).
    by apply elem_of_nil in Hmem. }
  apply NoDup_cons in Hnd as [Hnotin Hnd].
  destruct (proj1 (Hin p) ltac:(by left)) as (b & -> & (d & Hd & Ht)).
  destruct (Free_arena cfg st b d Hwf Hd Ht)
    as (st1 & Hfree & Hwf1 & Hlog & _ & _ & _ & Harena & Hhuge & _).
  destruct (IH st1 Hwf1) as (st' & Hrun & Hwf' & Hno' & Hnone & Hlog').
  - intros k dk Hk Hh. apply (Hhuge _ _ Hh) in Hk. by eapply Hno.
  - split; [done|]. intros q. split.
    + intros Hq. destruct (proj1 (Hin q) ltac:(by right)) as (b' & -> & Hb').
      exists b'. split; [done|]. apply is_arena_arena_at.
      apply is_arena_arena_at in Hb' as (t & Hb'). exists t. apply Harena.
      split; [|done]. intros ->. done.
    + intros (b' & -> & Hb'). apply is_arena_arena_at in Hb' as (t & Hb').
      apply Harena in Hb' as (Hne & Hb').
      assert (Harena' : is_arena (cache_ st) b') by (apply is_arena_arena_at; eauto).
      assert (Hmem : data cfg b' ∈ data cfg b :: ps) by (apply Hin; eauto).
      apply elem_of_cons in Hmem as [Heq|?]; [|done].
      exfalso. apply Hne.
      apply (data_inj cfg); [exact (is_arena_in_size_t _ _ _ Hwf Harena')| |done].
      apply (is_arena_in_size_t _ _ _ Hwf). by exists d.
  - exists st'. simpl. rewrite Hfree. simpl. split; [done|].
    do 3 (split; [done|]). congruence.
Qed.

(** When nothing is handed out, the pool holds one chunk per refilled
    region, the whole region. *)
Lemma quiescent_pool cfg st :
  wf_state cfg st -> (forall k, ~ is_arena (cache_ st) k) ->
  no_huge (cache_ st) ->
  forall e, e ∈ pool_ st <-> e ∈ refill_regions (sys_log st).
Proof.
  intros Hwf Hnone Hno. pose proof (wf_st_heap _ _ Hwf) as Hheap.
  assert (Hfree : forall k d, cache_ st !! k = Some d -> desc_type d = FREE_CHUNK).
  { intros k d Hd. destruct (desc_type d) eqn:Ht; [done| |].
    - destruct (Hnone k). by exists d.
    - by destruct (Hno _ _ Hd). }
  assert (Hwhole : forall k d, cache_ st !! k = Some d ->
            exists r, r ∈ refill_regions (sys_log st) /\ desc_key k d = r).
  { intros k d Hd. pose proof (wf_chunks _ _ _ Hheap _ _ Hd) as Hok.
    destruct (chunk_region _ _ _ _ _ Hok (Hno _ _ Hd))
      as (r & Hr & Hidx & Hlo & Hhi & Hp & Hn).
    assert (Hn0 : desc_next d = 0).
    { destruct (decide (desc_next d = 0)) as [|Hne]; [done|].
      destruct (wf_heap_next _ _ _ _ _ Hheap Hd Hne) as (_ & dn & Hdn & _).
      destruct (wf_st_coalesced _ _ Hwf _ _ _ Hd (Hfree _ _ Hd) Hdn).
      by eapply Hfree. }
    assert (Hp0 : desc_prev d = 0).
    { destruct (decide (desc_prev d = 0)) as [|Hne]; [done|].
      destruct (wf_heap_prev _ _ _ _ _ Hheap Hd Hne) as (dl & Hdl & Hnl & _).
      rewrite <- Hnl in Hd.
      destruct (wf_st_coalesced _ _ Hwf _ _ _ Hdl (Hfree _ _ Hdl) Hd).
      by eapply Hfree. }
    apply Hp in Hp0. apply Hn in Hn0.
    exists r. split; [done|]. apply isa_eq_components.
    - done.
    - unfold region_end in *. unfold desc_key, get1, get2 in *. simpl. lia.
    - unfold desc_key, get2 in *. simpl. lia. }
  intros e. split.
  - intros He. destruct (wf_state_pool_lookup _ _ _ Hwf He) as (d & Hd & _ & Hkey).
    destruct (Hwhole _ _ Hd) as (r & Hr & Heq). congruence.
  - intros Hr. destruct (wf_region_base _ _ _ Hheap e Hr) as (Hpos & d & Hd & _).
    destruct (Hwhole _ _ Hd) as (r & Hr' & Heq).
    assert (r = e) as ->.
    { eapply (wf_heap_region_unique _ _ _ _ _ (get2 e)); eauto.
      - rewrite <- Heq. unfold region_end, desc_key, get1, get2. simpl.
        pose proof (chunk_extent _ _ _ _ _ (wf_chunks _ _ _ Hheap _ _ Hd)). lia.
      - unfold region_end. lia. }
    apply (wf_st_pool _ _ Hwf). exists d. split; [done|].
    split; [by eapply Hfree|]. done.
Qed.

Lemma foldl_pool_insert regions :
  forall pool, StronglySorted isa_lt pool ->
    StronglySorted isa_lt (foldl (fun pool r => pool_insert r pool) pool regions)
    /\ forall e, e ∈ foldl (fun pool r => pool_insert r pool) pool regions
                 <-> e ∈ pool \/ e ∈ regions.
Proof.
  induction regions as [|r regions IH]; intros pool Hs; simpl.
  - split; [done|]. intros e. rewrite elem_of_nil. tauto.
  - destruct (IH (pool_insert r pool) (pool_insert_sorted _ _ Hs)) as (Hs' & Hin).
    split; [done|]. intros e. rewrite Hin, pool_insert_elem, elem_of_cons. tauto.
Qed.

Lemma quiescent_pool_eq cfg st :
  wf_state cfg st -> (forall k, ~ is_arena (cache_ st) k) ->
  no_huge (cache_ st) -> pool_ st = refills_only_pool (sys_log st).
Proof.
  intros Hwf Hnone Hno. unfold refills_only_pool.
  destruct (foldl_pool_insert (refill_regions (sys_log st)) [])
    as (Hs & Hin); [constructor|].
  apply pool_sorted_ext; [apply (wf_st_sorted _ _ Hwf)|done|].
  intros e. rewrite Hin, elem_of_nil, (quiescent_pool _ _ Hwf Hnone Hno). tauto.
Qed.

Lemma outstanding_empty cfg : outstanding cfg (cache_ empty_allocator) [].
Proof.
  split; [constructor|]. intros p. rewrite elem_of_nil. split; [done|].
  intros (b & _ & d & Hd & _). done.
Qed.

(** C3, as stated, fails: [Alloc(SIZE_MAX - 31)] wraps around to the
    computed size 0, which is at most [max_chunk_size]; the call refills,
    succeeds and returns a pointer.  The refilled chunk is cut at offset 0:
    the served chunk has [total_size = 0] and is its own right neighbour,
    the pool is empty, and [Free] of the pointer merges the chunk with
    itself instead of bringing the 4096 bytes of the region back into the
    pool. *)
Lemma roundtrip_zero_size_counterexample :
  computed_size scenario_config (2 ^ 64 - 32) = 0
  /\ alloc_run scenario_config empty_allocator [2 ^ 64 - 32] [65568]
       scenario_wrapped_state
  /\ refills_only_pool (sys_log scenario_wrapped_state) = [(0, 4096, 65536)]
  /\ pool_ scenario_wrapped_state = []
  /\ ~ roundtrip_law scenario_config [65568] scenario_wrapped_state.
Proof.
  split; [reflexivity|]. split; [|split; [reflexivity|split; [reflexivity|]]].
  - apply (alloc_run_cons scenario_config empty_allocator (scenario_env 65536 0)
             (2 ^ 64 - 32) 65568 scenario_wrapped_state [] [] scenario_wrapped_state).
    + unfold in_size_t, size_t_modulus. lia.
    + vm_compute. discriminate.
    + intros _. split; [done|]. split; [done|]. split; [vm_compute; discriminate|].
      split.
      * intros r Hr. by apply elem_of_nil in Hr.
      * intros a d Hd. done.
    + vm_compute. reflexivity.
    + done.
    + constructor.
  - intros Hlaw. destruct (Hlaw [65568] ltac:(done)) as (st' & Hrun & _).
    vm_compute in Hrun. discriminate Hrun.
Qed.

(** C3 (amended): for any sequence of [Alloc] calls whose computed sizes
    are all non-zero and at most [max_chunk_size] and that all succeed on a
    fresh allocator, if every returned pointer is then passed to [Free] in
    any order, no call aborts and the resulting pool, as a multiset of
    [(index, total_size)] pairs, is the pool of the refills alone. *)
Theorem roundtrip cfg sizes ps st :
  valid_config cfg = true ->
  Forall (fun n => 0 < computed_size cfg n) sizes ->
  alloc_run cfg empty_allocator sizes ps st ->
  roundtrip_law cfg ps st.
Proof.
  intros Hcfg Hpos Hrun ps' Hperm.
  destruct (alloc_run_outstanding cfg _ _ _ _ Hcfg Hrun Hpos [] (wf_state_empty cfg))
    as (Hwf & Hno & Hout).
  { intros k d Hd. done. }
  { apply outstanding_empty. }
  rewrite app_nil_r in Hout.
  assert (Hout' : outstanding cfg (cache_ st) ps').
  { eapply outstanding_Permutation; [|exact Hout]. by rewrite Hperm, reverse_Permutation. }
  destruct (run_frees_outstanding cfg ps' st Hwf Hno Hout')
    as (st' & Hfrees & Hwf' & Hno' & Hnone & Hlog).
  exists st'. split; [done|].
  by rewrite (quiescent_pool_eq _ _ Hwf' Hnone Hno').
Qed.

Lemma roundtrip_witness :
  roundtrip_law scenario_config [65568; 65824] scenario_state2.
Proof.
  apply (roundtrip scenario_config [100; 100] [65568; 65824] scenario_state2).
  - reflexivity.
  - repeat constructor.
  - apply (alloc_run_cons scenario_config empty_allocator (scenario_env 65536 0)
             100 65568 scenario_state1 [100] [65824] scenario_state2).
    + unfold in_size_t, size_t_modulus. lia.
    + vm_compute. discriminate.
    + intros _. split; [done|]. split; [done|]. split; [vm_compute; discriminate|].
      split.
      * intros r Hr. by apply elem_of_nil in Hr.
      * intros a d Hd. done.
    + vm_compute. reflexivity.
    + done.
    + apply (alloc_run_cons scenario_config scenario_state1 (scenario_env 0 0)
               100 65824 scenario_state2 [] [] scenario_state2).
      * unfold in_size_t, size_t_modulus. lia.
      * vm_compute. discriminate.
      * intros Hp. done.
      * vm_compute. reflexivity.
      * done.
      * constructor.
Defined.

(** ** The heap is determined by the chunks that are handed out *)

Lemma same_served_sym cache1 cache2 :
  same_served cache1 cache2 -> same_served cache2 cache1.
Proof.
  intros [Ha Hh]. split.
  - intros k t. by rewrite Ha.
  - intros k dk Hk. by rewrite (Hh _ _ Hk).
Qed.

Lemma chunk_type_cases (d : Desc) :
  desc_type d = FREE_CHUNK \/ desc_type d = ARENA_CHUNK \/ desc_type d = HUGE_CHUNK.
Proof. destruct (desc_type d); tauto. Qed.

(** A FREE chunk of one heap is not longer than the chunk at the same
    address in the other heap. *)
Lemma free_extent_le cfg regions cache1 cache2 k d1 d2 :
  wf_heap cfg cache1 regions -> wf_heap cfg cache2 regions ->
  coalesced cache1 -> same_served cache1 cache2 ->
  cache1 !! k = Some d1 -> cache2 !! k = Some d2 ->
  desc_type d1 = FREE_CHUNK -> desc_type d2 <> HUGE_CHUNK ->
  desc_total_size d2 <= desc_total_size d1.
Proof.
  intros Hwf1 Hwf2 Hco1 [Harena _] Hd1 Hd2 Hf1 Hnh2.
  destruct (Z_le_gt_dec (desc_total_size d2) (desc_total_size d1)) as [|Hgt]; [done|].
  exfalso.
  pose proof (wf_chunks _ _ _ Hwf1 _ _ Hd1) as Hok1.
  pose proof (wf_chunks _ _ _ Hwf2 _ _ Hd2) as Hok2.
  pose proof (chunk_extent _ _ _ _ _ Hok1) as (Hk0 & Ht1 & _).
  destruct (chunk_region _ _ _ _ _ Hok2 Hnh2) as (r & Hr & _ & Hlo & Hhi & _ & _).
  destruct (chunk_region_at _ _ _ _ _ r Hwf1 Hd1 ltac:(by rewrite Hf1) Hr)
    as (_ & _ & _ & Hn1).
  { unfold region_end in *. lia. }
  assert (Hn : desc_next d1 <> 0) by (rewrite Hn1; lia).
  destruct (wf_heap_next _ _ _ _ _ Hwf1 Hd1 Hn) as (Heq & dn & Hdn & _ & Hnhn & _).
  pose proof (Hco1 _ _ _ Hd1 Hf1 Hdn) as Hnf.
  assert (Han : arena_at cache1 (desc_next d1) (desc_total_size dn)).
  { exists dn. split; [done|]. split; [|done].
    destruct (chunk_type_cases dn) as [?|[?|?]]; done. }
  apply Harena in Han as (dn2 & Hdn2 & _).
  rewrite (wf_heap_fresh_inside _ _ _ _ _ (desc_next d1) Hwf2 Hd2) in Hdn2; [done|lia].
Qed.

(** Every pooled or served chunk of one heap is a chunk of the other, of
    the same type and size. *)
Lemma same_served_chunk cfg regions cache1 cache2 :
  wf_heap cfg cache1 regions -> wf_heap cfg cache2 regions ->
  coalesced cache1 -> coalesced cache2 -> same_served cache1 cache2 ->
  forall n k d1, (Z.to_nat k < n)%nat ->
    cache1 !! k = Some d1 -> desc_type d1 <> HUGE_CHUNK ->
    exists d2, cache2 !! k = Some d2 /\ desc_type d2 = desc_type d1
               /\ desc_total_size d2 = desc_total_size d1.
Proof.
  intros Hwf1 Hwf2 Hco1 Hco2 Hsame.
  induction n as [|n IH]; intros k d1 Hlt Hd1 Hnh1; [lia|].
  pose proof (wf_chunks _ _ _ Hwf1 _ _ Hd1) as Hok1.
  pose proof (chunk_extent _ _ _ _ _ Hok1) as (Hk0 & Ht1 & _).
  destruct (chunk_region _ _ _ _ _ Hok1 Hnh1) as (r & Hr & _ & Hlo & Hhi & Hp1 & _).
  assert (Hex : exists d2, cache2 !! k = Some d2 /\ desc_type d2 <> HUGE_CHUNK).
  { destruct (decide (desc_prev d1 = 0)) as [Hp0|Hp0].
    - apply Hp1 in Hp0 as ->. by destruct (wf_region_base _ _ _ Hwf2 r Hr).
    - destruct (wf_heap_prev _ _ _ _ _ Hwf1 Hd1 Hp0) as (dl & Hdl & Hnl & Hel & Hnhl & Htl).
      destruct (IH (desc_prev d1) dl ltac:(lia) Hdl Hnhl) as (dl2 & Hdl2 & Htyl & Htotl).
      assert (Hin : get2 r <= desc_prev d1 < region_end r).
      { destruct (chunk_region _ _ _ _ _ (wf_chunks _ _ _ Hwf1 _ _ Hdl) Hnhl)
          as (rl & Hrl & _ & Hlol & Hhil & _ & Hnrl).
        assert (rl = r) as ->; [|unfold region_end in *; lia].
        eapply (wf_heap_region_unique _ _ _ _ _ k); eauto; unfold region_end in *.
        - assert (desc_prev d1 + desc_total_size dl <> get2 rl + get1 rl); [|lia].
          intros E. apply Hnrl in E. lia.
        - lia. }
      destruct (chunk_region_at _ _ _ _ _ r Hwf1 Hdl Hnhl Hr Hin) as (_ & _ & _ & Hnl1).
      destruct (chunk_region_at _ _ _ _ _ r Hwf2 Hdl2 ltac:(by rewrite Htyl) Hr Hin)
        as (_ & _ & _ & Hnl2).
      assert (Hn2 : desc_next dl2 <> 0).
      { rewrite Hnl2, Htotl. rewrite <- Hnl1. lia. }
      destruct (wf_heap_next _ _ _ _ _ Hwf2 Hdl2 Hn2) as (Heq2 & d2 & Hd2 & _ & Hnh2 & _).
      exists d2. split; [|done]. rewrite <- Hd2. f_equal. lia. }
  destruct Hex as (d2 & Hd2 & Hnh2). exists d2. split; [done|].
  destruct Hsame as [Harena Hhuge].
  destruct (chunk_type_cases d1) as [Hf1|[Ha1|?]]; [| |done].
  - assert (Hf2 : desc_type d2 = FREE_CHUNK).
    { destruct (chunk_type_cases d2) as [?|[Ha2|?]]; [done| |done].
      assert (Ha : arena_at cache2 k (desc_total_size d2)) by by exists d2.
      apply Harena in Ha as (d1' & Hd1' & Ha1' & _). congruence. }
    split; [congruence|].
    pose proof (free_extent_le _ _ _ _ _ _ _ Hwf1 Hwf2 Hco1 (conj Harena Hhuge)
                  Hd1 Hd2 Hf1 Hnh2).
    pose proof (free_extent_le _ _ _ _ _ _ _ Hwf2 Hwf1 Hco2
                  (same_served_sym _ _ (conj Harena Hhuge)) Hd2 Hd1 Hf2 Hnh1).
    lia.
  - assert (Ha : arena_at cache1 k (desc_total_size d1)) by by exists d1.
    apply Harena in Ha as (d2' & Hd2' & Ha2' & Ht2'). split; congruence.
Qed.

Lemma desc_eq_fields cfg d1 d2 :
  check_guards cfg d1 = true -> check_guards cfg d2 = true ->
  desc_type d1 = desc_type d2 -> desc_index d1 = desc_index d2 ->
  desc_size d1 = desc_size d2 -> desc_total_size d1 = desc_total_size d2 ->
  desc_prev d1 = desc_prev d2 -> desc_next d1 = desc_next d2 -> d1 = d2.
Proof.
  destruct d1, d2. unfold check_guards, guard_of. simpl.
  intros Hg1 Hg2 -> -> -> -> -> ->. f_equal; lia.
Qed.

(** Two well-formed, coalesced heaps over the same regions that hand out
    the same chunks and hold the same HUGE chunks are the same heap. *)
Lemma same_served_eq cfg regions cache1 cache2 :
  wf_heap cfg cache1 regions -> wf_heap cfg cache2 regions ->
  coalesced cache1 -> coalesced cache2 -> same_served cache1 cache2 ->
  cache1 = cache2.
Proof.
  intros Hwf1 Hwf2 Hco1 Hco2 Hsame.
  assert (Hsim12 := fun k d1 => same_served_chunk _ _ _ _ Hwf1 Hwf2 Hco1 Hco2 Hsame
                                  (S (Z.to_nat k)) k d1 ltac:(lia)).
  assert (Hsim21 := fun k d2 => same_served_chunk _ _ _ _ Hwf2 Hwf1 Hco2 Hco1
                                  (same_served_sym _ _ Hsame)
                                  (S (Z.to_nat k)) k d2 ltac:(lia)).
  assert (Heq : forall k d1 d2, cache1 !! k = Some d1 -> cache2 !! k = Some d2 ->
            desc_type d1 <> HUGE_CHUNK -> d1 = d2).
  { intros k d1 d2 Hd1 Hd2 Hnh1.
    destruct (Hsim12 _ _ Hd1 Hnh1) as (d2' & Hd2' & Hty & Htot).
    assert (d2' = d2) as -> by congruence. clear Hd2'.
    pose proof (wf_chunks _ _ _ Hwf1 _ _ Hd1) as Hok1.
    pose proof (wf_chunks _ _ _ Hwf2 _ _ Hd2) as Hok2.
    pose proof (chunk_extent _ _ _ _ _ Hok1) as (Hk0 & Ht1 & _).
    destruct (chunk_region _ _ _ _ _ Hok1 Hnh1) as (r & Hr & Hi1 & Hlo & Hhi & Hp1 & Hn1).
    destruct (chunk_region_at _ _ _ _ _ r Hwf2 Hd2 ltac:(by rewrite Hty) Hr)
      as (Hi2 & _ & Hp2 & Hn2).
    { unfold region_end in *. lia. }
    apply (desc_eq_fields cfg); try apply Hok1; try apply Hok2; try congruence.
    - destruct (chunk_fields _ _ _ _ _ Hok1) as (_ & ->).
      destruct (chunk_fields _ _ _ _ _ Hok2) as (_ & ->). by rewrite Htot.
    - destruct (decide (desc_prev d1 = 0)) as [Hz1|Hz1].
      { rewrite Hz1. symmetry. apply Hp2. by apply Hp1. }
      assert (Hz2 : desc_prev d2 <> 0).
      { intros E. apply Hp2 in E. apply Hp1 in E. done. }
      destruct (wf_heap_prev _ _ _ _ _ Hwf1 Hd1 Hz1) as (dl1 & Hdl1 & _ & He1 & Hnhl1 & Htl1).
      destruct (wf_heap_prev _ _ _ _ _ Hwf2 Hd2 Hz2) as (dl2 & Hdl2 & _ & He2 & _ & Htl2).
      destruct (Hsim12 _ _ Hdl1 Hnhl1) as (dl1' & Hdl1' & _ & Htot1').
      destruct (decide (desc_prev d1 = desc_prev d2)) as [|Hne]; [done|].
      pose proof (wf_disjoint _ _ _ Hwf2 _ _ _ _ Hdl1' Hdl2 Hne) as Hap.
      unfold apart in Hap. lia.
    - destruct (decide (desc_next d1 = 0)) as [Hz1|Hz1].
      { rewrite Hz1. symmetry. apply Hn2. rewrite Htot. by apply Hn1. }
      assert (Hz2 : desc_next d2 <> 0).
      { intros E. apply Hn2 in E. rewrite Htot in E. apply Hn1 in E. done. }
      destruct (wf_heap_next _ _ _ _ _ Hwf1 Hd1 Hz1) as (-> & _).
      destruct (wf_heap_next _ _ _ _ _ Hwf2 Hd2 Hz2) as (-> & _). by rewrite Htot. }
  apply map_eq. intros k.
  destruct (cache1 !! k) as [d1|] eqn:Hd1, (cache2 !! k) as [d2|] eqn:Hd2.
  - destruct (decide (desc_type d1 = HUGE_CHUNK)) as [Hh|Hnh].
    + apply (proj2 Hsame _ _ Hh) in Hd1. congruence.
    + f_equal. by eapply Heq.
  - destruct (decide (desc_type d1 = HUGE_CHUNK)) as [Hh|Hnh].
    + apply (proj2 Hsame _ _ Hh) in Hd1. congruence.
    + destruct (Hsim12 _ _ Hd1 Hnh) as (? & ? & _). congruence.
  - destruct (decide (desc_type d2 = HUGE_CHUNK)) as [Hh|Hnh].
    + apply (proj2 Hsame _ _ Hh) in Hd2. congruence.
    + destruct (Hsim21 _ _ Hd2 Hnh) as (? & ? & _). congruence.
  - done.
Qed.

(** ** Proper use keeps the allocator well formed *)

Lemma Alloc_huge_wf cfg env unaligned_size st :
  valid_config cfg = true -> wf_state cfg st ->
  max_chunk_size cfg < computed_size cfg unaligned_size ->
  env_ok cfg env unaligned_size st ->
  wf_state cfg (SystemAlloc cfg env (computed_size cfg unaligned_size) st).2.
Proof.
  intros Hcfg Hwf Hhuge Henv.
  apply valid_config_spec in Hcfg as (_ & Hmax & _).
  unfold SystemAlloc. destruct (Z.eqb_spec (sys_ptr env) 0) as [|Hp]; [done|].
  destruct (Henv Hp) as (Hidx & Hfresh). unfold requested_bytes in Hfresh.
  destruct (Z.gtb_spec (computed_size cfg unaligned_size) (max_chunk_size cfg));
    [|lia].
  set (size := computed_size cfg unaligned_size) in *.
  set (p := sys_ptr env) in *.
  assert (Hsize : 0 < size) by (unfold in_size_t in Hmax; lia).
  pose proof (fresh_region_lookup _ _ _ _ Hwf Hfresh Hsize) as Hnone.
  destruct Hfresh as (Hp0 & Hend & Hregs & Hhuges).
  constructor; simpl.
  - rewrite refill_regions_app. simpl. rewrite app_nil_r.
    by apply wf_heap_huge_alloc; [apply Hwf|..].
  - apply Hwf.
  - intros e. rewrite (wf_st_pool _ _ Hwf e). unfold init, store.
    split; intros (d & Hd & Ht & He).
    + exists d. rewrite lookup_insert_ne; [done|]. intros Heq. congruence.
    + rewrite lookup_insert in Hd. case_decide; simplify_eq.
      by exists d.
  - intros a d d' Hd Ht Hd'. unfold init, store in Hd, Hd'.
    rewrite lookup_insert in Hd. case_decide; simplify_eq.
    rewrite lookup_insert in Hd'. case_decide; simplify_eq; [done|].
    exact (wf_st_coalesced _ _ Hwf _ _ _ Hd Ht Hd').
Qed.

Lemma Free_huge_wf cfg st a d :
  wf_state cfg st -> cache_ st !! a = Some d -> desc_type d = HUGE_CHUNK ->
  exists st', Free cfg (data cfg a) st = Some st' /\ wf_state cfg st'.
Proof.
  intros Hwf Hd Ht. pose proof (wf_st_heap _ _ Hwf) as Hheap.
  pose proof (chunk_extent _ _ _ _ _ (wf_chunks _ _ _ Hheap _ _ Hd))
    as (Ha0 & Hta & Hae).
  assert (Hl : load_desc cfg (cache_ st) (metadata cfg (data cfg a)) = Some d).
  { rewrite metadata_data by (unfold in_size_t; lia).
    by eapply wf_heap_load. }
  eexists. split; [exact (Free_huge _ _ _ _ Hl Ht)|].
  rewrite metadata_data by (unfold in_size_t; lia).
  constructor; simpl.
  - rewrite refill_regions_app. simpl. rewrite app_nil_r.
    by eapply wf_heap_huge_free.
  - apply Hwf.
  - intros e. rewrite (wf_st_pool _ _ Hwf e). unfold invalidate.
    split; intros (d0 & Hd0 & Ht0 & He).
    + exists d0. rewrite lookup_delete_ne; [done|]. intros Heq. congruence.
    + rewrite lookup_delete in Hd0. case_decide; simplify_eq. by exists d0.
  - intros k dk dk' Hk Htk Hk'. unfold invalidate in Hk, Hk'.
    rewrite lookup_delete in Hk, Hk'. repeat case_decide; simplify_eq.
    exact (wf_st_coalesced _ _ Hwf _ _ _ Hk Htk Hk').
Qed.

(** A proper call never aborts and leaves a well-formed allocator. *)
Lemma good_call_wf cfg st c :
  valid_config cfg = true -> wf_state cfg st -> good_call cfg st c ->
  exists st', exec cfg c st = Some st' /\ wf_state cfg st'.
Proof.
  intros Hcfg Hwf Hgood. destruct c as [env unaligned_size|p]; simpl in *.
  - destruct Hgood as [Hpos Henv].
    destruct (Z_lt_le_dec (max_chunk_size cfg) (computed_size cfg unaligned_size))
      as [Hhuge|Hle].
    + rewrite (Alloc_huge _ env _ st Hhuge). simpl. eexists. split; [done|].
      by apply Alloc_huge_wf.
    + destruct (Alloc_pool_wf _ env _ _ Hcfg Hwf (conj Hpos Hle) Henv)
        as (p & st' & -> & Hwf' & _).
      by exists st'.
  - destruct Hgood as (b & d & -> & Hd & Ht).
    destruct (chunk_type_cases d) as [Hf|[Ha|Hh]]; [done| |].
    + destruct (Free_arena _ _ _ _ Hwf Hd Ha) as (st' & Hfree & Hwf' & _).
      by exists st'.
    + by eapply Free_huge_wf.
Qed.

Lemma well_used_wf cfg st :
  valid_config cfg = true -> well_used cfg st -> wf_state cfg st.
Proof.
  intros Hcfg Hrun. induction Hrun as [|st c st' _ IH Hgood Hexec].
  - apply wf_state_empty.
  - destruct (good_call_wf _ _ _ Hcfg IH Hgood) as (st1 & Hexec1 & Hwf1).
    congruence.
Qed.

(** The destructor of a well-formed allocator finds every descriptor. *)
Lemma wf_state_pool_addresses cfg st :
  wf_state cfg st ->
  NoDup (get2 <$> pool_ st)
  /\ forall e, e ∈ pool_ st -> is_Some (load_desc cfg (cache_ st) (get2 e)).
Proof.
  intros Hwf. split.
  - apply NoDup_fmap_2_strong; [|apply pool_sorted_NoDup, Hwf].
    intros e1 e2 He1 He2 Heq.
    apply (wf_st_pool _ _ Hwf) in He1 as (d1 & Hd1 & _ & Hk1).
    apply (wf_st_pool _ _ Hwf) in He2 as (d2 & Hd2 & _ & Hk2).
    rewrite Heq in Hd1. rewrite Hk1, Hk2, Heq. congruence.
  - intros e He. apply (wf_st_pool _ _ Hwf) in He as (d & Hd & _).
    exists d. by eapply wf_heap_load; [apply Hwf|].
Qed.

Lemma Destructor_well_used cfg st :
  valid_config cfg = true -> well_used cfg st ->
  exists st', Destructor cfg st = Some st' /\ pool_ st' = [].
Proof.
  intros Hcfg Hrun. pose proof (well_used_wf _ _ Hcfg Hrun) as Hwf.
  destruct (wf_state_pool_addresses _ _ Hwf) as [Hnd Hall].
  destruct (release_pool_spec cfg (pool_ st) (cache_ st) (sys_log st) Hnd Hall)
    as (events & _ & Hrel).
  unfold Destructor. rewrite Hrel. simpl. by eexists.
Qed.

(** ** Freeing two physical buddies *)

Lemma wf_state_coalesced cfg st : wf_state cfg st -> coalesced (cache_ st).
Proof. intros Hwf a d d'. apply (wf_st_coalesced _ _ Hwf). Qed.

(** Two well-formed allocators with the same log, the same chunks handed
    out, the same HUGE chunks and the same counters are the same state. *)
Lemma wf_state_ext cfg st1 st2 :
  wf_state cfg st1 -> wf_state cfg st2 ->
  sys_log st1 = sys_log st2 -> same_served (cache_ st1) (cache_ st2) ->
  total_used_ st1 = total_used_ st2 -> total_free_ st1 = total_free_ st2 ->
  realloc_size_ st1 = realloc_size_ st2 ->
  st1 = st2.
Proof.
  intros Hwf1 Hwf2 Hlog Hsame Hu Hf Hr.
  assert (Hcache : cache_ st1 = cache_ st2).
  { eapply same_served_eq; [apply Hwf1|rewrite Hlog; apply Hwf2| | |done];
      by eapply wf_state_coalesced. }
  assert (Hpool : pool_ st1 = pool_ st2).
  { apply pool_sorted_ext; [apply Hwf1|apply Hwf2|].
    intros e. rewrite (wf_st_pool _ _ Hwf1 e), (wf_st_pool _ _ Hwf2 e).
    by rewrite Hcache. }
  destruct st1, st2. simpl in *. congruence.
Qed.

Lemma wsub_wsub_comm u a b : wsub (wsub u a) b = wsub (wsub u b) a.
Proof. unfold wsub. rewrite !wrap_wrap_sub. f_equal. lia. Qed.

Lemma wadd_wadd_comm u a b : wadd (wadd u a) b = wadd (wadd u b) a.
Proof. unfold wadd. rewrite !wrap_wrap_add. f_equal. lia. Qed.

(** Freeing two chunks that are handed out, one after the other. *)
Lemma free_both_arena cfg st a b da db :
  wf_state cfg st -> a <> b ->
  cache_ st !! a = Some da -> desc_type da = ARENA_CHUNK ->
  cache_ st !! b = Some db -> desc_type db = ARENA_CHUNK ->
  exists st',
    free_both cfg (data cfg a) (data cfg b) st = Some st' /\ wf_state cfg st'
    /\ sys_log st' = sys_log st /\ realloc_size_ st' = realloc_size_ st
    /\ total_used_ st'
       = wsub (wsub (total_used_ st) (desc_total_size da)) (desc_total_size db)
    /\ total_free_ st'
       = wadd (wadd (total_free_ st) (desc_total_size da)) (desc_total_size db)
    /\ (forall k t, arena_at (cache_ st') k t
                    <-> k <> b /\ k <> a /\ arena_at (cache_ st) k t)
    /\ (forall k dk, desc_type dk = HUGE_CHUNK ->
          (cache_ st' !! k = Some dk <-> cache_ st !! k = Some dk))
    /\ (exists e, e ∈ pool_ st'
                  /\ covers e b (b + desc_total_size db)).
Proof.
  intros Hwf Hab Ha Hta Hb Htb.
  destruct (Free_arena cfg st a da Hwf Ha Hta)
    as (st1 & Hfree1 & Hwf1 & Hlog1 & Hre1 & Hu1 & Hf1 & Har1 & Hhu1 & _).
  assert (Hb1 : arena_at (cache_ st1) b (desc_total_size db)).
  { apply Har1. split; [done|]. by exists db. }
  destruct Hb1 as (db1 & Hb1 & Htb1 & Htot1).
  destruct (Free_arena cfg st1 b db1 Hwf1 Hb1 Htb1)
    as (st2 & Hfree2 & Hwf2 & Hlog2 & Hre2 & Hu2 & Hf2 & Har2 & Hhu2 & Hentry).
  exists st2. unfold free_both. rewrite Hfree1. simpl.
  split; [done|]. split; [done|]. split; [congruence|]. split; [congruence|].
  split; [congruence|]. split; [congruence|]. split; [|split].
  - intros k t. rewrite Har2, Har1. tauto.
  - intros k dk Hh. by rewrite (Hhu2 _ _ Hh), (Hhu1 _ _ Hh).
  - destruct Hentry as (e & He & Hlo & Hhi). exists e. split; [done|].
    unfold covers. lia.
Qed.

(** The pool entry that covers a freed chunk also covers the freed right
    buddy of that chunk. *)
Lemma covering_entry_extends cfg st regions a ta b tb e1 e2 r :
  wf_state cfg st -> regions = refill_regions (sys_log st) ->
  r ∈ regions -> get2 r <= a -> b + tb <= region_end r ->
  0 < ta -> 0 < tb -> b = a + ta ->
  e1 ∈ pool_ st -> covers e1 a b ->
  e2 ∈ pool_ st -> covers e2 b (b + tb) ->
  covers e1 a (b + tb) /\ get0 e1 = get0 r.
Proof.
  intros Hwf -> Hr Hlo Hhi Hta Htb Hb He1 [Hc1 Hc1'] He2 [Hc2 Hc2'].
  pose proof (wf_st_heap _ _ Hwf) as Hheap.
  destruct (wf_state_pool_lookup _ _ _ Hwf He1) as (d1 & Hd1 & Hf1 & Hk1).
  destruct (wf_state_pool_lookup _ _ _ Hwf He2) as (d2 & Hd2 & Hf2 & Hk2).
  assert (Ht1 : get1 e1 = desc_total_size d1) by (rewrite Hk1; done).
  assert (Ht2 : get1 e2 = desc_total_size d2) by (rewrite Hk2; done).
  assert (Hnh1 : desc_type d1 <> HUGE_CHUNK) by (rewrite Hf1; done).
  destruct (chunk_region _ _ _ _ _ (wf_chunks _ _ _ Hheap _ _ Hd1) Hnh1)
    as (r1 & Hr1 & Hi1 & Hlo1 & Hhi1 & _ & Hn1).
  assert (r1 = r) as ->.
  { eapply (wf_heap_region_unique _ _ _ _ _ a); eauto; unfold region_end in *; lia. }
  split; [|by rewrite Hk1].
  destruct (decide (get2 e1 = get2 e2)) as [Heq|Hne].
  { rewrite Heq in Hd1. assert (d1 = d2) by congruence. subst d2.
    unfold covers. lia. }
  exfalso.
  pose proof (wf_disjoint _ _ _ Hheap _ _ _ _ Hd1 Hd2 Hne) as Hap.
  unfold apart in Hap.
  assert (Hend : get2 e1 + desc_total_size d1 = get2 e2) by lia.
  assert (Hn : desc_next d1 <> 0).
  { intros E. apply Hn1 in E. unfold region_end in *. lia. }
  destruct (wf_heap_next _ _ _ _ _ Hheap Hd1 Hn) as (Hnext & dn & Hdn & _).
  rewrite Hnext, Hend in Hdn. assert (dn = d2) by congruence. subst dn.
  rewrite <- Hend, <- Hnext in Hd2.
  by destruct (wf_st_coalesced _ _ Hwf _ _ _ Hd1 Hf1 Hd2).
Qed.

(** C4: for two outstanding ARENA chunks that are physical buddies ([b] is
    the right neighbour of [a]) in a well-formed allocator, which every
    properly used allocator is ([well_used_wf]), the two orders of freeing
    them lead to the same allocator state; its pool holds one entry, with
    the index of the chunks, that covers both. *)
Theorem free_buddies_commute cfg st a b da db :
  wf_state cfg st ->
  cache_ st !! a = Some da -> desc_type da = ARENA_CHUNK ->
  cache_ st !! b = Some db -> desc_type db = ARENA_CHUNK ->
  desc_next da = b ->
  exists st' e,
    free_both cfg (data cfg a) (data cfg b) st = Some st'
    /\ free_both cfg (data cfg b) (data cfg a) st = Some st'
    /\ e ∈ pool_ st' /\ covers e a (b + desc_total_size db)
    /\ get0 e = desc_index da.
Proof.
  intros Hwf Ha Hta Hb Htb Hnext. pose proof (wf_st_heap _ _ Hwf) as Hheap.
  pose proof (chunk_extent _ _ _ _ _ (wf_chunks _ _ _ Hheap _ _ Ha)) as (Ha0 & Hsa & _).
  pose proof (chunk_extent _ _ _ _ _ (wf_chunks _ _ _ Hheap _ _ Hb)) as (Hb0 & Hsb & _).
  destruct (wf_heap_next _ _ _ _ _ Hheap Ha ltac:(lia)) as (Hadj & _).
  rewrite Hnext in Hadj.
  destruct (free_both_arena cfg st a b da db Hwf ltac:(lia) Ha Hta Hb Htb)
    as (st1 & Hrun1 & Hwf1 & Hlog1 & Hre1 & Hu1 & Hf1 & Har1 & Hhu1 & e1 & He1 & Hc1).
  destruct (free_both_arena cfg st b a db da Hwf ltac:(lia) Hb Htb Ha Hta)
    as (st2 & Hrun2 & Hwf2 & Hlog2 & Hre2 & Hu2 & Hf2 & Har2 & Hhu2 & e2 & He2 & Hc2).
  assert (st2 = st1) as ->.
  { apply (wf_state_ext cfg); try done; try congruence.
    - split.
      + intros k t. rewrite Har1, Har2. tauto.
      + intros k dk Hh. by rewrite (Hhu1 _ _ Hh), (Hhu2 _ _ Hh).
    - rewrite Hu1, Hu2. apply wsub_wsub_comm.
    - rewrite Hf1, Hf2. apply wadd_wadd_comm. }
  assert (Hnh : desc_type da <> HUGE_CHUNK) by (rewrite Hta; done).
  destruct (chunk_region _ _ _ _ _ (wf_chunks _ _ _ Hheap _ _ Ha) Hnh)
    as (r & Hr & Hidx & Hlo & Hhi & _ & Hn).
  assert (Hnhb : desc_type db <> HUGE_CHUNK) by (rewrite Htb; done).
  destruct (chunk_region_at _ _ _ _ _ r Hheap Hb Hnhb Hr) as (_ & Hhib & _).
  { assert (a + desc_total_size da <> region_end r); [|lia].
    intros E. apply Hn in E. lia. }
  destruct (covering_entry_extends cfg st1 _ a (desc_total_size da) b
              (desc_total_size db) e2 e1 r Hwf1 eq_refl) as (Hcov & Hidx');
    try done; try lia.
  { by rewrite Hlog1. }
  { unfold covers in *. lia. }
  exists st1, e2. do 4 (split; [done|]). congruence.
Qed.

Lemma scenario_state1_wf : wf_state scenario_config scenario_state1.
Proof.
  destruct (Alloc_pool_wf scenario_config (scenario_env 65536 0) 100 empty_allocator
              eq_refl (wf_state_empty _)) as (p & st' & Halloc & Hwf & _).
  - vm_compute. split; [reflexivity|discriminate].
  - intros _. split; [done|]. split; [done|]. split; [vm_compute; discriminate|].
    split.
    + intros r Hr. by apply elem_of_nil in Hr.
    + intros a d Hd. done.
  - assert (Hc : Alloc scenario_config (scenario_env 65536 0) 100 empty_allocator
                 = Some (65568, scenario_state1)) by (vm_compute; reflexivity).
    rewrite Hc in Halloc. by injection Halloc as <- <-.
Qed.

Lemma scenario_state2_wf : wf_state scenario_config scenario_state2.
Proof.
  destruct (Alloc_pool_wf scenario_config (scenario_env 0 0) 100 scenario_state1
              eq_refl scenario_state1_wf) as (p & st' & Halloc & Hwf & _).
  - vm_compute. split; [reflexivity|discriminate].
  - intros Hp. done.
  - assert (Hc : Alloc scenario_config (scenario_env 0 0) 100 scenario_state1
                 = Some (65824, scenario_state2)) by (vm_compute; reflexivity).
    rewrite Hc in Halloc. by injection Halloc as <- <-.
Qed.

Lemma free_buddies_commute_witness :
  exists st' e,
    free_both scenario_config (data scenario_config 65536)
      (data scenario_config 65792) scenario_state2 = Some st'
    /\ free_both scenario_config (data scenario_config 65792)
         (data scenario_config 65536) scenario_state2 = Some st'
    /\ e ∈ pool_ st'
    /\ covers e 65536 (65792 + desc_total_size (scenario_chunk 65792))
    /\ get0 e = desc_index (scenario_chunk 65536).
Proof.
  apply (free_buddies_commute scenario_config scenario_state2 65536 65792
           (scenario_chunk 65536) (scenario_chunk 65792)).
  - exact scenario_state2_wf.
  - vm_compute. reflexivity.
  - vm_compute. reflexivity.
  - vm_compute. reflexivity.
  - vm_compute. reflexivity.
  - vm_compute. reflexivity.
Defined.

(** * Further properties of the allocator *)

(** ** Rounding up *)

Lemma align_multiple s a : 0 < a -> (a | s) -> align s a = s.
Proof.
  intros Ha Hdiv. unfold align.
  apply Z.mod_divide in Hdiv; [|lia]. by rewrite Hdiv.
Qed.

Lemma align_modular s a :
  0 < a < size_t_modulus -> in_size_t s -> align s a = wrap (align_up s a).
Proof.
  intros Ha Hs. unfold in_size_t in Hs. unfold align, align_up.
  pose proof (Z.div_mod s a ltac:(lia)) as Hdm.
  pose proof (Z.mod_pos_bound s a ltac:(lia)) as Hb.
  set (q := s / a) in *. set (r := s mod a) in *.
  destruct (Z.eqb_spec r 0) as [Hr|Hr].
  - replace (s + a - 1) with (q * a + (a - 1)) by lia.
    rewrite Z.div_add_l by lia. rewrite (Z.div_small (a - 1) a) by lia.
    rewrite wrap_small; [lia|]. unfold in_size_t. lia.
  - replace (s + a - 1) with ((q + 1) * a + (r - 1)) by lia.
    rewrite Z.div_add_l by lia. rewrite (Z.div_small (r - 1) a) by lia.
    unfold wadd, wsub. rewrite wrap_add_wrap. f_equal. lia.
Qed.

(** X1: when the round-up does not overflow, [align size alignment] is a
    multiple of [alignment] in [size, size + alignment), and aligning an
    aligned size changes nothing. *)
Theorem align_rounds_up s a :
  0 < a -> 0 <= s -> align_up s a < size_t_modulus ->
  (a | align s a) /\ s <= align s a < s + a
  /\ align (align s a) a = align s a.
Proof.
  intros Ha Hs Hfit. rewrite align_no_overflow by done.
  destruct (align_up_least s a Ha) as (Hdiv & Hge & Hleast).
  split; [done|]. split.
  - split; [done|].
    destruct (Z_lt_le_dec (align_up s a) (s + a)) as [|Hbig]; [done|].
    assert (Hdiv' : (a | align_up s a - a)).
    { apply Z.divide_sub_r; [done|apply Z.divide_refl]. }
    pose proof (Hleast _ Hdiv' ltac:(lia)). lia.
  - by apply align_multiple.
Qed.

Lemma align_rounds_up_witness :
  (256 | align 132 256) /\ 132 <= align 132 256 < 132 + 256
  /\ align (align 132 256) 256 = align 132 256.
Proof.
  apply (align_rounds_up 132 256).
  - lia.
  - lia.
  - vm_compute. reflexivity.
Defined.

(** X2: [align] is the round-up modulo 2^64.  When the alignment divides
    2^64 (a power of two) the result is a multiple of the alignment even
    when the round-up overflows, and it is then 0. *)
Theorem align_wraps_around s a :
  0 < a < size_t_modulus -> in_size_t s ->
  align s a = wrap (align_up s a)
  /\ ((a | size_t_modulus) ->
      (a | align s a)
      /\ (size_t_modulus <= align_up s a -> align s a = 0)).
Proof.
  intros Ha Hs. pose proof (align_modular s a Ha Hs) as Hmod.
  split; [done|]. intros Hpow.
  destruct (align_up_least s a ltac:(lia)) as (Hdiv & Hge & Hleast).
  split.
  - rewrite Hmod. unfold wrap.
    destruct Hdiv as [k Hk]. destruct Hpow as [m Hm].
    rewrite Hk, Hm. rewrite Z.mul_mod_distr_r by lia.
    apply Z.divide_factor_r.
  - intros Hover. unfold in_size_t in Hs.
    pose proof (Hleast _ Hpow ltac:(lia)) as Hle.
    rewrite Hmod. replace (align_up s a) with size_t_modulus by lia.
    unfold wrap. apply Z.mod_same. unfold size_t_modulus. lia.
Qed.

Lemma align_wraps_around_witness :
  align (2 ^ 64 - 1) 256 = wrap (align_up (2 ^ 64 - 1) 256)
  /\ (256 | align (2 ^ 64 - 1) 256)
  /\ align (2 ^ 64 - 1) 256 = 0.
Proof.
  destruct (align_wraps_around (2 ^ 64 - 1) 256) as [Hmod Hpow].
  - unfold size_t_modulus. lia.
  - unfold in_size_t, size_t_modulus. lia.
  - destruct Hpow as [Hdiv Hzero].
    + exists (2 ^ 56). reflexivity.
    + split; [exact Hmod|]. split; [exact Hdiv|].
      apply Hzero. vm_compute. discriminate.
Defined.

(** ** Allocations that find a chunk in the pool *)

Lemma SplitToAlloc_block cfg it size pool cache b pool' cache' :
  SplitToAlloc cfg it size pool cache = Some (b, pool', cache') -> b = get2 it.
Proof.
  unfold SplitToAlloc. intros H.
  destruct (load_desc cfg cache (get2 it)); [|done]. simpl in H.
  destruct (split cfg cache (get2 it) size) as [cache1|]; [|done]. simpl in H.
  destruct (cache1 !! get2 it) as [desc|]; [|done]. simpl in H.
  destruct (get_right_buddy _ _ _) as [rb|]; [|done]. simpl in H.
  destruct (rb =? 0); [congruence|].
  destruct (load_desc _ _ rb) as [rbd|]; [|done]. simpl in H.
  destruct (desc_type rbd); congruence.
Qed.

(** X3: when [FindExistChunk] finds a chunk, [Alloc] does not consult the
    system allocator: its outcome is the same whatever the system
    allocator would answer, the pointer it returns is the payload of the
    chunk found, the log of system calls and [realloc_size_] are untouched,
    and the computed size moves from [total_free_] to [total_used_]. *)
Theorem Alloc_hit_ignores_system cfg env env' unaligned_size st e :
  computed_size cfg unaligned_size <= max_chunk_size cfg ->
  FindExistChunk (pool_ st) (computed_size cfg unaligned_size) = Some (Some e) ->
  Alloc cfg env' unaligned_size st = Alloc cfg env unaligned_size st
  /\ forall p st', Alloc cfg env unaligned_size st = Some (p, st') ->
       p = data cfg (get2 e)
       /\ sys_log st' = sys_log st /\ realloc_size_ st' = realloc_size_ st
       /\ total_used_ st'
          = wadd (total_used_ st) (computed_size cfg unaligned_size)
       /\ total_free_ st'
          = wsub (total_free_ st) (computed_size cfg unaligned_size).
Proof.
  intros Hle Hhit. unfold Alloc.
  destruct (Z.gtb_spec (computed_size cfg unaligned_size) (max_chunk_size cfg));
    [lia|].
  rewrite Hhit. simpl. split; [done|]. intros p st' Halloc.
  destruct (SplitToAlloc cfg e _ (pool_ st) (cache_ st))
    as [[[block pool'] cache']|] eqn:Hsplit; [|done].
  simpl in Halloc. injection Halloc as <- <-. simpl.
  by rewrite (SplitToAlloc_block _ _ _ _ _ _ _ _ Hsplit).
Qed.

Lemma Alloc_hit_ignores_system_witness :
  Alloc scenario_config (scenario_env 131072 1) 100 scenario_state1
  = Alloc scenario_config (scenario_env 0 0) 100 scenario_state1
  /\ forall p st',
       Alloc scenario_config (scenario_env 0 0) 100 scenario_state1
       = Some (p, st') ->
       p = data scenario_config (get2 (0, 3840, 65792))
       /\ sys_log st' = sys_log scenario_state1
       /\ realloc_size_ st' = realloc_size_ scenario_state1
       /\ total_used_ st'
          = wadd (total_used_ scenario_state1) (computed_size scenario_config 100)
       /\ total_free_ st'
          = wsub (total_free_ scenario_state1) (computed_size scenario_config 100).
Proof.
  apply (Alloc_hit_ignores_system scenario_config (scenario_env 0 0)
           (scenario_env 131072 1) 100 scenario_state1 (0, 3840, 65792)).
  - vm_compute. discriminate.
  - vm_compute. reflexivity.
Defined.

(** ** A huge allocation and its release *)

(** X4: a huge allocation followed by [Free] of the returned pointer gives
    back the allocator as it was: pool, cache, counters and
    [realloc_size_] are those before the allocation, and the system
    allocator is handed the pointer, the byte count and the index of its
    own allocation. *)
Theorem huge_roundtrip cfg env unaligned_size st :
  max_chunk_size cfg < computed_size cfg unaligned_size ->
  in_size_t (sys_ptr env) -> sys_ptr env <> 0 ->
  cache_ st !! sys_ptr env = None ->
  exists st1,
    Alloc cfg env unaligned_size st = Some (data cfg (sys_ptr env), st1)
    /\ Free cfg (data cfg (sys_ptr env)) st1
       = Some (mkState (pool_ st) (cache_ st) (total_used_ st) (total_free_ st)
                 (realloc_size_ st)
                 (sys_log st
                  ++ [EvSystemAlloc (computed_size cfg unaligned_size)
                        (sys_ptr env) (sys_index env);
                      EvSystemFree (sys_ptr env)
                        (computed_size cfg unaligned_size) (sys_index env)])).
Proof.
  intros Hhuge Hrange Hnull Hfresh.
  rewrite (Alloc_huge cfg env unaligned_size st Hhuge). unfold SystemAlloc.
  destruct (Z.eqb_spec (sys_ptr env) 0) as [|_]; [done|].
  eexists. split; [reflexivity|].
  set (d := update_guards cfg
              (mkDesc HUGE_CHUNK (sys_index env)
                 (payload_size cfg (computed_size cfg unaligned_size))
                 (computed_size cfg unaligned_size) 0 0 0 0)).
  rewrite (Free_huge _ _ _ d).
  - rewrite metadata_data by done. simpl. unfold init, store, invalidate.
    rewrite delete_insert_id by done. by rewrite <- app_assoc.
  - rewrite metadata_data by done. simpl. unfold init. apply load_desc_store_eq.
  - done.
Qed.

Lemma huge_roundtrip_witness :
  exists st1,
    Alloc scenario_config (scenario_env 131072 7) 5000 scenario_state1
    = Some (data scenario_config 131072, st1)
    /\ Free scenario_config (data scenario_config 131072) st1
       = Some (mkState (pool_ scenario_state1) (cache_ scenario_state1)
                 (total_used_ scenario_state1) (total_free_ scenario_state1)
                 (realloc_size_ scenario_state1)
                 (sys_log scenario_state1
                  ++ [EvSystemAlloc (computed_size scenario_config 5000) 131072 7;
                      EvSystemFree 131072 (computed_size scenario_config 5000) 7])).
Proof.
  apply (huge_roundtrip scenario_config (scenario_env 131072 7) 5000
           scenario_state1).
  - vm_compute. reflexivity.
  - unfold in_size_t, size_t_modulus. simpl. lia.
  - simpl. lia.
  - vm_compute. reflexivity.
Defined.

(** ** The first refill of a device allocator *)

Lemma reachable_counter_sum cfg st : reachable cfg st -> counter_sum_ok st.
Proof.
  induction 1 as [|st c st' _ IH Hexec]; [done|].
  destruct c as [env unaligned_size|p]; simpl in Hexec.
  - destruct (Alloc cfg env unaligned_size st) as [[q st'']|] eqn:Halloc; [|done].
    injection Hexec as <-. by eapply Alloc_counter_sum.
  - by eapply Free_counter_sum.
Qed.

(** What a call does to the log of system calls and to [realloc_size_]. *)
Lemma exec_log_realloc cfg c st st' :
  exec cfg c st = Some st' ->
  (exists events, sys_log st' = sys_log st ++ events)
  /\ (realloc_size_ st' = realloc_size_ st
      \/ exists env request_bytes,
           realloc_size_ st' = (refill_bytes cfg env request_bytes st).2).
Proof.
  destruct c as [env unaligned_size|p]; simpl.
  - unfold Alloc.
    destruct (computed_size cfg unaligned_size >? max_chunk_size cfg).
    { unfold SystemAlloc. destruct (sys_ptr env =? 0); intros [= <-]; simpl.
      - split; [exists []; by rewrite app_nil_r|by left].
      - split; [by eexists|by left]. }
    destruct (FindExistChunk _ _) as [[e|]|]; simpl; [| |done].
    + destruct (SplitToAlloc _ _ _ _ _) as [[[block pool'] cache']|]; [|done].
      intros [= <-]. simpl. split; [exists []; by rewrite app_nil_r|by left].
    + unfold RefillPool.
      destruct (refill_bytes cfg env _ st) as [bytes realloc] eqn:Hbytes.
      destruct (sys_ptr env =? 0).
      * intros [= <-]. simpl. split; [exists []; by rewrite app_nil_r|].
        right. exists env, (computed_size cfg unaligned_size). by rewrite Hbytes.
      * simpl.
        destruct (SplitToAlloc _ _ _ _ _) as [[[block pool'] cache']|]; [|done].
        intros [= <-]. simpl. split; [by eexists|].
        right. exists env, (computed_size cfg unaligned_size). by rewrite Hbytes.
  - unfold Free. destruct (load_desc _ _ _) as [desc|]; [|done]. simpl.
    assert (Hother :
      (cache1 ← mark_as_free cfg (metadata cfg p) (cache_ st);
       desc1 ← cache1 !! metadata cfg p;
       '(pool2, cache2) ← merge_right_buddy cfg (metadata cfg p) (pool_ st) cache1;
       '(pool3, cache3, block') ← merge_left_buddy cfg (metadata cfg p) pool2 cache2;
       desc3 ← cache3 !! block';
       Some (mkState (pool_insert (desc_key block' desc3) pool3) cache3
               (wsub (total_used_ st) (desc_total_size desc1))
               (wadd (total_free_ st) (desc_total_size desc1))
               (realloc_size_ st) (sys_log st))) = Some st' ->
      (exists events, sys_log st' = sys_log st ++ events)
      /\ (realloc_size_ st' = realloc_size_ st
          \/ exists env request_bytes,
               realloc_size_ st' = (refill_bytes cfg env request_bytes st).2)).
    { intros H. destruct (mark_as_free _ _ _) as [cache1|]; [|done]. simpl in H.
      destruct (cache1 !! metadata cfg p) as [desc1|]; [|done]. simpl in H.
      destruct (merge_right_buddy _ _ _ _) as [[pool2 cache2]|]; [|done]. simpl in H.
      destruct (merge_left_buddy _ _ _ _) as [[[pool3 cache3] block']|]; [|done].
      simpl in H. destruct (cache3 !! block') as [desc3|]; [|done]. simpl in H.
      injection H as <-. simpl. split; [exists []; by rewrite app_nil_r|by left]. }
    destruct (desc_type desc); [by apply Hother|by apply Hother|].
    intros [= <-]. simpl. split; [by eexists|by left].
Qed.

Lemma refilled_bytes_no_refill log :
  refill_regions log = [] -> refilled_bytes log = 0.
Proof.
  induction log as [|[] log IH]; simpl; try done.
  all: unfold refill_regions in *; simpl; intros H; by apply IH.
Qed.

Lemma reachable_before_refill cfg st :
  reachable cfg st -> refill_regions (sys_log st) = [] ->
  realloc_size_ st = 0 /\ wadd (total_used_ st) (total_free_ st) = 0.
Proof.
  intros Hreach. pose proof (reachable_counter_sum _ _ Hreach) as Hsum.
  induction Hreach as [|st c st' Hreach IH Hexec]; [done|]. intros Hnone.
  split; [|by rewrite Hsum, refilled_bytes_no_refill].
  destruct (exec_log_realloc _ _ _ _ Hexec) as [[events Hlog] Hrealloc].
  rewrite Hlog, refill_regions_app in Hnone. apply app_eq_nil in Hnone as [Hnone _].
  destruct (IH (reachable_counter_sum _ _ Hreach) Hnone) as [Hr0 Hs0].
  destruct Hrealloc as [->|(env & request_bytes & ->)]; [done|].
  unfold refill_bytes. destruct (use_gpu cfg); [|done]. by rewrite Hs0.
Qed.

(** X5: on a device allocator, as long as no refill has succeeded (huge
    allocations and refused refills do not count), [RefillPool] asks the
    system allocator for the larger of [GpuInitAllocSize()] and the
    request; [realloc_size_] is still 0 and [GpuReallocSize()] plays no
    role. *)
Theorem RefillPool_first_allocation cfg st env request_bytes :
  reachable cfg st -> use_gpu cfg = true ->
  refill_regions (sys_log st) = [] ->
  realloc_size_ st = 0
  /\ (RefillPool cfg env request_bytes st).1
     = (if sys_ptr env =? 0 then None
        else Some (sys_index env, Z.max (GpuInitAllocSize env) request_bytes,
                   sys_ptr env))
  /\ realloc_size_ (RefillPool cfg env request_bytes st).2 = 0.
Proof.
  intros Hreach Hgpu Hnone.
  destruct (reachable_before_refill _ _ Hreach Hnone) as [Hr0 Hs0].
  split; [done|]. unfold RefillPool, refill_bytes. rewrite Hgpu, Hs0. simpl.
  by destruct (sys_ptr env =? 0).
Qed.

Lemma RefillPool_first_allocation_witness :
  realloc_size_ scenario_gpu_state = 0
  /\ (RefillPool scenario_gpu_config (mkSysEnv 65536 0 8192 2048) 256
        scenario_gpu_state).1
     = (if sys_ptr (mkSysEnv 65536 0 8192 2048) =? 0 then None
        else Some (sys_index (mkSysEnv 65536 0 8192 2048),
                   Z.max (GpuInitAllocSize (mkSysEnv 65536 0 8192 2048)) 256,
                   sys_ptr (mkSysEnv 65536 0 8192 2048)))
  /\ realloc_size_
       (RefillPool scenario_gpu_config (mkSysEnv 65536 0 8192 2048) 256
          scenario_gpu_state).2 = 0.
Proof.
  apply (RefillPool_first_allocation scenario_gpu_config scenario_gpu_state
           (mkSysEnv 65536 0 8192 2048) 256).
  - apply (reachable_step scenario_gpu_config empty_allocator
             (CallAlloc (mkSysEnv 131072 0 8192 2048) 5000) scenario_gpu_state).
    + apply reachable_init.
    + vm_compute. reflexivity.
  - reflexivity.
  - vm_compute. reflexivity.
Defined.

(** ** Allocations from the pool of a well-formed allocator *)

Lemma served_lookup cfg cache b size d :
  exists d', served cfg cache b size d !! b = Some d'
    /\ desc_type d' = ARENA_CHUNK /\ desc_index d' = desc_index d
    /\ ((desc_total_size d - size <= split_min_residual cfg
         /\ desc_total_size d' = desc_total_size d)
        \/ (split_min_residual cfg < desc_total_size d - size
            /\ desc_total_size d' = size)).
Proof.
  unfold served.
  destruct (Z.leb_spec (desc_total_size d - size) (split_min_residual cfg)).
  - eexists. rewrite lookup_insert_eq. split; [done|]. simpl.
    split; [done|]. split; [done|]. by left.
  - eexists. rewrite lookup_insert_eq. split; [done|]. simpl.
    split; [done|]. split; [done|]. by right.
Qed.

Lemma served_pool_elem cfg pool b size d x :
  StronglySorted isa_lt pool ->
  x ∈ served_pool cfg pool b size d
  <-> (x <> desc_key b d /\ x ∈ pool)
      \/ (split_min_residual cfg < desc_total_size d - size
          /\ x = (desc_index d, desc_total_size d - size, b + size)).
Proof.
  intros Hsorted. unfold served_pool.
  destruct (Z.leb_spec (desc_total_size d - size) (split_min_residual cfg)).
  - rewrite pool_erase_elem by done. split; [by left|].
    intros [?|[? _]]; [done|lia].
  - rewrite pool_insert_elem, pool_erase_elem by done. split.
    + intros [->|?]; [by right|by left].
    + intros [?|[_ ->]]; [by right|by left].
Qed.

(** [Alloc] when the pool has a fitting chunk. *)
Lemma Alloc_hit_eval cfg env unaligned_size st e :
  valid_config cfg = true -> wf_state cfg st ->
  0 < computed_size cfg unaligned_size <= max_chunk_size cfg ->
  FindExistChunk (pool_ st) (computed_size cfg unaligned_size) = Some (Some e) ->
  exists d,
    cache_ st !! get2 e = Some d /\ desc_type d = FREE_CHUNK
    /\ e = desc_key (get2 e) d
    /\ computed_size cfg unaligned_size <= desc_total_size d
    /\ Alloc cfg env unaligned_size st
       = Some (data cfg (get2 e),
               mkState
                 (served_pool cfg (pool_ st) (get2 e)
                    (computed_size cfg unaligned_size) d)
                 (served cfg (cache_ st) (get2 e)
                    (computed_size cfg unaligned_size) d)
                 (wadd (total_used_ st) (computed_size cfg unaligned_size))
                 (wsub (total_free_ st) (computed_size cfg unaligned_size))
                 (realloc_size_ st) (sys_log st)).
Proof.
  intros Hcfg Hwf Hsize Hhit.
  apply valid_config_spec in Hcfg as (_ & _ & _ & _ & Hthr).
  destruct (FindExistChunk_best_fit (pool_ st)
              (computed_size cfg unaligned_size) (wf_st_sorted _ _ Hwf))
    as (r & Hr & Hbest).
  rewrite Hhit in Hr. injection Hr as <-. destruct Hbest as (He & Hfit & _).
  destruct (wf_state_pool_lookup _ _ _ Hwf He) as (d & Hd & Hf & Hkey).
  assert (Htot : desc_total_size d = get1 e) by (rewrite Hkey; done).
  exists d. do 3 (split; [done|]). split; [lia|].
  unfold Alloc.
  destruct (Z.gtb_spec (computed_size cfg unaligned_size) (max_chunk_size cfg));
    [lia|].
  rewrite Hhit. simpl. rewrite Hkey at 1.
  rewrite (SplitToAlloc_eval _ _ _ _ _ Hthr Hwf Hd Hf) by lia. done.
Qed.

(** [Alloc] when the pool has no fitting chunk and the system allocator
    provides a region. *)
Lemma Alloc_refill_eval cfg env unaligned_size st :
  valid_config cfg = true -> wf_state cfg st ->
  0 < computed_size cfg unaligned_size <= max_chunk_size cfg ->
  FindExistChunk (pool_ st) (computed_size cfg unaligned_size) = Some None ->
  sys_ptr env <> 0 -> env_ok cfg env unaligned_size st ->
  exists d1 st1,
    RefillPool cfg env (computed_size cfg unaligned_size) st
    = (Some (desc_key (sys_ptr env) d1), st1)
    /\ wf_state cfg st1
    /\ cache_ st1 !! sys_ptr env = Some d1 /\ desc_type d1 = FREE_CHUNK
    /\ desc_total_size d1
       = (refill_bytes cfg env (computed_size cfg unaligned_size) st).1
    /\ computed_size cfg unaligned_size <= desc_total_size d1
    /\ cache_ st !! sys_ptr env = None
    /\ (forall k, k <> sys_ptr env -> cache_ st1 !! k = cache_ st !! k)
    /\ Alloc cfg env unaligned_size st
       = Some (data cfg (sys_ptr env),
               mkState
                 (served_pool cfg (pool_ st1) (sys_ptr env)
                    (computed_size cfg unaligned_size) d1)
                 (served cfg (cache_ st1) (sys_ptr env)
                    (computed_size cfg unaligned_size) d1)
                 (wadd (total_used_ st1) (computed_size cfg unaligned_size))
                 (wsub (total_free_ st1) (computed_size cfg unaligned_size))
                 (realloc_size_ st1) (sys_log st1)).
Proof.
  intros Hcfg Hwf Hsize Hmiss Hptr Henv.
  apply valid_config_spec in Hcfg as (_ & _ & _ & _ & Hthr).
  destruct (Henv Hptr) as (Hidx & Hfresh). unfold requested_bytes in Hfresh.
  destruct (Z.gtb_spec (computed_size cfg unaligned_size) (max_chunk_size cfg));
    [lia|].
  pose proof (refill_bytes_ge cfg env (computed_size cfg unaligned_size) st
                ltac:(lia)) as Hge.
  destruct (RefillPool_wf cfg env (computed_size cfg unaligned_size) st Hwf Hptr
              Hidx ltac:(lia) Hfresh)
    as (d1 & st1 & Hrefill & Hwf1 & Hd1 & Hf1 & Htot1 & Hnone & Hsame).
  exists d1, st1. do 5 (split; [done|]). split; [lia|]. do 2 (split; [done|]).
  unfold Alloc.
  destruct (Z.gtb_spec (computed_size cfg unaligned_size) (max_chunk_size cfg));
    [lia|].
  rewrite Hmiss. simpl. rewrite Hrefill.
  rewrite (SplitToAlloc_eval _ _ _ _ _ Hthr Hwf1 Hd1 Hf1) by lia. done.
Qed.

Lemma RefillPool_fields cfg env request_bytes st it st1 :
  RefillPool cfg env request_bytes st = (Some it, st1) ->
  total_used_ st1 = total_used_ st
  /\ total_free_ st1
     = wadd (total_free_ st) (refill_bytes cfg env request_bytes st).1
  /\ realloc_size_ st1 = (refill_bytes cfg env request_bytes st).2
  /\ sys_log st1
     = sys_log st
       ++ [EvRefill (refill_bytes cfg env request_bytes st).1 (sys_ptr env)
             (sys_index env)].
Proof.
  unfold RefillPool. destruct (refill_bytes cfg env request_bytes st).
  destruct (sys_ptr env =? 0); [done|]. by intros [= _ <-].
Qed.

(** An allocation of a non-zero computed size that does not exceed
    [max_chunk_size], on a well-formed allocator: either the pool has no
    fitting chunk and the system allocator has none, or a chunk is served. *)
Lemma Alloc_pool_served cfg env unaligned_size st :
  valid_config cfg = true -> wf_state cfg st ->
  0 < computed_size cfg unaligned_size <= max_chunk_size cfg ->
  env_ok cfg env unaligned_size st ->
  exists p st',
    Alloc cfg env unaligned_size st = Some (p, st') /\ wf_state cfg st'
    /\ ((p = 0 /\ sys_ptr env = 0
         /\ FindExistChunk (pool_ st) (computed_size cfg unaligned_size)
            = Some None)
        \/ exists b d',
             p = data cfg b /\ cache_ st' !! b = Some d'
             /\ desc_type d' = ARENA_CHUNK
             /\ 0 <= desc_total_size d' - computed_size cfg unaligned_size
                <= split_min_residual cfg
             /\ total_used_ st'
                = wadd (total_used_ st) (computed_size cfg unaligned_size)
             /\ ~ is_arena (cache_ st) b).
Proof.
  intros Hcfg Hwf Hsize Henv.
  pose proof Hcfg as Hcfg'.
  apply valid_config_spec in Hcfg' as (_ & _ & _ & _ & Hthr).
  destruct (FindExistChunk_best_fit (pool_ st)
              (computed_size cfg unaligned_size) (wf_st_sorted _ _ Hwf))
    as ([e|] & Hfind & _).
  - destruct (Alloc_hit_eval cfg env _ _ _ Hcfg Hwf Hsize Hfind)
      as (d & Hd & Hf & Hkey & Hfit & ->).
    destruct (served_wf cfg st (get2 e) d (computed_size cfg unaligned_size)
                (wadd (total_used_ st) (computed_size cfg unaligned_size))
                (wsub (total_free_ st) (computed_size cfg unaligned_size))
                (realloc_size_ st) Hthr Hwf Hd Hf ltac:(lia)) as (Hwf' & _).
    destruct (served_lookup cfg (cache_ st) (get2 e)
                (computed_size cfg unaligned_size) d)
      as (d' & Hd' & Ha' & _ & Htot).
    eexists _, _. split; [done|]. split; [done|]. right.
    exists (get2 e), d'. simpl. do 3 (split; [done|]). split; [lia|].
    split; [done|]. intros (d0 & Hd0 & Ht0). congruence.
  - destruct (decide (sys_ptr env = 0)) as [Hnull|Hptr].
    { unfold Alloc.
      destruct (Z.gtb_spec (computed_size cfg unaligned_size) (max_chunk_size cfg));
        [lia|].
      rewrite Hfind. simpl. rewrite RefillPool_null by done.
      eexists _, _. split; [done|]. split; [by eapply wf_state_counters|].
      by left. }
    destruct (Alloc_refill_eval cfg env _ _ Hcfg Hwf Hsize Hfind Hptr Henv)
      as (d1 & st1 & Hrefill & Hwf1 & Hd1 & Hf1 & Htot1 & Hfit & Hnone & _ & ->).
    destruct (RefillPool_fields _ _ _ _ _ _ Hrefill) as (Hused & _).
    destruct (served_wf cfg st1 (sys_ptr env) d1 (computed_size cfg unaligned_size)
                (wadd (total_used_ st1) (computed_size cfg unaligned_size))
                (wsub (total_free_ st1) (computed_size cfg unaligned_size))
                (realloc_size_ st1) Hthr Hwf1 Hd1 Hf1 ltac:(lia)) as (Hwf' & _).
    destruct (served_lookup cfg (cache_ st1) (sys_ptr env)
                (computed_size cfg unaligned_size) d1)
      as (d' & Hd' & Ha' & _ & Htot).
    eexists _, _. split; [done|]. split; [done|]. right.
    exists (sys_ptr env), d'. simpl. do 3 (split; [done|]). split; [lia|].
    split; [by rewrite Hused|]. intros (d0 & Hd0 & _). congruence.
Qed.

Lemma scenario_state1_well_used : well_used scenario_config scenario_state1.
Proof.
  apply (well_used_step scenario_config empty_allocator
           (CallAlloc (scenario_env 65536 0) 100) scenario_state1).
  - apply well_used_init.
  - split; [vm_compute; reflexivity|].
    intros _. split; [done|]. split; [done|]. split; [vm_compute; discriminate|].
    split.
    + intros r Hr. by apply elem_of_nil in Hr.
    + intros a d Hd. done.
  - vm_compute. reflexivity.
Qed.

Lemma scenario_state2_well_used : well_used scenario_config scenario_state2.
Proof.
  apply (well_used_step scenario_config scenario_state1
           (CallAlloc (scenario_env 0 0) 100) scenario_state2).
  - apply scenario_state1_well_used.
  - split; [vm_compute; reflexivity|]. intros Hp. done.
  - vm_compute. reflexivity.
Qed.

(** X6: on a properly used allocator, when the pool has no fitting chunk
    and the system allocator provides a region, [Alloc] issues this one
    request, of at least the computed size, and serves the allocation from
    the base of the new region; the counters take in the new region and
    move the computed size from free to used. *)
Theorem Alloc_miss_refills_once cfg env unaligned_size st :
  valid_config cfg = true -> well_used cfg st ->
  0 < computed_size cfg unaligned_size <= max_chunk_size cfg ->
  FindExistChunk (pool_ st) (computed_size cfg unaligned_size) = Some None ->
  sys_ptr env <> 0 -> env_ok cfg env unaligned_size st ->
  exists st',
    Alloc cfg env unaligned_size st = Some (data cfg (sys_ptr env), st')
    /\ sys_log st'
       = sys_log st
         ++ [EvRefill (refill_bytes cfg env (computed_size cfg unaligned_size) st).1
               (sys_ptr env) (sys_index env)]
    /\ computed_size cfg unaligned_size
       <= (refill_bytes cfg env (computed_size cfg unaligned_size) st).1
    /\ total_used_ st'
       = wadd (total_used_ st) (computed_size cfg unaligned_size)
    /\ total_free_ st'
       = wsub (wadd (total_free_ st)
                 (refill_bytes cfg env (computed_size cfg unaligned_size) st).1)
           (computed_size cfg unaligned_size)
    /\ is_arena (cache_ st') (sys_ptr env).
Proof.
  intros Hcfg Hused Hsize Hmiss Hptr Henv.
  pose proof (well_used_wf _ _ Hcfg Hused) as Hwf.
  destruct (Alloc_refill_eval cfg env _ _ Hcfg Hwf Hsize Hmiss Hptr Henv)
    as (d1 & st1 & Hrefill & _ & _ & _ & Htot1 & Hfit & _ & _ & ->).
  destruct (RefillPool_fields _ _ _ _ _ _ Hrefill) as (Hu & Hf & _ & Hlog).
  eexists. split; [done|]. simpl. rewrite Hu, Hf, Hlog.
  split; [done|]. split; [lia|]. do 2 (split; [done|]).
  destruct (served_lookup cfg (cache_ st1) (sys_ptr env)
              (computed_size cfg unaligned_size) d1) as (d' & Hd' & Ha' & _).
  by exists d'.
Qed.

Lemma Alloc_miss_refills_once_witness :
  exists st',
    Alloc scenario_config (scenario_env 65536 0) 100 empty_allocator
    = Some (data scenario_config 65536, st')
    /\ sys_log st'
       = sys_log empty_allocator
         ++ [EvRefill
               (refill_bytes scenario_config (scenario_env 65536 0)
                  (computed_size scenario_config 100) empty_allocator).1
               65536 0]
    /\ computed_size scenario_config 100
       <= (refill_bytes scenario_config (scenario_env 65536 0)
             (computed_size scenario_config 100) empty_allocator).1
    /\ total_used_ st'
       = wadd (total_used_ empty_allocator) (computed_size scenario_config 100)
    /\ total_free_ st'
       = wsub (wadd (total_free_ empty_allocator)
                 (refill_bytes scenario_config (scenario_env 65536 0)
                    (computed_size scenario_config 100) empty_allocator).1)
           (computed_size scenario_config 100)
    /\ is_arena (cache_ st') 65536.
Proof.
  apply (Alloc_miss_refills_once scenario_config (scenario_env 65536 0) 100
           empty_allocator).
  - reflexivity.
  - apply well_used_init.
  - vm_compute. split; [reflexivity|discriminate].
  - reflexivity.
  - simpl. lia.
  - intros _. split; [done|]. split; [done|]. split; [vm_compute; discriminate|].
    split.
    + intros r Hr. by apply elem_of_nil in Hr.
    + intros a d Hd. done.
Defined.

(** X7: on a properly used allocator, when [FindExistChunk] finds a chunk,
    [Alloc] serves the allocation from it.  The chunk leaves the pool; what
    it has beyond the computed size returns to the pool as one FREE chunk
    of the same region, right behind the served bytes, when it is larger
    than the split threshold, and stays with the served chunk otherwise. *)
Theorem Alloc_hit_takes_chunk cfg env unaligned_size st e :
  valid_config cfg = true -> well_used cfg st ->
  0 < computed_size cfg unaligned_size <= max_chunk_size cfg ->
  FindExistChunk (pool_ st) (computed_size cfg unaligned_size) = Some (Some e) ->
  exists st',
    Alloc cfg env unaligned_size st = Some (data cfg (get2 e), st')
    /\ e ∈ pool_ st /\ computed_size cfg unaligned_size <= get1 e
    /\ (forall x, x ∈ pool_ st'
          <-> (x <> e /\ x ∈ pool_ st)
              \/ (split_min_residual cfg
                  < get1 e - computed_size cfg unaligned_size
                  /\ x = (get0 e, get1 e - computed_size cfg unaligned_size,
                          get2 e + computed_size cfg unaligned_size)))
    /\ arena_at (cache_ st') (get2 e)
         (if get1 e - computed_size cfg unaligned_size
             <=? split_min_residual cfg
          then get1 e else computed_size cfg unaligned_size).
Proof.
  intros Hcfg Hused Hsize Hhit.
  pose proof (well_used_wf _ _ Hcfg Hused) as Hwf.
  destruct (Alloc_hit_eval cfg env _ _ _ Hcfg Hwf Hsize Hhit)
    as (d & Hd & Hf & Hkey & Hfit & ->).
  assert (Htot : desc_total_size d = get1 e) by (rewrite Hkey; done).
  assert (Hidx : desc_index d = get0 e) by (rewrite Hkey; done).
  eexists. split; [done|]. simpl.
  split; [apply (wf_st_pool _ _ Hwf); by exists d|]. split; [lia|]. split.
  - intros x. rewrite served_pool_elem by apply Hwf.
    by rewrite <- Hkey, Htot, Hidx.
  - destruct (served_lookup cfg (cache_ st) (get2 e)
                (computed_size cfg unaligned_size) d)
      as (d' & Hd' & Ha' & _ & Hcase).
    exists d'. split; [done|]. split; [done|]. rewrite <- Htot.
    destruct (Z.leb_spec (desc_total_size d - computed_size cfg unaligned_size)
                (split_min_residual cfg)); lia.
Qed.

Lemma Alloc_hit_takes_chunk_witness :
  exists st',
    Alloc scenario_config (scenario_env 0 0) 100 scenario_state1
    = Some (data scenario_config (get2 (0, 3840, 65792)), st')
    /\ (0, 3840, 65792) ∈ pool_ scenario_state1
    /\ computed_size scenario_config 100 <= get1 (0, 3840, 65792)
    /\ (forall x, x ∈ pool_ st'
          <-> (x <> (0, 3840, 65792) /\ x ∈ pool_ scenario_state1)
              \/ (split_min_residual scenario_config
                  < get1 (0, 3840, 65792) - computed_size scenario_config 100
                  /\ x = (get0 (0, 3840, 65792),
                          get1 (0, 3840, 65792) - computed_size scenario_config 100,
                          get2 (0, 3840, 65792) + computed_size scenario_config 100)))
    /\ arena_at (cache_ st') (get2 (0, 3840, 65792))
         (if get1 (0, 3840, 65792) - computed_size scenario_config 100
             <=? split_min_residual scenario_config
          then get1 (0, 3840, 65792) else computed_size scenario_config 100).
Proof.
  apply (Alloc_hit_takes_chunk scenario_config (scenario_env 0 0) 100
           scenario_state1 (0, 3840, 65792)).
  - reflexivity.
  - apply scenario_state1_well_used.
  - vm_compute. split; [reflexivity|discriminate].
  - vm_compute. reflexivity.
Defined.

(** X8: on a properly used allocator, a pointer that [Alloc] returns for a
    request that does not overflow lies [sizeof(Desc)] behind the base of a
    chunk that is handed out; the chunk has room for the descriptor and the
    requested bytes, and lies inside one region obtained by a refill. *)
Theorem Alloc_gives_room cfg env unaligned_size st p st' :
  valid_config cfg = true -> well_used cfg st -> in_size_t unaligned_size ->
  align_up (unaligned_size + sizeof_desc cfg) (min_chunk_size cfg)
  < size_t_modulus ->
  0 < computed_size cfg unaligned_size <= max_chunk_size cfg ->
  env_ok cfg env unaligned_size st ->
  Alloc cfg env unaligned_size st = Some (p, st') -> p <> 0 ->
  exists b d r,
    p = b + sizeof_desc cfg /\ cache_ st' !! b = Some d
    /\ desc_type d = ARENA_CHUNK /\ ~ is_arena (cache_ st) b
    /\ p + unaligned_size <= b + desc_total_size d
    /\ r ∈ refill_regions (sys_log st')
    /\ get2 r <= b /\ b + desc_total_size d <= region_end r.
Proof.
  intros Hcfg Hused Hu Hfit Hsize Henv Halloc Hp.
  pose proof (well_used_wf _ _ Hcfg Hused) as Hwf.
  destruct (Alloc_pool_served cfg env _ _ Hcfg Hwf Hsize Henv)
    as (p' & st'' & Halloc' & Hwf' & Hcase).
  rewrite Halloc in Halloc'. injection Halloc' as <- <-.
  destruct Hcase as [(? & _)|(b & d & -> & Hd & Ht & Htot & _ & Hnew)]; [done|].
  pose proof (wf_chunks _ _ _ (wf_st_heap _ _ Hwf') _ _ Hd) as Hok.
  destruct (chunk_extent _ _ _ _ _ Hok) as (Hb0 & _ & Hend).
  destruct (chunk_region _ _ _ _ _ Hok ltac:(congruence))
    as (r & Hr & _ & Hlo & Hhi & _).
  rewrite computed_size_no_overflow in Htot by done.
  pose proof Hcfg as Hcfg'.
  apply valid_config_spec in Hcfg' as (Hmin & _ & Hdesc & _).
  destruct (align_up_least (unaligned_size + sizeof_desc cfg) (min_chunk_size cfg)
              ltac:(lia)) as (_ & Hge & _).
  unfold in_size_t in *.
  assert (Hdata : data cfg b = b + sizeof_desc cfg).
  { unfold data, wadd.
    destruct (Z_lt_le_dec (b + sizeof_desc cfg) size_t_modulus) as [|Hover].
    - apply wrap_small. unfold in_size_t. lia.
    - exfalso. apply Hp. unfold data, wadd.
      replace (b + sizeof_desc cfg) with size_t_modulus by lia.
      unfold wrap. apply Z.mod_same. unfold size_t_modulus. lia. }
  exists b, d, r. rewrite Hdata. do 4 (split; [done|]). split; [lia|]. done.
Qed.

Lemma Alloc_gives_room_witness :
  exists b d r,
    65824 = b + sizeof_desc scenario_config
    /\ cache_ scenario_state2 !! b = Some d
    /\ desc_type d = ARENA_CHUNK /\ ~ is_arena (cache_ scenario_state1) b
    /\ 65824 + 100 <= b + desc_total_size d
    /\ r ∈ refill_regions (sys_log scenario_state2)
    /\ get2 r <= b /\ b + desc_total_size d <= region_end r.
Proof.
  apply (Alloc_gives_room scenario_config (scenario_env 0 0) 100
           scenario_state1 65824 scenario_state2).
  - reflexivity.
  - apply scenario_state1_well_used.
  - unfold in_size_t, size_t_modulus. lia.
  - vm_compute. reflexivity.
  - vm_compute. split; [reflexivity|discriminate].
  - intros Hp. done.
  - vm_compute. reflexivity.
  - lia.
Defined.

(** ** What proper use maintains *)

(** X9: in a properly used allocator every chunk, pooled or handed out
    from the pool or huge, has a non-empty extent inside the address
    space, and no two chunks overlap. *)
Theorem chunks_never_overlap cfg st a1 d1 a2 d2 :
  valid_config cfg = true -> well_used cfg st ->
  cache_ st !! a1 = Some d1 -> cache_ st !! a2 = Some d2 -> a1 <> a2 ->
  0 < a1 /\ 0 < desc_total_size d1
  /\ a1 + desc_total_size d1 <= size_t_modulus
  /\ (a1 + desc_total_size d1 <= a2 \/ a2 + desc_total_size d2 <= a1).
Proof.
  intros Hcfg Hused H1 H2 Hne.
  pose proof (wf_st_heap _ _ (well_used_wf _ _ Hcfg Hused)) as Hheap.
  destruct (chunk_extent _ _ _ _ _ (wf_chunks _ _ _ Hheap _ _ H1)) as (? & ? & ?).
  do 3 (split; [done|]). exact (wf_disjoint _ _ _ Hheap _ _ _ _ H1 H2 Hne).
Qed.

Lemma chunks_never_overlap_witness :
  0 < 65536 /\ 0 < desc_total_size (scenario_chunk 65536)
  /\ 65536 + desc_total_size (scenario_chunk 65536) <= size_t_modulus
  /\ (65536 + desc_total_size (scenario_chunk 65536) <= 65792
      \/ 65792 + desc_total_size (scenario_chunk 65792) <= 65536).
Proof.
  apply (chunks_never_overlap scenario_config scenario_state2 65536
           (scenario_chunk 65536) 65792 (scenario_chunk 65792)).
  - reflexivity.
  - apply scenario_state2_well_used.
  - vm_compute. reflexivity.
  - vm_compute. reflexivity.
  - lia.
Defined.

(** X10: in a properly used allocator the pool is sorted and holds exactly
    the FREE chunks of the cache, each under the key made of its index, its
    total size and its address. *)
Theorem pool_holds_the_free_chunks cfg st :
  valid_config cfg = true -> well_used cfg st ->
  pool_sorted (pool_ st)
  /\ forall e, e ∈ pool_ st
       <-> exists d, cache_ st !! get2 e = Some d /\ desc_type d = FREE_CHUNK
                     /\ e = (desc_index d, desc_total_size d, get2 e).
Proof.
  intros Hcfg Hused. pose proof (well_used_wf _ _ Hcfg Hused) as Hwf.
  split; [apply Hwf|]. intros e. apply (wf_st_pool _ _ Hwf).
Qed.

Lemma pool_holds_the_free_chunks_witness :
  pool_sorted (pool_ scenario_state2)
  /\ forall e, e ∈ pool_ scenario_state2
       <-> exists d, cache_ scenario_state2 !! get2 e = Some d
                     /\ desc_type d = FREE_CHUNK
                     /\ e = (desc_index d, desc_total_size d, get2 e).
Proof.
  apply (pool_holds_the_free_chunks scenario_config scenario_state2).
  - reflexivity.
  - apply scenario_state2_well_used.
Defined.

(** X11: in a properly used allocator a FREE chunk lies in one refilled
    region, and on either side it reaches the end of the region or a chunk
    that is handed out: no two FREE chunks are physical neighbours. *)
Theorem free_chunks_are_coalesced cfg st a d :
  valid_config cfg = true -> well_used cfg st ->
  cache_ st !! a = Some d -> desc_type d = FREE_CHUNK ->
  exists r,
    r ∈ refill_regions (sys_log st) /\ desc_index d = get0 r
    /\ get2 r <= a /\ a + desc_total_size d <= region_end r
    /\ (a + desc_total_size d = region_end r
        \/ exists dr, cache_ st !! (a + desc_total_size d) = Some dr
             /\ desc_type dr = ARENA_CHUNK)
    /\ (a = get2 r
        \/ exists l dl, cache_ st !! l = Some dl
             /\ desc_type dl = ARENA_CHUNK /\ l + desc_total_size dl = a).
Proof.
  intros Hcfg Hused Hd Hf. pose proof (well_used_wf _ _ Hcfg Hused) as Hwf.
  pose proof (wf_st_heap _ _ Hwf) as Hheap.
  destruct (chunk_region _ _ _ _ _ (wf_chunks _ _ _ Hheap _ _ Hd)
              ltac:(congruence)) as (r & Hr & Hidx & Hlo & Hhi & Hprev & Hnext).
  exists r. do 4 (split; [done|]). split.
  - destruct (decide (desc_next d = 0)) as [Hn|Hn]; [left; by apply Hnext|].
    right.
    destruct (wf_heap_next _ _ _ _ _ Hheap Hd Hn)
      as (Hadj & d' & Hd' & _ & Hnh & _).
    pose proof (wf_st_coalesced _ _ Hwf _ _ _ Hd Hf Hd') as Hnf.
    rewrite <- Hadj. exists d'. split; [done|].
    destruct (chunk_type_cases d') as [?|[?|?]]; done.
  - destruct (decide (desc_prev d = 0)) as [Hp|Hp]; [left; by apply Hprev|].
    right.
    destruct (wf_heap_prev _ _ _ _ _ Hheap Hd Hp)
      as (dl & Hdl & Hnl & Hadj & Hnh & _).
    exists (desc_prev d), dl. split; [done|]. split; [|done].
    destruct (chunk_type_cases dl) as [Hfl|[?|?]]; [|done|done].
    exfalso. rewrite <- Hnl in Hd.
    exact (wf_st_coalesced _ _ Hwf _ _ _ Hdl Hfl Hd Hf).
Qed.

Lemma free_chunks_are_coalesced_witness :
  exists r,
    r ∈ refill_regions (sys_log scenario_state2)
    /\ desc_index (scenario_chunk 66048) = get0 r
    /\ get2 r <= 66048
    /\ 66048 + desc_total_size (scenario_chunk 66048) <= region_end r
    /\ (66048 + desc_total_size (scenario_chunk 66048) = region_end r
        \/ exists dr,
             cache_ scenario_state2
             !! (66048 + desc_total_size (scenario_chunk 66048)) = Some dr
             /\ desc_type dr = ARENA_CHUNK)
    /\ (66048 = get2 r
        \/ exists l dl, cache_ scenario_state2 !! l = Some dl
             /\ desc_type dl = ARENA_CHUNK /\ l + desc_total_size dl = 66048).
Proof.
  apply (free_chunks_are_coalesced scenario_config scenario_state2 66048
           (scenario_chunk 66048)).
  - reflexivity.
  - apply scenario_state2_well_used.
  - vm_compute. reflexivity.
  - vm_compute. reflexivity.
Defined.

(** [Free] of a pointer that is handed out, on a properly used allocator. *)
Lemma proper_call_wf_free cfg st b d :
  valid_config cfg = true -> well_used cfg st ->
  cache_ st !! b = Some d -> desc_type d <> FREE_CHUNK ->
  exists st', Free cfg (data cfg b) st = Some st' /\ well_used cfg st'.
Proof.
  intros Hcfg Hused Hd Ht.
  assert (Hgood : good_call cfg st (CallFree (data cfg b))) by by exists b, d.
  destruct (good_call_wf _ _ _ Hcfg (well_used_wf _ _ Hcfg Hused) Hgood)
    as (st' & Hexec & _).
  exists st'. split; [done|]. by eapply well_used_step.
Qed.

(** ** Proper calls *)

(** X12: on a properly used allocator no proper call fails an integrity
    check: an allocation of a non-zero computed size answered by a
    well-behaved system allocator, and the release of a pointer that is
    handed out, both return and leave a properly used allocator. *)
Theorem proper_call_never_aborts cfg st c :
  valid_config cfg = true -> well_used cfg st -> good_call cfg st c ->
  exists st', exec cfg c st = Some st' /\ well_used cfg st'.
Proof.
  intros Hcfg Hused Hgood.
  destruct (good_call_wf _ _ _ Hcfg (well_used_wf _ _ Hcfg Hused) Hgood)
    as (st' & Hexec & _).
  exists st'. split; [done|]. by eapply well_used_step.
Qed.

Lemma proper_call_never_aborts_witness :
  exists st',
    exec scenario_config (CallFree (data scenario_config 65792)) scenario_state2
    = Some st'
    /\ well_used scenario_config st'.
Proof.
  apply (proper_call_never_aborts scenario_config scenario_state2
           (CallFree (data scenario_config 65792))).
  - reflexivity.
  - apply scenario_state2_well_used.
  - exists 65792, (scenario_chunk 65792).
    split; [reflexivity|]. split; [vm_compute; reflexivity|].
    vm_compute. discriminate.
Defined.

(** X13: every non-null pointer that [Alloc] returns on a properly used
    allocator, from the pool or from the huge path, is accepted by [Free]:
    the descriptor is found under the pointer minus [sizeof(Desc)], its
    guards hold, and [Free] returns. *)
Theorem Alloc_result_can_be_freed cfg env unaligned_size st p st' :
  valid_config cfg = true -> well_used cfg st ->
  0 < computed_size cfg unaligned_size -> env_ok cfg env unaligned_size st ->
  Alloc cfg env unaligned_size st = Some (p, st') -> p <> 0 ->
  exists d st'',
    load_desc cfg (cache_ st') (metadata cfg p) = Some d
    /\ desc_type d <> FREE_CHUNK
    /\ Free cfg p st' = Some st'' /\ well_used cfg st''.
Proof.
  intros Hcfg Hused Hpos Henv Halloc Hp.
  pose proof (well_used_wf _ _ Hcfg Hused) as Hwf.
  assert (Hused' : well_used cfg st').
  { apply (well_used_step cfg st (CallAlloc env unaligned_size) st');
      [done|by split|]. simpl. by rewrite Halloc. }
  pose proof (well_used_wf _ _ Hcfg Hused') as Hwf'.
  assert (Hchunk : exists b d, p = data cfg b /\ cache_ st' !! b = Some d
                               /\ desc_type d <> FREE_CHUNK).
  { destruct (Z_lt_le_dec (max_chunk_size cfg) (computed_size cfg unaligned_size))
      as [Hhuge|Hle].
    - rewrite (Alloc_huge cfg env unaligned_size st Hhuge) in Halloc.
      unfold SystemAlloc in Halloc.
      destruct (Z.eqb_spec (sys_ptr env) 0); [congruence|].
      injection Halloc as <- <-. eexists _, _. split; [done|]. simpl.
      unfold init, store. rewrite lookup_insert_eq. split; [done|]. done.
    - destruct (Alloc_pool_served cfg env _ _ Hcfg Hwf (conj Hpos Hle) Henv)
        as (p' & st1 & Halloc' & _ & Hcase).
      rewrite Halloc in Halloc'. injection Halloc' as <- <-.
      destruct Hcase as [(? & _)|(b & d & -> & Hd & Ht & _)]; [done|].
      exists b, d. split; [done|]. split; [done|]. congruence. }
  destruct Hchunk as (b & d & -> & Hd & Ht).
  pose proof (chunk_extent _ _ _ _ _ (wf_chunks _ _ _ (wf_st_heap _ _ Hwf') _ _ Hd))
    as (? & ? & ?).
  exists d. rewrite metadata_data by (unfold in_size_t; lia).
  destruct (proper_call_wf_free cfg st' b d Hcfg Hused' Hd Ht) as (st'' & ? & ?).
  exists st''. split; [by eapply wf_heap_load; [apply Hwf'|]|]. done.
Qed.

Lemma Alloc_result_can_be_freed_witness :
  exists d st'',
    load_desc scenario_config (cache_ scenario_state2)
      (metadata scenario_config 65824) = Some d
    /\ desc_type d <> FREE_CHUNK
    /\ Free scenario_config 65824 scenario_state2 = Some st''
    /\ well_used scenario_config st''.
Proof.
  apply (Alloc_result_can_be_freed scenario_config (scenario_env 0 0) 100
           scenario_state1 65824 scenario_state2).
  - reflexivity.
  - apply scenario_state1_well_used.
  - vm_compute. reflexivity.
  - intros Hp. done.
  - vm_compute. reflexivity.
  - lia.
Defined.

(** ** Releasing and reusing chunks *)

(** X14: on a properly used allocator, [Free] of a pointer handed out from
    the pool does not call the system allocator; it moves the total size of
    the chunk from [total_used_] to [total_free_], leaves every other chunk
    that is handed out as it is, and afterwards one pool entry covers the
    bytes of the chunk. *)
Theorem Free_returns_chunk_to_pool cfg st a d :
  valid_config cfg = true -> well_used cfg st ->
  cache_ st !! a = Some d -> desc_type d = ARENA_CHUNK ->
  exists st' e,
    Free cfg (data cfg a) st = Some st'
    /\ sys_log st' = sys_log st
    /\ total_used_ st' = wsub (total_used_ st) (desc_total_size d)
    /\ total_free_ st' = wadd (total_free_ st) (desc_total_size d)
    /\ (forall k t, arena_at (cache_ st') k t
                    <-> k <> a /\ arena_at (cache_ st) k t)
    /\ e ∈ pool_ st' /\ covers e a (a + desc_total_size d).
Proof.
  intros Hcfg Hused Hd Ht.
  destruct (Free_arena _ _ _ _ (well_used_wf _ _ Hcfg Hused) Hd Ht)
    as (st' & Hfree & _ & Hlog & _ & Hu & Hf & Harena & _ & e & He & Hlo & Hhi).
  exists st', e. by repeat (split; [done|]).
Qed.

Lemma Free_returns_chunk_to_pool_witness :
  exists st' e,
    Free scenario_config (data scenario_config 65792) scenario_state2 = Some st'
    /\ sys_log st' = sys_log scenario_state2
    /\ total_used_ st'
       = wsub (total_used_ scenario_state2)
           (desc_total_size (scenario_chunk 65792))
    /\ total_free_ st'
       = wadd (total_free_ scenario_state2)
           (desc_total_size (scenario_chunk 65792))
    /\ (forall k t, arena_at (cache_ st') k t
                    <-> k <> 65792 /\ arena_at (cache_ scenario_state2) k t)
    /\ e ∈ pool_ st'
    /\ covers e 65792 (65792 + desc_total_size (scenario_chunk 65792)).
Proof.
  apply (Free_returns_chunk_to_pool scenario_config scenario_state2 65792
           (scenario_chunk 65792)).
  - reflexivity.
  - apply scenario_state2_well_used.
  - vm_compute. reflexivity.
  - vm_compute. reflexivity.
Defined.

(** X15: on a properly used allocator, after [Free] of a chunk an
    allocation whose computed size fits in the chunk is served from the
    pool: [Alloc] returns a chunk without any call to the system
    allocator. *)
Theorem Alloc_after_Free_reuses_memory cfg env unaligned_size st a d :
  valid_config cfg = true -> well_used cfg st ->
  cache_ st !! a = Some d -> desc_type d = ARENA_CHUNK ->
  0 < computed_size cfg unaligned_size <= max_chunk_size cfg ->
  computed_size cfg unaligned_size <= desc_total_size d ->
  exists st1 b st2,
    Free cfg (data cfg a) st = Some st1
    /\ Alloc cfg env unaligned_size st1 = Some (data cfg b, st2)
    /\ is_arena (cache_ st2) b
    /\ sys_log st2 = sys_log st.
Proof.
  intros Hcfg Hused Hd Ht Hsize Hfit.
  destruct (Free_arena _ _ _ _ (well_used_wf _ _ Hcfg Hused) Hd Ht)
    as (st1 & Hfree & Hwf1 & Hlog & _ & _ & _ & _ & _ & e & He & Hlo & Hhi).
  destruct (FindExistChunk_best_fit (pool_ st1)
              (computed_size cfg unaligned_size) (wf_st_sorted _ _ Hwf1))
    as ([e'|] & Hfind & Hbest).
  - destruct (Alloc_hit_eval cfg env _ _ _ Hcfg Hwf1 Hsize Hfind)
      as (d' & _ & _ & _ & _ & Halloc).
    eexists st1, (get2 e'), _. split; [done|]. split; [exact Halloc|]. simpl.
    split; [|done].
    destruct (served_lookup cfg (cache_ st1) (get2 e')
                (computed_size cfg unaligned_size) d') as (d'' & ? & ? & _).
    by exists d''.
  - exfalso. pose proof (Hbest e He) as Hsmall. simpl in Hsmall. lia.
Qed.

Lemma Alloc_after_Free_reuses_memory_witness :
  exists st1 b st2,
    Free scenario_config (data scenario_config 65792) scenario_state2 = Some st1
    /\ Alloc scenario_config (scenario_env 0 0) 100 st1
       = Some (data scenario_config b, st2)
    /\ is_arena (cache_ st2) b
    /\ sys_log st2 = sys_log scenario_state2.
Proof.
  apply (Alloc_after_Free_reuses_memory scenario_config (scenario_env 0 0) 100
           scenario_state2 65792 (scenario_chunk 65792)).
  - reflexivity.
  - apply scenario_state2_well_used.
  - vm_compute. reflexivity.
  - vm_compute. reflexivity.
  - vm_compute. split; [reflexivity|discriminate].
  - vm_compute. discriminate.
Defined.

(** ** Misuse and drift of the counters *)

Lemma pool_insert_present e pool :
  StronglySorted isa_lt pool -> e ∈ pool -> pool_insert e pool = pool.
Proof.
  intros Hsorted He. apply pool_sorted_ext; [by apply pool_insert_sorted|done|].
  intros x. rewrite pool_insert_elem. split; [by intros [->|?]|by right].
Qed.

Lemma set_type_same d : set_type (desc_type d) d = d.
Proof. by destruct d. Qed.

(** X16: [Free] has no check against releasing a chunk twice.  On a
    properly used allocator, [Free] of the payload pointer of a chunk that
    is FREE and pooled returns without an error and leaves the pool and the
    cache as they are, but moves the total size of the chunk from
    [total_used_] to [total_free_] once more. *)
Theorem Free_of_a_free_chunk cfg st a d :
  valid_config cfg = true -> well_used cfg st ->
  cache_ st !! a = Some d -> desc_type d = FREE_CHUNK ->
  Free cfg (data cfg a) st
  = Some (mkState (pool_ st) (cache_ st)
            (wsub (total_used_ st) (desc_total_size d))
            (wadd (total_free_ st) (desc_total_size d))
            (realloc_size_ st) (sys_log st)).
Proof.
  intros Hcfg Hused Hd Hf. pose proof (well_used_wf _ _ Hcfg Hused) as Hwf.
  pose proof (wf_st_heap _ _ Hwf) as Hheap.
  pose proof (wf_chunks _ _ _ Hheap _ _ Hd) as Hok.
  destruct (chunk_extent _ _ _ _ _ Hok) as (Ha0 & Hta & Hae).
  pose proof (wf_heap_load _ _ _ _ _ Hheap Hd) as Hload.
  unfold Free. rewrite metadata_data by (unfold in_size_t; lia).
  rewrite Hload. simpl. rewrite Hf.
  assert (Hsame : update_guards cfg (set_type FREE_CHUNK d) = d).
  { rewrite <- Hf, set_type_same.
    apply update_guards_id, (chunk_guards _ _ _ _ _ Hok). }
  unfold mark_as_free. rewrite Hload. simpl. unfold store.
  rewrite Hsame, insert_id by done. rewrite Hd. simpl.
  assert (Hright : merge_right_buddy cfg a (pool_ st) (cache_ st)
                   = Some (pool_ st, cache_ st)).
  { unfold merge_right_buddy, get_right_buddy. rewrite Hload. simpl.
    destruct (Z.eqb_spec (desc_next d) 0) as [|Hn]; [done|].
    destruct (wf_heap_next _ _ _ _ _ Hheap Hd Hn) as (_ & dr & Hdr & _).
    rewrite (wf_heap_load _ _ _ _ _ Hheap Hdr). simpl.
    pose proof (wf_st_coalesced _ _ Hwf _ _ _ Hd Hf Hdr).
    by destruct (desc_type dr). }
  assert (Hleft : merge_left_buddy cfg a (pool_ st) (cache_ st)
                  = Some (pool_ st, cache_ st, a)).
  { unfold merge_left_buddy, get_left_buddy. rewrite Hload. simpl.
    destruct (Z.eqb_spec (desc_prev d) 0) as [|Hp]; [done|].
    destruct (wf_heap_prev _ _ _ _ _ Hheap Hd Hp) as (dl & Hdl & Hnl & _).
    rewrite (wf_heap_load _ _ _ _ _ Hheap Hdl). simpl.
    destruct (desc_type dl) eqn:Htl; [|done|done].
    exfalso. rewrite <- Hnl in Hd.
    exact (wf_st_coalesced _ _ Hwf _ _ _ Hdl Htl Hd Hf). }
  rewrite Hright. simpl. rewrite Hleft. simpl. rewrite Hd. simpl.
  rewrite pool_insert_present; [done|apply Hwf|].
  apply (wf_st_pool _ _ Hwf). by exists d.
Qed.

Lemma Free_of_a_free_chunk_witness :
  Free scenario_config (data scenario_config 66048) scenario_state2
  = Some (mkState (pool_ scenario_state2) (cache_ scenario_state2)
            (wsub (total_used_ scenario_state2)
               (desc_total_size (scenario_chunk 66048)))
            (wadd (total_free_ scenario_state2)
               (desc_total_size (scenario_chunk 66048)))
            (realloc_size_ scenario_state2) (sys_log scenario_state2)).
Proof.
  apply (Free_of_a_free_chunk scenario_config scenario_state2 66048
           (scenario_chunk 66048)).
  - reflexivity.
  - apply scenario_state2_well_used.
  - vm_compute. reflexivity.
  - vm_compute. reflexivity.
Defined.

(** X17: on a properly used allocator, an allocation from the pool
    followed by [Free] of its pointer brings [Used()] back to its value
    before the allocation, less the bytes beyond the computed size that
    were too few to split off and stayed with the served chunk: [Alloc]
    adds the computed size, [Free] subtracts the total size of the chunk. *)
Theorem Used_after_Alloc_and_Free cfg env unaligned_size st p st1 :
  valid_config cfg = true -> well_used cfg st ->
  0 < computed_size cfg unaligned_size <= max_chunk_size cfg ->
  env_ok cfg env unaligned_size st ->
  Alloc cfg env unaligned_size st = Some (p, st1) -> p <> 0 ->
  exists st2 slack,
    Free cfg p st1 = Some st2
    /\ 0 <= slack <= split_min_residual cfg
    /\ Used st1 = wadd (Used st) (computed_size cfg unaligned_size)
    /\ Used st2 = wsub (Used st) slack.
Proof.
  intros Hcfg Hused Hsize Henv Halloc Hp.
  pose proof (well_used_wf _ _ Hcfg Hused) as Hwf.
  destruct (Alloc_pool_served cfg env _ _ Hcfg Hwf Hsize Henv)
    as (p' & st' & Halloc' & Hwf' & Hcase).
  rewrite Halloc in Halloc'. injection Halloc' as <- <-.
  destruct Hcase as [(? & _)|(b & d & -> & Hd & Ht & Htot & Hu & _)]; [done|].
  destruct (Free_arena _ _ _ _ Hwf' Hd Ht)
    as (st2 & Hfree & _ & _ & _ & Hu2 & _).
  exists st2, (desc_total_size d - computed_size cfg unaligned_size).
  split; [done|]. split; [done|]. unfold Used. split; [done|].
  rewrite Hu2, Hu. unfold wsub, wadd. rewrite wrap_wrap_sub. f_equal. lia.
Qed.

Lemma Used_after_Alloc_and_Free_witness :
  exists st2 slack,
    Free scenario_config 65824 scenario_state2 = Some st2
    /\ 0 <= slack <= split_min_residual scenario_config
    /\ Used scenario_state2
       = wadd (Used scenario_state1) (computed_size scenario_config 100)
    /\ Used st2 = wsub (Used scenario_state1) slack.
Proof.
  apply (Used_after_Alloc_and_Free scenario_config (scenario_env 0 0) 100
           scenario_state1 65824 scenario_state2).
  - reflexivity.
  - apply scenario_state1_well_used.
  - vm_compute. split; [reflexivity|discriminate].
  - intros Hp. done.
  - vm_compute. reflexivity.
  - lia.
Defined.

(** ** The destructor and what is still handed out *)

Lemma invalidate_all_lookup pool :
  forall (cache : gmap Z Desc) k,
    invalidate_all pool cache !! k
    = if decide (k ∈ get2 <$> pool) then None else cache !! k.
Proof.
  unfold invalidate_all, invalidate.
  induction pool as [|e pool IH]; intros cache k.
  { rewrite fmap_nil. cbn [foldl]. case_decide as Hk; [|done].
    by apply elem_of_nil in Hk. }
  rewrite fmap_cons. cbn [foldl]. rewrite IH, lookup_delete.
  repeat case_decide; try done; exfalso.
  all: match goal with
       | Hn : ~ (_ ∈ _ :: _) |- _ => apply Hn, elem_of_cons; by auto
       | Hi : _ ∈ _ :: _ |- _ => apply elem_of_cons in Hi as [?|?]; by auto
       end.
Qed.

(** X18: on a properly used allocator the destructor returns, empties the
    pool and makes one call of the system allocator's [Free] per pool
    entry.  It removes exactly the FREE chunks from the cache: chunks that
    are still handed out, from the pool or huge, are neither released to
    the system allocator nor invalidated. *)
Theorem Destructor_leaves_outstanding_chunks cfg st :
  valid_config cfg = true -> well_used cfg st ->
  exists st',
    Destructor cfg st = Some st' /\ pool_ st' = []
    /\ (exists events,
          sys_log st' = sys_log st ++ events
          /\ Forall2 (fun e ev => release_event (cache_ st) e = Some ev)
               (pool_ st) events)
    /\ (forall k d, cache_ st' !! k = Some d
          <-> cache_ st !! k = Some d /\ desc_type d <> FREE_CHUNK).
Proof.
  intros Hcfg Hused. pose proof (well_used_wf _ _ Hcfg Hused) as Hwf.
  destruct (wf_state_pool_addresses _ _ Hwf) as [Hnd Hall].
  destruct (release_pool_spec cfg (pool_ st) (cache_ st) (sys_log st) Hnd Hall)
    as (events & Hevents & Hrel).
  unfold Destructor. rewrite Hrel. simpl. eexists. split; [done|]. simpl.
  split; [done|]. split; [by exists events|].
  intros k d. rewrite invalidate_all_lookup. case_decide as Hk.
  - split; [done|]. intros [Hd Hnf]. exfalso.
    apply list_elem_of_fmap in Hk as (e & -> & He).
    apply (wf_st_pool _ _ Hwf) in He as (d' & Hd' & Hf' & _). congruence.
  - split; [|by intros [? _]]. intros Hd. split; [done|]. intros Hf.
    apply Hk. apply list_elem_of_fmap. exists (desc_key k d). split; [done|].
    apply (wf_st_pool _ _ Hwf). by exists d.
Qed.

Lemma Destructor_leaves_outstanding_chunks_witness :
  exists st',
    Destructor scenario_config scenario_state2 = Some st' /\ pool_ st' = []
    /\ (exists events,
          sys_log st' = sys_log scenario_state2 ++ events
          /\ Forall2
               (fun e ev => release_event (cache_ scenario_state2) e = Some ev)
               (pool_ scenario_state2) events)
    /\ (forall k d, cache_ st' !! k = Some d
          <-> cache_ scenario_state2 !! k = Some d
              /\ desc_type d <> FREE_CHUNK).
Proof.
  apply (Destructor_leaves_outstanding_chunks scenario_config scenario_state2).
  - reflexivity.
  - apply scenario_state2_well_used.
Defined.

Lemma release_events_map cfg cache pool events :
  Forall2 (fun e ev => release_event cache e = Some ev) pool events ->
  (forall e, e ∈ pool -> release_event cache e = Some (region_release cfg e)) ->
  events = region_release cfg <$> pool.
Proof.
  intros H. induction H as [|e ev pool events He _ IH]; intros Hall; [done|].
  rewrite fmap_cons. f_equal.
  - rewrite (Hall e) in He by by left. by injection He.
  - apply IH. intros e' He'. apply Hall. by right.
Qed.

(** X19: on a properly used allocator on which nothing is handed out any
    more, the destructor gives every region obtained by a refill back to
    the system allocator, once, as one chunk at the base address of the
    region and with its index, in the order of the pool, and leaves an
    empty cache. *)
Theorem Destructor_after_all_freed cfg st :
  valid_config cfg = true -> well_used cfg st ->
  (forall k d, cache_ st !! k = Some d -> desc_type d = FREE_CHUNK) ->
  Destructor cfg st
  = Some (mkState [] ∅ (total_used_ st) (total_free_ st) (realloc_size_ st)
            (sys_log st
             ++ (region_release cfg <$> refills_only_pool (sys_log st)))).
Proof.
  intros Hcfg Hused Hfree. pose proof (well_used_wf _ _ Hcfg Hused) as Hwf.
  assert (Hpool : pool_ st = refills_only_pool (sys_log st)).
  { apply (quiescent_pool_eq cfg); [done| |].
    - intros k (d & Hd & Ht). rewrite (Hfree _ _ Hd) in Ht. done.
    - intros k d Hd Ht. rewrite (Hfree _ _ Hd) in Ht. done. }
  destruct (wf_state_pool_addresses _ _ Hwf) as [Hnd Hall].
  destruct (release_pool_spec cfg (pool_ st) (cache_ st) (sys_log st) Hnd Hall)
    as (events & Hevents & Hrel).
  unfold Destructor. rewrite Hrel. simpl. f_equal. f_equal.
  - apply map_eq. intros k. rewrite invalidate_all_lookup, lookup_empty.
    case_decide as Hk; [done|].
    destruct (cache_ st !! k) as [d|] eqn:Hd; [|done]. exfalso.
    apply Hk. apply list_elem_of_fmap. exists (desc_key k d). split; [done|].
    apply (wf_st_pool _ _ Hwf). exists d. split; [done|].
    split; [by eapply Hfree|done].
  - rewrite <- Hpool. f_equal.
    apply (release_events_map cfg (cache_ st)); [done|].
    intros e He. apply (wf_st_pool _ _ Hwf) in He as (d & Hd & _ & Hkey).
    unfold release_event. rewrite Hd. simpl. unfold region_release.
    destruct (chunk_fields _ _ _ _ _
                (wf_chunks _ _ _ (wf_st_heap _ _ Hwf) _ _ Hd)) as [_ Hsize].
    assert (Htot : get1 e = desc_total_size d) by (rewrite Hkey; done).
    assert (Hidx : get0 e = desc_index d) by (rewrite Hkey; done).
    by rewrite Hsize, Htot, Hidx.
Qed.

Lemma scenario_state4_well_used : well_used scenario_config scenario_state4.
Proof.
  apply (well_used_step scenario_config scenario_state3 (CallFree 65824)
           scenario_state4).
  - apply (well_used_step scenario_config scenario_state2 (CallFree 65568)
             scenario_state3).
    + apply scenario_state2_well_used.
    + exists 65536, (scenario_chunk 65536).
      split; [reflexivity|]. split; [vm_compute; reflexivity|].
      vm_compute. discriminate.
    + vm_compute. reflexivity.
  - exists 65792, (scenario_chunk 65792).
    split; [reflexivity|]. split; [vm_compute; reflexivity|].
    vm_compute. discriminate.
  - vm_compute. reflexivity.
Qed.

Lemma Destructor_after_all_freed_witness :
  Destructor scenario_config scenario_state4
  = Some (mkState [] ∅ (total_used_ scenario_state4)
            (total_free_ scenario_state4) (realloc_size_ scenario_state4)
            (sys_log scenario_state4
             ++ (region_release scenario_config
                   <$> refills_only_pool (sys_log scenario_state4)))).
Proof.
  apply (Destructor_after_all_freed scenario_config scenario_state4).
  - reflexivity.
  - apply scenario_state4_well_used.
  - intros k d Hd.
    assert (Hcache : cache_ scenario_state4
                     = {[ 65536 := default d (cache_ scenario_state4 !! 65536) ]}).
    { vm_compute. reflexivity. }
    rewrite Hcache in Hd. apply lookup_singleton_Some in Hd as [_ <-].
    vm_compute. reflexivity.
Defined.
